(** * pol: lazy scope resolution and streaming evaluation

    A shallow embedding of [pol/pol.py]: the scope arbiter ([set_scope]),
    the record cursor ([RecordScoped]), the environment built by [pol], the
    evaluation rounds and the printer dispatch, together with the collaborator
    classes the engine is written against ([LazyItem], [LazyItemDict],
    [LazySequence], [RecordSequence], [Prog], [Printer]); those live in
    modules of the package that [pol.py] only imports, and are modelled from
    the specification. *)

From Stdlib Require Import ZArith String List Lia Bool.
From stdpp Require Import base option list strings pretty gmap.
Import ListNotations.

Local Open Scope string_scope.
Local Open Scope list_scope.

(** ** Replayable sequences *)

Module LazySequence.

(** Modelled from the spec: [LazySequence] / [RecordSequence] (pol/util.py and
    pol/record.py are imported by pol.py but are not part of the sources at
    hand).  A replayable sequence wraps a one-pass producer; elements already
    produced sit in a buffer, an index beyond the buffer pulls further
    elements from the producer and appends them, and iteration from the start
    replays the buffer before it resumes the producer. *)
Section Replay.
Context {P A : Type}.

(** [next()] on the one-pass producer: [None] is [StopIteration]. *)
Variable pull : P -> option A * P.

Fixpoint fill (n : nat) (buf : list A) (s : P) : list A * P :=
  match n with
  | O => (buf, s)
  | S n' =>
      match pull s with
      | (Some a, s') => fill n' (buf ++ [a]) s'
      | (None, s') => (buf, s')
      end
  end.

(** [seq[i]]: materialize up to index [i], then look the buffer up. *)
Definition getitem (i : nat) (buf : list A) (s : P) : option A * (list A * P) :=
  let st := fill (S i - length buf) buf s in
  (fst st !! i, st).

(** One step of an iterator over the sequence that stands at position [i]. *)
Definition iter_next (i : nat) (buf : list A) (s : P) : option A * nat * (list A * P) :=
  match getitem i buf s with
  | (Some a, st) => (Some a, S i, st)
  | (None, st) => (None, i, st)
  end.

(** [for x in seq] from position [i], driven for at most [fuel] steps;
    [None] when the fuel does not reach the end of the sequence. *)
Fixpoint traverse (fuel i : nat) (buf : list A) (s : P) : option (list A) * (list A * P) :=
  match fuel with
  | O => (None, (buf, s))
  | S fuel' =>
      match iter_next i buf s with
      | (Some a, i', (buf', s')) =>
          match traverse fuel' i' buf' s' with
          | (Some l, st) => (Some (a :: l), st)
          | (None, st) => (None, st)
          end
      | (None, _, st) => (Some [], st)
      end
  end.

(** The state of the producer after [k] further calls of [next()]. *)
Fixpoint after (k : nat) (s : P) : P :=
  match k with
  | O => s
  | S k' => after k' (snd (pull s))
  end.

(** An exhausted producer answers [StopIteration] from now on. *)
Definition exhausted (s : P) : Prop := forall k, fst (pull (after k s)) = None.

(** The producer in state [s] yields exactly the elements [l], in order. *)
Fixpoint yields (s : P) (l : list A) : Prop :=
  match l with
  | [] => exhausted s
  | a :: l' => exists s', pull s = (Some a, s') /\ yields s' l'
  end.

(** The buffer is a prefix of the elements [l] and the producer is to yield
    the rest. *)
Definition replay_inv (l : list A) (st : list A * P) : Prop :=
  exists rest, l = fst st ++ rest /\ yields (snd st) rest.

(** A consumer either walks the whole sequence or indexes into it. *)
Inductive op := Iterate | Index (i : nat).

Inductive answer := Walked (l : option (list A)) | Item (a : option A).

Definition run_op (fuel : nat) (o : op) (st : list A * P) : answer * (list A * P) :=
  match o with
  | Iterate => let r := traverse fuel 0 (fst st) (snd st) in (Walked (fst r), snd r)
  | Index i => let r := getitem i (fst st) (snd st) in (Item (fst r), snd r)
  end.

Fixpoint run_ops (fuel : nat) (os : list op) (st : list A * P) : list answer * (list A * P) :=
  match os with
  | [] => ([], st)
  | o :: os' =>
      let r := run_op fuel o st in
      let rs := run_ops fuel os' (snd r) in
      (fst r :: fst rs, snd rs)
  end.

(** What each consumer is to see of a sequence whose elements are [l]. *)
Definition expected (l : list A) (o : op) : answer :=
  match o with
  | Iterate => Walked (Some l)
  | Index i => Item (l !! i)
  end.
End Replay.

(** A producer that counts the elements it hands out. *)
Definition counted {P A : Type} (pull : P -> option A * P) (c : P * nat) : option A * (P * nat) :=
  match pull (fst c) with
  | (Some a, s') => (Some a, (s', S (snd c)))
  | (None, s') => (None, (s', snd c))
  end.

(** The simplest one-pass producer: a list that is consumed from the front. *)
Definition list_pull {A : Type} (l : list A) : option A * list A :=
  match l with
  | [] => (None, [])
  | a :: l' => (Some a, l')
  end.

End LazySequence.

(** ** Data model *)

(** A record: its fields and the raw text of its line ([record.str]). *)
Record PolRecord := mkRecord { fields : list string; str : string }.

(** The [Printer] subclasses that [pol] puts into the environment. *)
Inductive PrinterClass :=
| AutoPrinter | AwkPrinter | CsvPrinter | MarkdownPrinter
| JsonPrinter | ReprPrinter | StrPrinter.

(** Python values that cross the boundary between the engine and the user
    program.  [VRecordSequence] and [VLazySequence] are references to the two
    shared sequence objects of one run ([record_seq] and the sequence of
    lines); their state lives in the run's [State]. *)
Inductive value :=
| VNone
| VInt (z : Z)
| VStr (s : string)
| VRecord (r : PolRecord)
| VRecordSequence
| VLazySequence
| VDataFrame (rows : list PolRecord)
| VPrinter (c : PrinterClass)
| VClass (name : string)
| VModule (name : string)
| VUndefined.

(** The variable [scope] of [pol]: 'undecided', 'record' or 'table'. *)
Inductive Scope := undecided | record | table.

(** Exceptions.  [NoMoreRecords] is the subclass of [StopIteration] declared
    in pol.py; [UserError] carries its [__cause__]; [Exc] stands for any
    other exception class a user program raises (ZeroDivisionError, ...). *)
Inductive exn :=
| NoMoreRecords
| StopIteration
| RuntimeError (msg : string)
| NameError (name : string)
| AttributeError (name : string)
| IndexError
| TypeError
| ModuleNotFoundError (name : string)
| Exc (cls msg : string)
| UserError (cause : exn).

#[global] Instance PolRecord_eq_dec : EqDecision PolRecord.
Proof. solve_decision. Defined.
#[global] Instance PrinterClass_eq_dec : EqDecision PrinterClass.
Proof. solve_decision. Defined.
#[global] Instance value_eq_dec : EqDecision value.
Proof. solve_decision. Defined.
#[global] Instance Scope_eq_dec : EqDecision Scope.
Proof. solve_decision. Defined.
#[global] Instance exn_eq_dec : EqDecision exn.
Proof. solve_decision. Defined.

(** The built-in classes that derive from [BaseException] and not from
    [Exception]: a clause [except Exception] lets them pass. *)
Definition base_only : list string := ["SystemExit"; "KeyboardInterrupt"; "GeneratorExit"].

(** [isinstance(e, Exception)] *)
Definition is_Exception (e : exn) : bool :=
  match e with
  | Exc cls _ => negb (bool_decide (cls ∈ base_only))
  | _ => true
  end.

(** The closures that [pol] hands to [LazyItem], one constructor per lambda
    or local function of the source. *)
Inductive func :=
| FConst (v : value)        (* lambda: value        (table_scoped, lazy=False) *)
| FGetContents              (* lambda: get_contents(input_file) *)
| FGetDataframe             (* get_dataframe *)
| FLine                     (* lambda: record_var().str *)
| FImport (name : string).  (* lambda: importlib.import_module(name) *)

(** Modelled from the spec: [LazyItem] (pol/util.py is not part of the
    sources at hand): a zero-argument producer, the access observer (here the
    scope it reports to [set_scope], if any), the cache flag and the cached
    result. *)
Record LazyItem := mkLazyItem {
  li_func : func;
  li_on_accessed : option Scope;
  li_cache : bool;
  li_val : option value
}.

(** What a name of [global_dict] is bound to.  [RecordVar] is the one shared
    [RecordScoped] instance [record_var], bound under two names. *)
Inductive binding :=
| Plain (v : value)
| Item (it : LazyItem)
| RecordVar.

(** The generator [gen_records()]: not started, inside the [with] block on
    standard input or on its own handle of the named file, or finished. *)
Inductive GenState :=
| GenFresh
| GenStdin
| GenFile (rest : list PolRecord)
| GenDone.

(** What is fixed when [pol] is called.  The input is taken as the parser
    collaborator tokenizes it: one [PolRecord] per record of the stream;
    [file_data] is the content of [input_file] when one is named. *)
Record Config := mkConfig {
  input_file : option string;
  file_data : list PolRecord;
  has_pandas : bool;
  has_numpy : bool;
  output_format : PrinterClass
}.

(** The final result handed to the printer: the value of the single round, or
    [itertools.chain((result,), (prog.exec(global_dict) for _ in record_var))]
    with [result] not yet consumed. *)
Inductive result := Single (v : value) | Chain (first : value).

Record State := mkState {
  cfg : Config;
  (* the input source *)
  stdin : list PolRecord;
  gen : GenState;
  (* record_seq and the LazySequence of lines *)
  seq_buf : list PolRecord;
  lines_it : nat;
  lines_buf : list string;
  (* record_var *)
  rv_val : option PolRecord;
  rv_iter : nat;
  (* the engine *)
  scope : Scope;
  global_dict : gmap string binding;
  (* what the printers were given and wrote *)
  print_calls : list (PrinterClass * result * value);
  stdout : list value;
  (* observations: rounds run so far; names the program has read so far;
     observers fired in the current round; calls of get_contents so far *)
  rounds : nat;
  reads : list string;
  fired : list Scope;
  direct_reads : nat
}.

Definition with_source (i : list PolRecord) (g : GenState) (st : State) : State :=
  mkState (cfg st) i g (seq_buf st) (lines_it st) (lines_buf st) (rv_val st) (rv_iter st)
    (scope st) (global_dict st) (print_calls st) (stdout st)
    (rounds st) (reads st) (fired st) (direct_reads st).

Definition with_seq_buf (b : list PolRecord) (st : State) : State :=
  mkState (cfg st) (stdin st) (gen st) b (lines_it st) (lines_buf st) (rv_val st) (rv_iter st)
    (scope st) (global_dict st) (print_calls st) (stdout st)
    (rounds st) (reads st) (fired st) (direct_reads st).

Definition with_lines (i : nat) (b : list string) (st : State) : State :=
  mkState (cfg st) (stdin st) (gen st) (seq_buf st) i b (rv_val st) (rv_iter st)
    (scope st) (global_dict st) (print_calls st) (stdout st)
    (rounds st) (reads st) (fired st) (direct_reads st).

Definition with_cursor (v : option PolRecord) (i : nat) (st : State) : State :=
  mkState (cfg st) (stdin st) (gen st) (seq_buf st) (lines_it st) (lines_buf st) v i
    (scope st) (global_dict st) (print_calls st) (stdout st)
    (rounds st) (reads st) (fired st) (direct_reads st).

Definition with_scope (s : Scope) (st : State) : State :=
  mkState (cfg st) (stdin st) (gen st) (seq_buf st) (lines_it st) (lines_buf st) (rv_val st)
    (rv_iter st) s (global_dict st) (print_calls st) (stdout st)
    (rounds st) (reads st) (fired st) (direct_reads st).

Definition with_global_dict (d : gmap string binding) (st : State) : State :=
  mkState (cfg st) (stdin st) (gen st) (seq_buf st) (lines_it st) (lines_buf st) (rv_val st)
    (rv_iter st) (scope st) d (print_calls st) (stdout st)
    (rounds st) (reads st) (fired st) (direct_reads st).

Definition with_printed (c : list (PrinterClass * result * value)) (o : list value)
    (st : State) : State :=
  mkState (cfg st) (stdin st) (gen st) (seq_buf st) (lines_it st) (lines_buf st) (rv_val st)
    (rv_iter st) (scope st) (global_dict st) c o
    (rounds st) (reads st) (fired st) (direct_reads st).

Definition with_observed (n : nat) (r : list string) (f : list Scope) (d : nat)
    (st : State) : State :=
  mkState (cfg st) (stdin st) (gen st) (seq_buf st) (lines_it st) (lines_buf st) (rv_val st)
    (rv_iter st) (scope st) (global_dict st) (print_calls st) (stdout st) n r f d.

(** ** A state and exception monad for the engine

    Python code mutates the run's state and may raise; a raise keeps the
    mutations made so far. *)

Inductive res (A : Type) := Ok (a : A) | Raised (e : exn).
Arguments Ok {A} a.
Arguments Raised {A} e.

Definition M (A : Type) : Type := State -> res A * State.

Definition ret {A} (a : A) : M A := fun st => (Ok a, st).
Definition raise {A} (e : exn) : M A := fun st => (Raised e, st).
Definition bind {A B} (c : M A) (k : A -> M B) : M B := fun st =>
  match c st with
  | (Ok a, st') => k a st'
  | (Raised e, st') => (Raised e, st')
  end.
Definition modify (f : State -> State) : M unit := fun st => (Ok tt, f st).

Notation "'let*' x ':=' c 'in' k" := (bind c (fun x => k))
  (at level 10, x name, c at level 100, k at level 200).
Notation "c ';;' k" := (bind c (fun _ => k))
  (at level 100, k at level 200, right associativity).

(** ** The scope arbiter (pol.py, [set_scope]) *)

Definition mixed_scope_msg : string :=
  "Cannot access both record scoped and table scoped variables".

Definition set_scope (newscope : Scope) : M unit := fun st =>
  if bool_decide (scope st <> newscope) && bool_decide (scope st <> undecided)
  then (Raised (RuntimeError mixed_scope_msg), st)
  else (Ok tt, with_scope newscope st).

(** A sequence of calls of [set_scope], each on the state the previous one
    left; a call that raises leaves [scope] as it was and the next call is
    made all the same. *)
Fixpoint set_scope_calls (calls : list Scope) (st : State) : State :=
  match calls with
  | [] => st
  | s :: calls' => set_scope_calls calls' (snd (set_scope s st))
  end.

(** An access observer: [lambda: set_scope(s)], or the default that does
    nothing.  Every firing is noted in [fired]. *)
Definition on_accessed (o : option Scope) : M unit :=
  match o with
  | None => ret tt
  | Some s =>
      modify (fun st => with_observed (rounds st) (reads st) (fired st ++ [s])
                          (direct_reads st) st) ;;
      set_scope s
  end.

(** ** The input source (pol.py, [get_io], [get_contents], [gen_records]) *)

(** [f.read()]: the raw text of the records still unread, each followed by
    the record separator. *)
Definition record_separator : string := String (Ascii.ascii_of_nat 10) EmptyString.

Definition read_text (l : list PolRecord) : string :=
  String.concat "" (map (fun r => str r +:+ record_separator) l).

(** [get_contents(input_file)]: [get_io] opens the named file afresh, or
    yields [sys.stdin] itself; [f.read()] then takes whatever that handle
    still holds. *)
Definition get_contents : M string := fun st =>
  let st' := with_observed (rounds st) (reads st) (fired st) (S (direct_reads st)) st in
  match input_file (cfg st) with
  | Some _ => (Ok (read_text (file_data (cfg st))), st')
  | None => (Ok (read_text (stdin st)), with_source [] (gen st') st')
  end.

(** One [next()] on the generator [gen_records()].  Its first resumption
    enters [with get_io(input_file) as f]; each resumption takes one record
    of [parser.records(f)]. *)
Definition gen_records (c : Config) (s : list PolRecord * GenState)
    : option PolRecord * (list PolRecord * GenState) :=
  let g := match snd s with
           | GenFresh => match input_file c with
                         | Some _ => GenFile (file_data c)
                         | None => GenStdin
                         end
           | g => g
           end in
  match g with
  | GenStdin =>
      match fst s with
      | r :: rest => (Some r, (rest, GenStdin))
      | [] => (None, ([], GenDone))
      end
  | GenFile (r :: rest) => (Some r, (fst s, GenFile rest))
  | GenFile [] => (None, (fst s, GenDone))
  | _ => (None, (fst s, GenDone))
  end.

(** The records [gen_records()] has still to yield. *)
Definition pending (c : Config) (s : list PolRecord * GenState) : list PolRecord :=
  match snd s with
  | GenFresh => match input_file c with Some _ => file_data c | None => fst s end
  | GenStdin => fst s
  | GenFile rest => rest
  | GenDone => []
  end.

(** ** [record_seq] and the sequence of lines *)

Definition put_seq (r : list PolRecord * (list PolRecord * GenState)) (st : State) : State :=
  with_seq_buf (fst r) (with_source (fst (snd r)) (snd (snd r)) st).

(** [record_seq[i]] *)
Definition record_seq_getitem (i : nat) : M (option PolRecord) := fun st =>
  let r := LazySequence.getitem (gen_records (cfg st)) i (seq_buf st) (stdin st, gen st) in
  (Ok (fst r), put_seq (snd r) st).

(** Walking [record_seq] from the start to its end: the buffer is replayed
    and the producer is resumed until it stops. *)
Definition record_seq_all : M (list PolRecord) := fun st =>
  let n := S (length (pending (cfg st) (stdin st, gen st))) in
  let r := LazySequence.fill (gen_records (cfg st)) n (seq_buf st) (stdin st, gen st) in
  (Ok (fst r), put_seq r st).

(** The generator [(r.str for r in record_seq)]: an iterator over
    [record_seq] that stands at some position, mapped to the raw text. *)
Definition lines_gen (c : Config) (s : nat * (list PolRecord * (list PolRecord * GenState)))
    : option string * (nat * (list PolRecord * (list PolRecord * GenState))) :=
  match LazySequence.iter_next (gen_records c) (fst s) (fst (snd s)) (snd (snd s)) with
  | (o, i, r) => (str <$> o, (i, r))
  end.

Definition put_lines (r : list string * (nat * (list PolRecord * (list PolRecord * GenState))))
    (st : State) : State :=
  with_lines (fst (snd r)) (fst r) (put_seq (snd (snd r)) st).

(** [lines[i]] *)
Definition lines_getitem (i : nat) : M (option string) := fun st =>
  let r := LazySequence.getitem (lines_gen (cfg st)) i (lines_buf st)
             (lines_it st, (seq_buf st, (stdin st, gen st))) in
  (Ok (fst r), put_lines (snd r) st).

(** Walking the sequence of lines from the start to its end. *)
Definition lines_all : M (list string) := fun st =>
  let n := S (length (seq_buf st) + length (pending (cfg st) (stdin st, gen st))) in
  let r := LazySequence.fill (lines_gen (cfg st)) n (lines_buf st)
             (lines_it st, (seq_buf st, (stdin st, gen st))) in
  (Ok (fst r), put_lines r st).

(** ** The record cursor (pol.py, class [RecordScoped])

    [record_var = RecordScoped(record_seq, on_accessed=lambda: set_scope('record'))];
    [self._iter = iter(record_seq)] is an iterator over [record_seq] at
    position [rv_iter], and [self._val] is [rv_val] ([None] while unset). *)

Module RecordScoped.

(** [__next__]: [self._val = next(self._iter)]; a [StopIteration] of the
    iterator is raised again as [NoMoreRecords]. *)
Definition __next__ : M PolRecord := fun st =>
  match LazySequence.iter_next (gen_records (cfg st)) (rv_iter st) (seq_buf st)
          (stdin st, gen st) with
  | (Some r, i, q) => (Ok r, with_cursor (Some r) i (put_seq q st))
  | (None, i, q) => (Raised NoMoreRecords, with_cursor (rv_val st) i (put_seq q st))
  end.

(** [_get_first_time]: [self._on_accessed(); next(self); return self._val]. *)
Definition _get_first_time : M PolRecord :=
  on_accessed (Some record) ;;
  __next__ ;;
  fun st => match rv_val st with
            | Some r => (Ok r, st)
            | None => (Raised (AttributeError "_val"), st)
            end.

(** Modelled from the spec: [LazyItem.__call__] as [RecordScoped] inherits it
    (pol/util.py is not part of the sources at hand), with [cache=True] and
    the cached result kept in [self._val], the attribute that [__next__]
    overwrites: the observer fires, then the current record is returned, and
    fetched by [_get_first_time] only when there is none yet. *)
Definition __call__ : M PolRecord :=
  on_accessed (Some record) ;;
  fun st => match rv_val st with
            | Some r => (Ok r, st)
            | None =>
                (let* r := _get_first_time in
                 modify (fun st' => with_cursor (Some r) (rv_iter st') st') ;;
                 ret r) st
            end.

End RecordScoped.

(** ** Lazy items and the environment *)

(** pol.py, [get_dataframe]: [import pandas] may fail; the data frame is
    built from a walk over [record_seq] (its column names, taken from
    [record_seq.header], are left out). *)
Definition get_dataframe : M value := fun st =>
  if has_pandas (cfg st)
  then (let* rows := record_seq_all in ret (VDataFrame rows)) st
  else (Raised (ModuleNotFoundError "pandas"), st).

(** [importlib.import_module(name)] for the two modules [pol] imports on
    demand. *)
Definition import_module (name : string) : M value := fun st =>
  if (String.eqb name "pandas" && has_pandas (cfg st))
     || (String.eqb name "numpy" && has_numpy (cfg st))
  then (Ok (VModule name), st)
  else (Raised (ModuleNotFoundError name), st).

(** Calling one of the closures handed to [LazyItem]. *)
Definition call_func (f : func) : M value :=
  match f with
  | FConst v => ret v
  | FGetContents => let* s := get_contents in ret (VStr s)
  | FGetDataframe => get_dataframe
  | FLine => let* r := RecordScoped.__call__ in ret (VStr (str r))
  | FImport name => import_module name
  end.

Definition store_item (name : string) (it : LazyItem) : M unit :=
  modify (fun st => with_global_dict (<[name := Item it]> (global_dict st)) st).

(** Modelled from the spec: [LazyItem.__call__]: the access observer fires
    first, on every call; a cached result is returned as it is; otherwise the
    producer runs, and its result is stored when caching is enabled (a
    failure of the producer is raised and nothing is stored).  [name] is the
    name under which the item is bound. *)
Definition LazyItem_call (name : string) (it : LazyItem) : M value :=
  on_accessed (li_on_accessed it) ;;
  match li_cache it, li_val it with
  | true, Some v => ret v
  | _, _ =>
      let* v := call_func (li_func it) in
      (if li_cache it
       then store_item name (mkLazyItem (li_func it) (li_on_accessed it) true (Some v))
       else ret tt) ;;
      ret v
  end.

(** The value a binding stands for: a lazy item is called. *)
Definition resolve (name : string) (b : binding) : M value :=
  match b with
  | Plain v => ret v
  | Item it => LazyItem_call name it
  | RecordVar => let* r := RecordScoped.__call__ in ret (VRecord r)
  end.

Inductive KeyError_or (A : Type) := Found (a : A) | Missing.
Arguments Found {A} a.
Arguments Missing {A}.

(** Modelled from the spec: [LazyItemDict] (pol/util.py is not part of the
    sources at hand): a mapping from names to lazy items or plain values;
    reading a name resolves a lazy item, assigning binds a plain value. *)
Definition LazyItemDict_lookup (name : string) : M (KeyError_or value) := fun st =>
  match global_dict st !! name with
  | None => (Ok Missing, st)
  | Some b => (let* v := resolve name b in ret (Found v)) st
  end.

Definition LazyItemDict_getitem (name : string) : M value :=
  let* o := LazyItemDict_lookup name in
  match o with
  | Found v => ret v
  | Missing => raise (Exc "KeyError" name)
  end.

Definition LazyItemDict_get (name : string) : M value :=
  let* o := LazyItemDict_lookup name in
  match o with
  | Found v => ret v
  | Missing => ret VNone
  end.

Definition LazyItemDict_setitem (name : string) (v : value) : M unit :=
  modify (fun st => with_global_dict (<[name := Plain v]> (global_dict st)) st).

(** ** The user program

    Modelled from the spec: [Prog] (pol/parser.py is not part of the sources
    at hand): the capability "evaluate the expression against the
    environment, return a value or raise", with read and write access to the
    environment.  A program is the tree of what it does at that boundary: it
    reads a name, assigns a name, subscripts or walks a value it holds,
    returns, or raises; what it computes in between is the Rocq function in
    the continuation.  An exception raised by the environment ends the
    round, unless it is a [StopIteration], which [NoMoreRecords] is
    (pol.py, [class NoMoreRecords(StopIteration)]), raised where a part of
    the expression is evaluated inside an iterator protocol
    ([next(it, default)], the function of a [map], the source of a
    comprehension): Python takes it for the end of an iteration there, and
    the expression goes on.  [Absorb body k] is such a part: [k] gets the
    value of [body], or [None] when [body] raised a [StopIteration]; any
    other exception of [body] ends the round.  (The body of a generator is
    the same with a [k] that raises the [RuntimeError] Python makes of a
    [StopIteration] there.) *)
Inductive prog :=
| Ret (v : value)
| Raise (e : exn)
| Get (name : string) (k : value -> prog)
| Assign (name : string) (v : value) (k : prog)
| GetItem (v : value) (i : nat) (k : value -> prog)
| ToList (v : value) (k : list value -> prog)
| Absorb (body : prog) (k : option value -> prog).

(** [isinstance(e, StopIteration)] *)
Definition is_StopIteration (e : exn) : bool :=
  match e with
  | NoMoreRecords | StopIteration => true
  | _ => false
  end.

Definition note_read (name : string) : M unit :=
  modify (fun st => with_observed (rounds st) (reads st ++ [name]) (fired st)
                      (direct_reads st) st).

(** Reading the name [name] in the program. *)
Definition load (name : string) : M value :=
  note_read name ;;
  let* o := LazyItemDict_lookup name in
  match o with
  | Found v => ret v
  | Missing => raise (NameError name)
  end.

(** [v[i]] *)
Definition subscript (v : value) (i : nat) : M value :=
  match v with
  | VRecordSequence =>
      let* o := record_seq_getitem i in
      match o with Some r => ret (VRecord r) | None => raise IndexError end
  | VLazySequence =>
      let* o := lines_getitem i in
      match o with Some s => ret (VStr s) | None => raise IndexError end
  | VRecord r =>
      match fields r !! i with Some f => ret (VStr f) | None => raise IndexError end
  | _ => raise TypeError
  end.

(** [list(v)] *)
Definition to_list (v : value) : M (list value) :=
  match v with
  | VRecordSequence => let* l := record_seq_all in ret (VRecord <$> l)
  | VLazySequence => let* l := lines_all in ret (VStr <$> l)
  | VRecord r => ret (VStr <$> fields r)
  | _ => raise TypeError
  end.

Fixpoint exec (p : prog) : M value :=
  match p with
  | Ret v => ret v
  | Raise e => raise e
  | Get name k => let* v := load name in exec (k v)
  | Assign name v k => LazyItemDict_setitem name v ;; exec k
  | GetItem v i k => let* x := subscript v i in exec (k x)
  | ToList v k => let* l := to_list v in exec (k l)
  | Absorb body k => fun st =>
      match exec body st with
      | (Ok v, st') => exec (k (Some v)) st'
      | (Raised e, st') =>
          if is_StopIteration e then exec (k None) st' else (Raised e, st')
      end
  end.

(** [prog.exec(global_dict)]: one evaluation round. *)
Definition Prog_exec (p : prog) : M value :=
  modify (fun st => with_observed (S (rounds st)) (reads st) [] (direct_reads st) st) ;;
  exec p.

(** ** Printing *)

(** How a loop of the model ends: it came to its end, an exception left it,
    or the bound on its iterations was reached. *)
Inductive loop_res := Finished | Failed (e : exn) | OutOfFuel.

(** An exception that leaves the body of a generator: a [StopIteration]
    there is turned into a [RuntimeError] by Python. *)
Definition generator_raise (e : exn) : exn :=
  if is_StopIteration e then RuntimeError "generator raised StopIteration" else e.

Definition render (v : value) (st : State) : State :=
  with_printed (print_calls st) (stdout st ++ [v]) st.

(** The generator [(prog.exec(global_dict) for _ in record_var)], driven to
    its end by the printer, which renders each element as it is yielded.
    [for _ in record_var] calls [record_var.__next__()] and ends on
    [StopIteration], which [NoMoreRecords] is. *)
Fixpoint rounds_loop (fuel : nat) (p : prog) (st : State) : loop_res * State :=
  match fuel with
  | O => (OutOfFuel, st)
  | S fuel' =>
      match RecordScoped.__next__ st with
      | (Raised e, st1) =>
          if is_StopIteration e then (Finished, st1) else (Failed (generator_raise e), st1)
      | (Ok _, st1) =>
          match Prog_exec p st1 with
          | (Raised e, st2) => (Failed (generator_raise e), st2)
          | (Ok v, st2) => rounds_loop fuel' p (render v st2)
          end
      end
  end.

(** The elements the printer renders for a single value: those of a sequence
    object, walked from its start, or the value itself. *)
Definition elements_of (v : value) : M (list value) :=
  match v with
  | VRecordSequence | VLazySequence => to_list v
  | _ => ret [v]
  end.

(** The records [record_var] can still advance over. *)
Definition ahead (st : State) : nat :=
  length (seq_buf st) + length (pending (cfg st) (stdin st, gen st)).

(** Modelled from the spec: [Printer.print_result(result, header=...)]
    (pol/ioformat.py is not part of the sources at hand): the printer consumes
    the result element by element and writes each element as it gets it. *)
Definition note_call (c : PrinterClass) (r : result) (header : value) (st : State) : State :=
  with_printed (print_calls st ++ [(c, r, header)]) (stdout st) st.

Definition print_result (c : PrinterClass) (r : result) (header : value) (p : prog)
    (st : State) : loop_res * State :=
  let st0 := note_call c r header st in
  match r with
  | Single v =>
      match elements_of v st0 with
      | (Ok l, st1) => (Finished, with_printed (print_calls st1) (stdout st1 ++ l) st1)
      | (Raised e, st1) => (Failed e, st1)
      end
  | Chain first => rounds_loop (S (ahead st0)) p (render first st0)
  end.

(** [repr(v)], as far as the message of the printer check needs it. *)
Definition repr (v : value) : string :=
  match v with
  | VNone => "None"
  | VInt z => pretty z
  | VStr s => "'" +:+ s +:+ "'"
  | VRecord r => "Record(" +:+ str r +:+ ")"
  | VRecordSequence => "<RecordSequence>"
  | VLazySequence => "<LazySequence>"
  | VDataFrame _ => "<DataFrame>"
  | VPrinter _ => "<Printer>"
  | VClass name => "<class '" +:+ name +:+ "'>"
  | VModule name => "<module '" +:+ name +:+ "'>"
  | VUndefined => "_UNDEFINED_"
  end.

Definition dquote : string := String (Ascii.ascii_of_nat 34) EmptyString.

Definition printer_msg (v : value) : string :=
  "printer must be an instance of Printer. Found " +:+ dquote +:+ repr v +:+ dquote
  +:+ " instead".

(** ** The engine (pol.py, [pol]) *)

(** [table_scoped(value, lazy=...)] *)
Definition table_scoped_lazy (f : func) : binding :=
  Item (mkLazyItem f (Some table) true None).

Definition table_scoped_value (v : value) : binding :=
  Item (mkLazyItem (FConst v) (Some table) false None).

(** The dictionary given to [LazyItemDict]. *)
Definition initial_dict (c : Config) : gmap string binding :=
  list_to_map [
    ("lines", table_scoped_value VLazySequence);
    ("records", table_scoped_value VRecordSequence);
    ("filename", Plain (match input_file c with Some f => VStr f | None => VNone end));
    ("file", table_scoped_lazy FGetContents);
    ("contents", table_scoped_lazy FGetContents);
    ("df", table_scoped_lazy FGetDataframe);
    ("record", RecordVar);
    ("fields", RecordVar);
    ("line", Item (mkLazyItem FLine None false None));
    ("printer", Plain (VPrinter (output_format c)));
    ("re", Plain (VModule "re"));
    ("pd", Item (mkLazyItem (FImport "pandas") None true None));
    ("np", Item (mkLazyItem (FImport "numpy") None true None));
    ("Header", Plain (VClass "Header"));
    ("_UNDEFINED_", Plain VUndefined);
    ("header", Plain VNone);
    ("AutoPrinter", Plain (VClass "AutoPrinter"));
    ("AwkPrinter", Plain (VClass "AwkPrinter"));
    ("CsvPrinter", Plain (VClass "CsvPrinter"));
    ("MarkdownPrinter", Plain (VClass "MarkdownPrinter"));
    ("JsonPrinter", Plain (VClass "JsonPrinter"));
    ("ReprPrinter", Plain (VClass "ReprPrinter"));
    ("StrPrinter", Plain (VClass "StrPrinter"))
  ].

(** The state of a run before the first round: nothing read, nothing
    buffered, [scope = 'undecided']. *)
Definition initial (c : Config) (input : list PolRecord) : State :=
  mkState c input GenFresh [] 0 [] None 0 undecided (initial_dict c) [] [] 0 [] [] 0.

(** How a call of [pol] ends. *)
Inductive outcome :=
| Returned
| Fatal (e : exn)
| Unfinished.

Definition of_loop (r : loop_res) : outcome :=
  match r with
  | Finished => Returned
  | Failed e => Fatal e
  | OutOfFuel => Unfinished
  end.

(** The [try] statement of [pol], from a given state of the run:
    [except NoMoreRecords: pass], then
    [except Exception as e: raise UserError() from e], which an exception
    that is no [Exception] passes as it is, then the [else:] block. *)
Definition run (p : prog) (st : State) : outcome * State :=
  match Prog_exec p st with
  | (Raised NoMoreRecords, st1) => (Returned, st1)
  | (Raised e, st1) => (if is_Exception e then Fatal (UserError e) else Fatal e, st1)
  | (Ok r0, st1) =>
      let result := if bool_decide (scope st1 = record) then Chain r0 else Single r0 in
      match LazyItemDict_getitem "printer" st1 with
      | (Raised e, st2) => (Fatal e, st2)
      | (Ok (VPrinter _), st2) =>
          match LazyItemDict_getitem "printer" st2 with
          | (Raised e, st3) => (Fatal e, st3)
          | (Ok (VPrinter c), st3) =>
              match LazyItemDict_get "header" st3 with
              | (Raised e, st4) => (Fatal e, st4)
              | (Ok header, st4) =>
                  let r := print_result c result header p st4 in
                  (of_loop (fst r), snd r)
              end
          | (Ok _, st3) => (Fatal (AttributeError "print_result"), st3)
          end
      | (Ok v, st2) => (Fatal (RuntimeError (printer_msg v)), st2)
      end
  end.

Definition pol (p : prog) (c : Config) (input : list PolRecord) : outcome * State :=
  run p (initial c input).

(** ** Showing a [UserError] (pol.py, class [UserError]) *)

Module UserErr.

(** One entry of a traceback: file, line number and function name. *)
Record frame := mkFrame { f_file : string; f_lineno : nat; f_name : string }.

(** An exception object as [UserError] reaches it through [__cause__]: what
    was raised, and its [__traceback__], the chain [tb], [tb.tb_next], ...
    from the frame that caught it down to the frame that raised it; the empty
    chain is [None]. *)
Record raised := mkRaised { exc : exn; __traceback__ : list frame }.

(** A [UserError] object; [raise UserError() from e] sets [__cause__]. *)
Record t := mkUserError { __cause__ : option raised }.

Definition raise_from (e : exn) (tb : list frame) : t :=
  mkUserError (Some (mkRaised e tb)).

(** [tb.tb_next]; on [None] the attribute does not exist. *)
Definition tb_next (tb : list frame) : res (list frame) :=
  match tb with
  | [] => Raised (AttributeError "tb_next")
  | _ :: rest => Ok rest
  end.

Definition class_name (e : exn) : string :=
  match e with
  | NoMoreRecords => "NoMoreRecords"
  | StopIteration => "StopIteration"
  | RuntimeError _ => "RuntimeError"
  | NameError _ => "NameError"
  | AttributeError _ => "AttributeError"
  | IndexError => "IndexError"
  | TypeError => "TypeError"
  | ModuleNotFoundError _ => "ModuleNotFoundError"
  | Exc cls _ => cls
  | UserError _ => "UserError"
  end.

Definition message (e : exn) : string :=
  match e with
  | RuntimeError msg => msg
  | NameError name => "name '" +:+ name +:+ "' is not defined"
  | AttributeError name => "no attribute '" +:+ name +:+ "'"
  | ModuleNotFoundError name => "No module named '" +:+ name +:+ "'"
  | Exc _ msg => msg
  | _ => ""
  end.

Definition format_frame (f : frame) : string :=
  "  File " +:+ dquote +:+ f_file f +:+ dquote +:+ ", line " +:+ pretty (f_lineno f)
  +:+ ", in " +:+ f_name f +:+ record_separator.

(** The last line of a formatted exception: class and message. *)
Definition format_exception_only (e : exn) : string :=
  (if String.eqb (message e) "" then class_name e
   else class_name e +:+ ": " +:+ message e) +:+ record_separator.

(** [traceback.format_exception(etype, value, tb)]: the header and the
    entries of [tb] when there is one, then the exception itself. *)
Definition format_exception (value : raised) (tb : list frame) : list string :=
  match tb with
  | [] => []
  | _ => ("Traceback (most recent call last):" +:+ record_separator) :: map format_frame tb
  end ++ [format_exception_only (exc value)].

(** [s.rstrip('\n')] *)
Fixpoint rstrip (s : string) : string :=
  match s with
  | EmptyString => EmptyString
  | String c s' =>
      match rstrip s' with
      | EmptyString =>
          if Ascii.eqb c (Ascii.ascii_of_nat 10) then EmptyString else String c EmptyString
      | s'' => String c s''
      end
  end.

Definition formatted_tb (self : t) : res (list string) :=
  match __cause__ self with
  | None => Raised (AttributeError "__traceback__")
  | Some cause =>
      match tb_next (__traceback__ cause) with
      | Raised e => Raised e
      | Ok tb1 =>
          match tb_next tb1 with
          | Raised e => Raised e
          | Ok tb2 => Ok (format_exception cause tb2)
          end
      end
  end.

Definition __str__ (self : t) : res string :=
  match formatted_tb self with
  | Raised e => Raised e
  | Ok l => Ok (rstrip (String.concat "" l))
  end.

End UserErr.

(** ** What the proofs observe of a run *)

(** The records of the run as [record_seq] stands for them: those in its
    buffer, then those its producer has still to yield. *)
Definition all_records (st : State) : list PolRecord :=
  seq_buf st ++ pending (cfg st) (stdin st, gen st).

(** [st'] comes from [st] by work on the two sequences alone: records moved
    from the producer into the buffers, and nothing else. *)
Record seq_touch (st st' : State) : Prop := mk_seq_touch {
  touch_cfg : cfg st' = cfg st;
  touch_rv_val : rv_val st' = rv_val st;
  touch_rv_iter : rv_iter st' = rv_iter st;
  touch_scope : scope st' = scope st;
  touch_dict : global_dict st' = global_dict st;
  touch_calls : print_calls st' = print_calls st;
  touch_stdout : stdout st' = stdout st;
  touch_rounds : rounds st' = rounds st;
  touch_reads : reads st' = reads st;
  touch_fired : fired st' = fired st;
  touch_direct : direct_reads st' = direct_reads st;
  touch_all : all_records st' = all_records st;
  touch_len : length (seq_buf st) <= length (seq_buf st')
}.

(** From a state where [Pre] holds, [c] returns a value and a state that
    satisfy [Post], or raises an exception and leaves a state that satisfy
    [Exc]. *)
Definition triple {A : Type} (Pre : State -> Prop) (c : M A)
    (Post : A -> State -> Prop) (Exc : exn -> State -> Prop) : Prop :=
  forall st, Pre st ->
    match c st with
    | (Ok a, st') => Post a st'
    | (Raised e, st') => Exc e st'
    end.

(** [c] keeps [I], unless it raises an exception that [Esc] lets pass. *)
Definition holds {A : Type} (I : State -> Prop) (Esc : exn -> State -> Prop) (c : M A) : Prop :=
  triple I c (fun _ => I) (fun e st' => I st' \/ Esc e st').

Definition never : exn -> State -> Prop := fun _ _ => False.

(** Nothing was printed, no round was counted, the configuration is the
    same. *)
Definition untouched (st0 st : State) : Prop :=
  stdout st = stdout st0 /\ print_calls st = print_calls st0
  /\ rounds st = rounds st0 /\ cfg st = cfg st0.

(** What [pol] binds and the program cannot undo: no lazy item reports the
    record scope (only [record_var] does); an item that calls [get_contents]
    reports the table scope and is bound as [file] or [contents]; [printer]
    and [header] are bound to plain values. *)
Definition dict_ok (d : gmap string binding) : Prop :=
  (forall n it, d !! n = Some (Item it) ->
     li_on_accessed it <> Some record
     /\ (li_func it = FGetContents ->
         li_on_accessed it = Some table /\ (n = "file" \/ n = "contents")))
  /\ (exists v, d !! "printer" = Some (Plain v))
  /\ (exists v, d !! "header" = Some (Plain v)).

(** The state after an access observer has been noted, and whether
    [set_scope s] raises in a state. *)
Definition fire (s : Scope) (st : State) : State :=
  with_observed (rounds st) (reads st) (fired st ++ [s]) (direct_reads st) st.

Definition conflict (st : State) (s : Scope) : bool :=
  bool_decide (scope st <> s) && bool_decide (scope st <> undecided).

Definition mixed : exn := RuntimeError mixed_scope_msg.

(** The state [get_contents] leaves. *)
Definition after_contents (st : State) : State := snd (get_contents st).

(** Every observer that fired in the round reported the scope that is now
    locked, and the scope is still [s0] when none fired. *)
Definition scoped (s0 : Scope) (st : State) : Prop :=
  (forall s, s ∈ fired st -> s <> undecided -> s = scope st)
  /\ (fired st = [] -> scope st = s0).


(** The records of the run are [rs]; while the scope is undecided the cursor
    has fetched nothing and [r] is the first record; once the scope is
    'record' the cursor stands after [k] records and its current record is
    [r]. *)
Definition cursor_at (rs : list PolRecord) (k : nat) (r : PolRecord) (st : State) : Prop :=
  (scope st = undecided ->
     all_records st = rs /\ rv_val st = None /\ rv_iter st = 0 /\ k = 1 /\ rs !! 0 = Some r)
  /\ (scope st = record -> all_records st = rs /\ rv_iter st = k /\ rv_val st = Some r).

(** Unless the program has read [file] or [contents], [get_contents] was not
    called and every record taken from the input is in the buffer of
    [record_seq]. *)
Definition through_seq (d : nat) (rs : list PolRecord) (st : State) : Prop :=
  ("file" ∈ reads st \/ "contents" ∈ reads st)
  \/ (direct_reads st = d /\ all_records st = rs).

Definition is_mixed : exn -> State -> Prop := fun e _ => e = mixed.

(** A program without an iterator protocol of its own: every exception of
    the environment ends its round. *)
Fixpoint plain (p : prog) : Prop :=
  match p with
  | Ret _ | Raise _ => True
  | Get _ k => forall v, plain (k v)
  | Assign _ _ k => plain k
  | GetItem _ _ k => forall x, plain (k x)
  | ToList _ k => forall l, plain (k l)
  | Absorb _ _ => False
  end.

(** No exception that [Esc] lets pass is a [StopIteration]. *)
Definition no_stop (Esc : exn -> State -> Prop) : Prop :=
  forall e st, Esc e st -> is_StopIteration e = false.

(** ** Sample inputs *)

(** Input from standard input, printed by the default printer. *)
Definition stdin_config : Config := mkConfig None [] false false AutoPrinter.

(** A record with the single field [s]. *)
Definition line_record (s : string) : PolRecord := mkRecord [s] s.

(** A program that returns the current record, but reads [records] as well
    when the current record is not [line_record "a"]. *)
Definition mixed_on_later_record : prog :=
  Get "record" (fun v =>
    if bool_decide (v = VRecord (line_record "a")) then Ret v
    else Get "records" (fun _ => Ret v)).

(** A program that returns the current line, and divides by zero on the
    line "0". *)
Definition divide_by_line : prog :=
  Get "line" (fun v =>
    if bool_decide (v = VStr "0") then Raise (Exc "ZeroDivisionError" "division by zero")
    else Ret v).

(** A program that returns the current line, and rebinds [printer] to the
    number 3 on the line "b". *)
Definition rebind_printer_on_b : prog :=
  Get "line" (fun v =>
    if bool_decide (v = VStr "b") then Assign "printer" (VInt 3) (Ret v)
    else Ret v).

(** The rounds after the first, as the specification words them: the cursor
    is advanced; when that signals exhaustion the sequence ends; otherwise
    another round is run on the record the cursor now stands on, and its
    result is the next element, or its exception ends the sequence.
    [fan_out p st visited vs res st'] lists the records advanced over and
    the elements yielded, from the state [st] to the state [st']. *)
Inductive fan_out (p : prog) : State -> list PolRecord -> list value -> loop_res -> State -> Prop :=
| fan_out_end st st' :
    RecordScoped.__next__ st = (Raised NoMoreRecords, st') ->
    fan_out p st [] [] Finished st'
| fan_out_raise st r st1 e st2 :
    RecordScoped.__next__ st = (Ok r, st1) ->
    rv_val st1 = Some r ->
    Prog_exec p st1 = (Raised e, st2) ->
    fan_out p st [r] [] (Failed (generator_raise e)) st2
| fan_out_yield st r st1 v st2 rs vs res st' :
    RecordScoped.__next__ st = (Ok r, st1) ->
    rv_val st1 = Some r ->
    Prog_exec p st1 = (Ok v, st2) ->
    rv_val st2 = Some r ->
    fan_out p (render v st2) rs vs res st' ->
    fan_out p st (r :: rs) (v :: vs) res st'.



(** A program that returns the current line, and raises [StopIteration] on
    the line "b" (as [next(iter([]))] does). *)
Definition stop_on_b : prog :=
  Get "line" (fun v => if bool_decide (v = VStr "b") then Raise StopIteration else Ret v).

(** A program that reads [file] and then counts the records. *)
Definition file_then_count : prog :=
  Get "file" (fun _ =>
    Get "records" (fun v => ToList v (fun l => Ret (VInt (Z.of_nat (length l)))))).

(** ** Further observations and sample programs *)

(** [c] keeps [I], however it ends. *)
Definition keeps {A : Type} (I : State -> Prop) (c : M A) : Prop :=
  forall st, I st -> I (snd (c st)).

(** The sequence of lines is in step with [record_seq]: its generator has
    passed [lines_it] records, all of them in the buffer of [record_seq], and
    its own buffer holds the raw text of just these. *)
Definition lines_ok (st : State) : Prop :=
  lines_buf st = str <$> take (lines_it st) (seq_buf st)
  /\ lines_it st <= length (seq_buf st).

(** The lines that the generator [(r.str for r in record_seq)] has still to
    yield. *)
Definition lines_pending (c : Config)
    (s : nat * (list PolRecord * (list PolRecord * GenState))) : list string :=
  str <$> drop (fst s) (fst (snd s) ++ pending c (snd (snd s))).

(** [f(record)]: a program that reads the current record and returns what a
    pure function makes of it. *)
Definition map_record (f : value -> value) : prog :=
  Get "record" (fun v => Ret (f v)).

(** [f(list(records))]: a program that walks all records and returns what a
    pure function makes of them. *)
Definition whole_table (f : list value -> value) : prog :=
  Get "records" (fun v => ToList v (fun l => Ret (f l))).

(** A program that reads [record], [fields] and [line] in one round and
    hands them to [k]. *)
Definition read_aliases (k : value -> value -> value -> prog) : prog :=
  Get "record" (fun a => Get "fields" (fun b => Get "line" (fun l => k a b l))).

(** A named file is opened afresh by each reader: whatever the program
    reads, the records stay those of the file. *)
Definition from_file (rs : list PolRecord) (st : State) : Prop :=
  input_file (cfg st) <> None /\ all_records st = rs.


(** What the printer writes for a single value [v] when the records of the
    run are [rs]: the elements of a sequence object, or the value itself. *)
Definition printed_elements (v : value) (rs : list PolRecord) : list value :=
  match v with
  | VRecordSequence => VRecord <$> rs
  | VLazySequence => (fun r => VStr (str r)) <$> rs
  | _ => [v]
  end.

(** The records still to be had after a call of [get_contents]. *)
Definition left_after_contents (c : Config) (rs : list PolRecord) : list PolRecord :=
  match input_file c with Some _ => rs | None => [] end.





(** * Properties *)

(** ** Replay: every element is pulled once *)

Section ReplayFacts.
Context {P A : Type}.
Variable pull : P -> option A * P.

(** Whatever holds of buffer and producer, and is kept by one pull, is kept
    by every operation of the sequence. *)
Section Preserved.
Variable R : list A * P -> Prop.
Hypothesis R_some : forall buf s a s', pull s = (Some a, s') -> R (buf, s) -> R (buf ++ [a], s').
Hypothesis R_none : forall buf s s', pull s = (None, s') -> R (buf, s) -> R (buf, s').

Lemma fill_preserves (n : nat) : forall buf s,
  R (buf, s) -> R (LazySequence.fill pull n buf s).
Proof.
  induction n as [|n IH]; intros buf s HR; simpl; [exact HR|].
  destruct (pull s) as [[a|] s'] eqn:Hp; eauto.
Qed.

Lemma getitem_preserves (i : nat) buf s :
  R (buf, s) -> R (snd (LazySequence.getitem pull i buf s)).
Proof. intros HR. unfold LazySequence.getitem. simpl. by apply fill_preserves. Qed.

Lemma iter_next_preserves (i : nat) buf s :
  R (buf, s) -> R (snd (LazySequence.iter_next pull i buf s)).
Proof.
  intros HR. unfold LazySequence.iter_next.
  pose proof (getitem_preserves i buf s HR) as H.
  destruct (LazySequence.getitem pull i buf s) as [[a|] st]; exact H.
Qed.

Lemma traverse_preserves (fuel : nat) : forall i buf s,
  R (buf, s) -> R (snd (LazySequence.traverse pull fuel i buf s)).
Proof.
  induction fuel as [|fuel IH]; intros i buf s HR; simpl; [exact HR|].
  pose proof (iter_next_preserves i buf s HR) as H.
  destruct (LazySequence.iter_next pull i buf s) as [[[a|] i'] [buf' s']]; [|exact H].
  specialize (IH i' buf' s' H).
  destruct (LazySequence.traverse pull fuel i' buf' s') as [[l|] st]; exact IH.
Qed.

Lemma run_ops_preserves (fuel : nat) (os : list LazySequence.op) : forall st,
  R st -> R (snd (LazySequence.run_ops pull fuel os st)).
Proof.
  induction os as [|o os IH]; intros [buf s] HR; simpl; [exact HR|].
  apply IH. destruct o; simpl.
  - by apply traverse_preserves.
  - by apply getitem_preserves.
Qed.
End Preserved.

Variable l : list A.

Local Abbreviation replay_inv := (LazySequence.replay_inv pull l).

Lemma exhausted_pull (s : P) :
  LazySequence.exhausted pull s ->
  fst (pull s) = None /\ LazySequence.exhausted pull (snd (pull s)).
Proof.
  intros H. split.
  - apply (H 0).
  - intros k. apply (H (S k)).
Qed.

Lemma replay_inv_length buf s : replay_inv (buf, s) -> length buf <= length l.
Proof.
  intros (rest & Hl & _). simpl in Hl.
  apply (f_equal length) in Hl. rewrite length_app in Hl. lia.
Qed.

Lemma fill_inv (n : nat) : forall buf s,
  replay_inv (buf, s) ->
  let st := LazySequence.fill pull n buf s in
  replay_inv st /\ length (fst st) = Nat.min (length buf + n) (length l).
Proof.
  induction n as [|n IH]; intros buf s Hinv; simpl.
  - split; [exact Hinv|]. apply replay_inv_length in Hinv. lia.
  - pose proof (replay_inv_length _ _ Hinv) as Hlen.
    destruct Hinv as (rest & Hl & Hy). simpl in Hl, Hy.
    destruct rest as [|a rest].
    + simpl in Hy. destruct (exhausted_pull s Hy) as [Hn Hex].
      destruct (pull s) as [o s'] eqn:Hp. simpl in Hn, Hex. subst o. simpl. split.
      * exists []. simpl. auto.
      * apply (f_equal length) in Hl. rewrite length_app in Hl. simpl in Hl. lia.
    + simpl in Hy. destruct Hy as (s' & Hp & Hy). rewrite Hp.
      assert (Hinv' : replay_inv (buf ++ [a], s')).
      { exists rest. simpl. rewrite <- app_assoc. simpl. auto. }
      specialize (IH _ _ Hinv'). simpl in IH. destruct IH as [IH1 IH2].
      split; [exact IH1|]. rewrite IH2, length_app. simpl. lia.
Qed.

Lemma replay_inv_lookup buf s (i : nat) :
  replay_inv (buf, s) -> i < length buf \/ length buf = length l -> buf !! i = l !! i.
Proof.
  intros (rest & Hl & _) Hi. simpl in Hl. rewrite Hl.
  destruct Hi as [Hi|Hi].
  - by rewrite lookup_app_l.
  - rewrite Hl, length_app in Hi. destruct rest; [by rewrite app_nil_r|simpl in Hi; lia].
Qed.

Lemma getitem_inv (i : nat) buf s :
  replay_inv (buf, s) ->
  let r := LazySequence.getitem pull i buf s in
  fst r = l !! i /\ replay_inv (snd r) /\ length buf <= length (fst (snd r))
  /\ length (fst (snd r)) = Nat.min (Nat.max (length buf) (S i)) (length l).
Proof.
  intros Hinv. unfold LazySequence.getitem. simpl.
  destruct (fill_inv (S i - length buf) buf s Hinv) as [H1 H2].
  pose proof (replay_inv_length _ _ Hinv) as Hlen.
  destruct (LazySequence.fill _ _ buf s) as [buf' s'] eqn:Hf. simpl in *.
  repeat split; auto; try lia.
  apply replay_inv_lookup with (s := s'); auto. lia.
Qed.

Lemma iter_next_inv (i : nat) buf s :
  replay_inv (buf, s) ->
  let r := LazySequence.iter_next pull i buf s in
  fst (fst r) = l !! i /\ snd (fst r) = (if l !! i is Some _ then S i else i)
  /\ replay_inv (snd r) /\ length buf <= length (fst (snd r))
  /\ length (fst (snd r)) = Nat.min (Nat.max (length buf) (S i)) (length l).
Proof.
  intros Hinv. unfold LazySequence.iter_next.
  destruct (getitem_inv i buf s Hinv) as (Hg & Hinv' & Hmono & Hlen).
  destruct (LazySequence.getitem _ i buf s) as [o st] eqn:Hget.
  simpl in Hg, Hinv', Hmono, Hlen. subst o.
  destruct (l !! i); simpl; auto.
Qed.

Lemma traverse_inv (fuel : nat) : forall i buf s,
  replay_inv (buf, s) -> i <= length l -> length l - i < fuel ->
  let r := LazySequence.traverse pull fuel i buf s in
  fst r = Some (drop i l) /\ replay_inv (snd r) /\ length (fst (snd r)) = length l.
Proof.
  induction fuel as [|fuel IH]; intros i buf s Hinv Hi Hfuel; [lia|].
  simpl.
  destruct (iter_next_inv i buf s Hinv) as (Hg & Hi' & Hinv' & Hmono & Hlen).
  pose proof (replay_inv_length _ _ Hinv) as Hbl.
  destruct (LazySequence.iter_next _ i buf s) as [[o i'] [buf' s']] eqn:Hget.
  simpl in Hg, Hi', Hinv', Hmono, Hlen. subst o i'.
  destruct (l !! i) as [a|] eqn:Hli.
  - apply lookup_lt_Some in Hli as Hlt.
    destruct (IH (S i) buf' s' Hinv' ltac:(lia) ltac:(lia)) as (H1 & H2 & H3).
    destruct (LazySequence.traverse _ fuel (S i) buf' s') as [o st] eqn:Ht.
    simpl in H1, H2, H3. subst o. simpl.
    repeat split; auto. f_equal. symmetry. by apply drop_S.
  - apply lookup_ge_None in Hli. simpl.
    repeat split; auto; [|lia].
    f_equal. symmetry. apply drop_ge. lia.
Qed.

Lemma run_op_inv (fuel : nat) (o : LazySequence.op) st :
  replay_inv st -> length l < fuel ->
  let r := LazySequence.run_op pull fuel o st in
  fst r = LazySequence.expected l o /\ replay_inv (snd r)
  /\ (o = LazySequence.Iterate -> length (fst (snd r)) = length l).
Proof.
  intros Hinv Hfuel. destruct st as [buf s].
  destruct o as [|i]; unfold LazySequence.run_op; cbn [fst snd LazySequence.expected].
  - destruct (traverse_inv fuel 0 buf s Hinv ltac:(lia) ltac:(lia)) as (H1 & H2 & H3).
    rewrite H1, H3. repeat split; auto.
  - destruct (getitem_inv i buf s Hinv) as (H1 & H2 & _).
    rewrite H1. repeat split; auto. discriminate.
Qed.

Lemma run_ops_length (fuel : nat) (os : list LazySequence.op) : forall st,
  length (fst st) <= length (fst (snd (LazySequence.run_ops pull fuel os st))).
Proof.
  intros [buf s].
  apply (run_ops_preserves (fun q => length buf <= length (fst q))); simpl; auto.
  intros b ? a ? _ H. rewrite length_app. simpl. lia.
Qed.

Lemma run_ops_inv (fuel : nat) (os : list LazySequence.op) : forall st,
  replay_inv st -> length l < fuel ->
  let r := LazySequence.run_ops pull fuel os st in
  fst r = LazySequence.expected l <$> os /\ replay_inv (snd r)
  /\ (LazySequence.Iterate ∈ os -> length (fst (snd r)) = length l).
Proof.
  induction os as [|o os IH]; intros st Hinv Hfuel; simpl.
  - repeat split; auto. intros H. by apply elem_of_nil in H.
  - destruct (run_op_inv fuel o st Hinv Hfuel) as (H1 & H2 & H4).
    destruct (IH _ H2 Hfuel) as (I1 & I2 & I4).
    rewrite H1, I1. repeat split; auto.
    intros Hin. apply elem_of_cons in Hin as [<-|Hin]; [|by apply I4].
    specialize (H4 eq_refl).
    pose proof (run_ops_length fuel os
      (snd (LazySequence.run_op pull fuel LazySequence.Iterate st))) as Hmono.
    destruct (snd (LazySequence.run_ops pull fuel os
      (snd (LazySequence.run_op pull fuel LazySequence.Iterate st)))) as [b q] eqn:Hq.
    apply replay_inv_length in I2. simpl in *. lia.
Qed.
End ReplayFacts.

Lemma counted_after {P A : Type} (pull : P -> option A * P) (k : nat) : forall s n,
  fst (LazySequence.after (LazySequence.counted pull) k (s, n)) = LazySequence.after pull k s.
Proof.
  induction k as [|k IH]; intros s n; simpl; [done|].
  unfold LazySequence.counted at 2. simpl.
  destruct (pull s) as [[a|] s']; simpl; apply IH.
Qed.

Lemma counted_yields {P A : Type} (pull : P -> option A * P) (l : list A) : forall s n,
  LazySequence.yields pull s l -> LazySequence.yields (LazySequence.counted pull) (s, n) l.
Proof.
  induction l as [|a l IH]; intros s n; simpl.
  - intros Hex k. specialize (Hex k).
    destruct (LazySequence.after (LazySequence.counted pull) k (s, n)) as [s' n'] eqn:Ha.
    pose proof (counted_after pull k s n) as Hk. rewrite Ha in Hk. simpl in Hk. subst s'.
    unfold LazySequence.counted. simpl.
    destruct (pull (LazySequence.after pull k s)) as [o s'']. simpl in Hex. by subst o.
  - intros (s' & Hp & Hy). exists (s', S n). split; [|by apply IH].
    unfold LazySequence.counted. simpl. by rewrite Hp.
Qed.

Lemma list_pull_yields {A : Type} (l : list A) : LazySequence.yields LazySequence.list_pull l l.
Proof.
  induction l as [|a l IH]; simpl.
  - intros k. induction k as [|k IHk]; simpl; auto.
  - eauto.
Qed.

(** C7.  Whatever one-pass producer yields the records [l], and however the
    consumers of the replayable sequence walk it from its start or index into
    it, in any number and order: every walk returns [l], every index [i]
    returns [l !! i], and the producer hands out each element at most once,
    so at most [length l] elements in all and exactly [length l] once some
    consumer has walked the sequence to its end. *)
Theorem replay_pulls_each_element_once {P A : Type} (pull : P -> option A * P)
    (s0 : P) (l : list A) (os : list LazySequence.op) (fuel : nat) :
  LazySequence.yields pull s0 l ->
  length l < fuel ->
  let r := LazySequence.run_ops (LazySequence.counted pull) fuel os ([], (s0, 0)) in
  fst r = LazySequence.expected l <$> os
  /\ fst (snd r) `prefix_of` l
  /\ snd (snd (snd r)) = length (fst (snd r))
  /\ snd (snd (snd r)) <= length l
  /\ (LazySequence.Iterate ∈ os -> snd (snd (snd r)) = length l).
Proof.
  intros Hy Hfuel.
  assert (Hinv : LazySequence.replay_inv (LazySequence.counted pull) l ([], (s0, 0))).
  { exists l. simpl. split; [done|]. by apply counted_yields. }
  destruct (run_ops_inv (LazySequence.counted pull) l fuel os _ Hinv Hfuel) as (H1 & H2 & H4).
  assert (Hc : snd (snd (snd (LazySequence.run_ops (LazySequence.counted pull) fuel os
                  ([], (s0, 0))))) =
               length (fst (snd (LazySequence.run_ops (LazySequence.counted pull) fuel os
                  ([], (s0, 0)))))).
  { apply (run_ops_preserves (LazySequence.counted pull)
             (fun q => snd (snd q) = length (fst q))); simpl; auto.
    - intros buf [s c] a [s' c'] Hp Hq. simpl in *.
      unfold LazySequence.counted in Hp. simpl in Hp.
      destruct (pull s) as [[b|] s'']; simplify_eq. rewrite length_app. simpl. lia.
    - intros buf [s c] [s' c'] Hp Hq. simpl in *.
      unfold LazySequence.counted in Hp. simpl in Hp.
      destruct (pull s) as [[b|] s'']; simplify_eq. done. }
  simpl. pose proof H2 as (rest & Hl & _).
  assert (length (fst (snd (LazySequence.run_ops (LazySequence.counted pull) fuel os
            ([], (s0, 0))))) <= length l).
  { apply (f_equal length) in Hl. rewrite length_app in Hl. lia. }
  repeat split; auto.
  - exists rest. exact Hl.
  - lia.
  - intros Hin. rewrite Hc. by apply H4.
Qed.

Lemma replay_pulls_each_element_once_witness :
  let r := LazySequence.run_ops (LazySequence.counted LazySequence.list_pull) 4
             [LazySequence.Iterate; LazySequence.Index 1; LazySequence.Iterate]
             ([], ([1; 2; 3], 0)) in
  fst r = LazySequence.expected [1; 2; 3]
            <$> [LazySequence.Iterate; LazySequence.Index 1; LazySequence.Iterate]
  /\ fst (snd r) `prefix_of` [1; 2; 3]
  /\ snd (snd (snd r)) = length (fst (snd r))
  /\ snd (snd (snd r)) <= 3
  /\ (LazySequence.Iterate ∈ [LazySequence.Iterate; LazySequence.Index 1; LazySequence.Iterate]
      -> snd (snd (snd r)) = 3).
Proof.
  apply (replay_pulls_each_element_once LazySequence.list_pull [1; 2; 3] [1; 2; 3]).
  - apply list_pull_yields.
  - simpl. lia.
Defined.

(** ** The scope arbiter *)

Lemma with_scope_same (st : State) : with_scope (scope st) st = st.
Proof. by destruct st. Qed.

Lemma set_scope_locked (s : Scope) (st : State) :
  scope st <> undecided -> scope (snd (set_scope s st)) = scope st.
Proof.
  intros Hst. unfold set_scope.
  destruct (bool_decide (scope st <> s)) eqn:Hs; simpl.
  - rewrite bool_decide_true by done. done.
  - apply bool_decide_eq_false in Hs. simpl. destruct (decide (scope st = s)); [done|tauto].
Qed.

Lemma set_scope_calls_locked (calls : list Scope) : forall st,
  scope st <> undecided -> scope (set_scope_calls calls st) = scope st.
Proof.
  induction calls as [|s calls IH]; intros st Hst; simpl; [done|].
  rewrite IH; rewrite set_scope_locked; done.
Qed.

Lemma set_scope_calls_app (calls1 calls2 : list Scope) : forall st,
  set_scope_calls (calls1 ++ calls2) st = set_scope_calls calls2 (set_scope_calls calls1 st).
Proof. induction calls1 as [|s calls1 IH]; intros st; simpl; auto. Qed.

(** C6.  [set_scope]: from 'undecided' a call locks the scope it is given; a
    call with the scope already locked changes nothing; a call with another
    scope raises and leaves the state as it was; so along any sequence of
    calls the scope, once it is not 'undecided', keeps its value. *)
Theorem scope_state_monotonic :
  (forall st s, scope st = undecided -> set_scope s st = (Ok tt, with_scope s st))
  /\ (forall st s, scope st = s -> set_scope s st = (Ok tt, st))
  /\ (forall st s, scope st <> undecided -> scope st <> s ->
        set_scope s st = (Raised (RuntimeError mixed_scope_msg), st))
  /\ (forall calls1 calls2 st,
        scope (set_scope_calls calls1 st) <> undecided ->
        scope (set_scope_calls (calls1 ++ calls2) st) = scope (set_scope_calls calls1 st)).
Proof.
  repeat split.
  - intros st s Hst. unfold set_scope. rewrite Hst.
    rewrite (bool_decide_false (undecided <> undecided)) by tauto.
    by rewrite andb_false_r.
  - intros st s <-. unfold set_scope.
    rewrite (bool_decide_false (scope st <> scope st)) by tauto.
    simpl. by rewrite with_scope_same.
  - intros st s H1 H2. unfold set_scope. by rewrite !bool_decide_true.
  - intros calls1 calls2 st H. rewrite set_scope_calls_app. by apply set_scope_calls_locked.
Qed.

Lemma scope_state_monotonic_witness :
  let st := initial (mkConfig None [] false false AutoPrinter) [] in
  scope (set_scope_calls ([undecided; record] ++ [table; record; table]) st) = record.
Proof.
  intros st.
  rewrite (proj2 (proj2 (proj2 scope_state_monotonic)) [undecided; record]
             [table; record; table] st).
  - reflexivity.
  - simpl. discriminate.
Defined.

(** ** Showing a [UserError] *)

(** C10.  [UserError.__str__] reads [__cause__.__traceback__.tb_next.tb_next]:
    when the traceback of the cause has fewer than two entries, the
    conversion itself raises [AttributeError] and shows nothing of the cause;
    with two entries or more it shows the cause, its traceback cut by the
    first two entries; without a cause it raises as well. *)
Theorem UserError_str_needs_two_frames (e : exn) (tb : list UserErr.frame) :
  (length tb < 2 ->
     UserErr.__str__ (UserErr.raise_from e tb) = Raised (AttributeError "tb_next"))
  /\ (2 <= length tb ->
        UserErr.__str__ (UserErr.raise_from e tb)
        = Ok (UserErr.rstrip (String.concat ""
               (UserErr.format_exception (UserErr.mkRaised e tb) (drop 2 tb)))))
  /\ UserErr.__str__ (UserErr.mkUserError None) = Raised (AttributeError "__traceback__").
Proof.
  repeat split.
  - intros H. destruct tb as [|f1 [|f2 tb]]; simpl in H; try lia; reflexivity.
  - intros H. destruct tb as [|f1 [|f2 tb]]; simpl in H; try lia; reflexivity.
Qed.

Lemma UserError_str_needs_two_frames_witness :
  UserErr.__str__ (UserErr.raise_from (Exc "ZeroDivisionError" "division by zero")
                     [UserErr.mkFrame "pol.py" 185 "pol"])
  = Raised (AttributeError "tb_next")
  /\ UserErr.__str__ (UserErr.raise_from (Exc "ZeroDivisionError" "division by zero")
                        [UserErr.mkFrame "pol.py" 185 "pol";
                         UserErr.mkFrame "parser.py" 1 "exec"])
     = Ok "ZeroDivisionError: division by zero".
Proof.
  split.
  - apply (UserError_str_needs_two_frames _ [UserErr.mkFrame "pol.py" 185 "pol"]).
    simpl. lia.
  - rewrite (proj1 (proj2 (UserError_str_needs_two_frames _
               [UserErr.mkFrame "pol.py" 185 "pol"; UserErr.mkFrame "parser.py" 1 "exec"]))).
    + reflexivity.
    + simpl. lia.
Defined.

(** ** The producer [gen_records] and the two sequences *)

Section PendingFacts.
Context {P A : Type}.
Variable pull : P -> option A * P.
Variable pend : P -> list A.
Hypothesis pend_some : forall s a s', pull s = (Some a, s') -> pend s = a :: pend s'.
Hypothesis pend_none : forall s s', pull s = (None, s') -> pend s = [] /\ pend s' = [].

Lemma pend_nil_exhausted (k : nat) : forall s,
  pend s = [] -> fst (pull (LazySequence.after pull k s)) = None.
Proof.
  induction k as [|k IH]; intros s Hs; simpl.
  - destruct (pull s) as [[a|] s'] eqn:Hp; [|done].
    apply pend_some in Hp. congruence.
  - apply IH. destruct (pull s) as [[a|] s'] eqn:Hp; simpl.
    + apply pend_some in Hp. congruence.
    + by apply pend_none in Hp as [_ ?].
Qed.

Lemma yields_pend : forall l s, pend s = l -> LazySequence.yields pull s l.
Proof.
  induction l as [|a l IH]; intros s Hs; simpl.
  - intros k. by apply pend_nil_exhausted.
  - destruct (pull s) as [[b|] s'] eqn:Hp.
    + pose proof (pend_some _ _ _ Hp) as H. rewrite Hs in H. simplify_eq.
      exists s'. split; [done|]. by apply IH.
    + apply pend_none in Hp as [? _]. congruence.
Qed.

Lemma replay_inv_pend buf s : LazySequence.replay_inv pull (buf ++ pend s) (buf, s).
Proof. exists (pend s). split; [done|]. by apply yields_pend. Qed.

(** Moving elements from the producer to the buffer changes neither their
    sequence nor what the buffer already held. *)
Lemma fill_pend (n : nat) buf s :
  let q := LazySequence.fill pull n buf s in
  fst q ++ pend (snd q) = buf ++ pend s /\ length buf <= length (fst q).
Proof.
  apply (fill_preserves pull
           (fun q => fst q ++ pend (snd q) = buf ++ pend s /\ length buf <= length (fst q)));
    simpl; auto.
  - intros b x a x' Hp [H1 H2]. rewrite <- app_assoc. simpl.
    rewrite <- (pend_some _ _ _ Hp). split; [done|]. rewrite length_app. simpl. lia.
  - intros b x x' Hp [H1 H2]. destruct (pend_none _ _ Hp) as [Hx Hx'].
    rewrite Hx in H1. by rewrite Hx'.
Qed.

Lemma getitem_pend (i : nat) buf s :
  let r := LazySequence.getitem pull i buf s in
  fst r = (buf ++ pend s) !! i
  /\ fst (snd r) ++ pend (snd (snd r)) = buf ++ pend s
  /\ length buf <= length (fst (snd r)).
Proof.
  destruct (getitem_inv pull (buf ++ pend s) i buf s (replay_inv_pend buf s)) as (H1 & _).
  split; [exact H1|]. unfold LazySequence.getitem. simpl. apply fill_pend.
Qed.

Lemma iter_next_pend (i : nat) buf s :
  let r := LazySequence.iter_next pull i buf s in
  fst (fst r) = (buf ++ pend s) !! i
  /\ snd (fst r) = (if (buf ++ pend s) !! i is Some _ then S i else i)
  /\ fst (snd r) ++ pend (snd (snd r)) = buf ++ pend s
  /\ length buf <= length (fst (snd r)).
Proof.
  destruct (iter_next_inv pull (buf ++ pend s) i buf s (replay_inv_pend buf s))
    as (H1 & H2 & _).
  split; [exact H1|]. split; [exact H2|].
  destruct (getitem_pend i buf s) as (_ & H3 & H4).
  unfold LazySequence.iter_next.
  destruct (LazySequence.getitem pull i buf s) as [[a|] q]; simpl in *; auto.
Qed.

(** Enough pulls move everything into the buffer. *)
Lemma fill_all_pend (n : nat) buf s :
  length (pend s) < n ->
  fst (LazySequence.fill pull n buf s) = buf ++ pend s.
Proof.
  intros Hn.
  destruct (fill_inv pull (buf ++ pend s) n buf s (replay_inv_pend buf s)) as [Hinv Hlen].
  destruct Hinv as (rest & Hl & _).
  rewrite length_app in Hlen.
  assert (length rest = 0) as Hrest.
  { apply (f_equal length) in Hl. rewrite !length_app in Hl. lia. }
  destruct rest; [|simpl in Hrest; lia]. by rewrite app_nil_r in Hl.
Qed.
End PendingFacts.

Lemma gen_records_some c s a s' :
  gen_records c s = (Some a, s') -> pending c s = a :: pending c s'.
Proof.
  destruct s as [i g]. unfold gen_records, pending. simpl.
  destruct g as [| |rest|]; simpl.
  - destruct (input_file c); [destruct (file_data c)|destruct i];
      intros ?; simplify_eq; done.
  - destruct i; intros ?; simplify_eq; done.
  - destruct rest; intros ?; simplify_eq; done.
  - intros ?; simplify_eq.
Qed.

Lemma gen_records_none c s s' :
  gen_records c s = (None, s') -> pending c s = [] /\ pending c s' = [].
Proof.
  destruct s as [i g]. unfold gen_records, pending. simpl.
  destruct g as [| |rest|]; simpl.
  - destruct (input_file c); [destruct (file_data c)|destruct i];
      intros ?; simplify_eq; done.
  - destruct i; intros ?; simplify_eq; done.
  - destruct rest; intros ?; simplify_eq; done.
  - intros ?; simplify_eq. done.
Qed.

Lemma put_seq_touch (st : State) (q : list PolRecord * (list PolRecord * GenState)) :
  fst q ++ pending (cfg st) (snd q) = all_records st ->
  length (seq_buf st) <= length (fst q) ->
  seq_touch st (put_seq q st).
Proof.
  intros H1 H2. destruct q as [b [i g]]. by constructor.
Qed.

Lemma seq_touch_refl (st : State) : seq_touch st st.
Proof. by constructor. Qed.

Lemma seq_touch_trans (st1 st2 st3 : State) :
  seq_touch st1 st2 -> seq_touch st2 st3 -> seq_touch st1 st3.
Proof.
  intros [] []. constructor; try congruence. lia.
Qed.

Lemma record_seq_getitem_spec (i : nat) (st : State) :
  exists st', record_seq_getitem i st = (Ok (all_records st !! i), st') /\ seq_touch st st'.
Proof.
  unfold record_seq_getitem.
  destruct (getitem_pend (gen_records (cfg st)) (pending (cfg st))
              (gen_records_some (cfg st)) (gen_records_none (cfg st))
              i (seq_buf st) (stdin st, gen st)) as (H1 & H2 & H3).
  eexists. split; [by rewrite H1|]. by apply put_seq_touch.
Qed.

Lemma record_seq_all_spec (st : State) :
  exists st', record_seq_all st = (Ok (all_records st), st') /\ seq_touch st st'
              /\ seq_buf st' = all_records st.
Proof.
  unfold record_seq_all.
  set (n := S (length (pending (cfg st) (stdin st, gen st)))).
  destruct (fill_pend (gen_records (cfg st)) (pending (cfg st))
              (gen_records_some (cfg st)) (gen_records_none (cfg st))
              n (seq_buf st) (stdin st, gen st)) as (H2 & H3).
  pose proof (fill_all_pend (gen_records (cfg st)) (pending (cfg st))
              (gen_records_some (cfg st)) (gen_records_none (cfg st))
              n (seq_buf st) (stdin st, gen st) ltac:(unfold n; lia)) as H1.
  eexists. split; [by rewrite H1|]. split; [by apply put_seq_touch|].
  destruct (LazySequence.fill _ n _ _) as [b [i g]]. simpl in *. done.
Qed.

(** Walking [record_seq] as an iterator does, from its start, returns the
    same records as [record_seq_all]. *)
Lemma record_seq_walk (st : State) :
  fst (LazySequence.traverse (gen_records (cfg st)) (S (length (all_records st))) 0
         (seq_buf st) (stdin st, gen st)) = Some (all_records st)
  /\ fst (record_seq_all st) = Ok (all_records st).
Proof.
  split.
  - destruct (traverse_inv (gen_records (cfg st)) (all_records st)
                (S (length (all_records st))) 0 (seq_buf st) (stdin st, gen st)) as (H & _).
    + apply (replay_inv_pend (gen_records (cfg st)) (pending (cfg st))
               (gen_records_some (cfg st)) (gen_records_none (cfg st))).
    + lia.
    + lia.
    + exact H.
  - by destruct (record_seq_all_spec st) as (st' & -> & _).
Qed.

(** The producer [gen_records()] of a run yields the records of its input. *)
Lemma gen_records_yields (c : Config) (input : list PolRecord) :
  LazySequence.yields (gen_records c) (input, GenFresh) (all_records (initial c input)).
Proof.
  apply (yields_pend (gen_records c) (pending c) (gen_records_some c) (gen_records_none c)).
  reflexivity.
Qed.

Lemma lines_gen_keeps c (rs : list PolRecord) (n : nat)
    (s s' : nat * (list PolRecord * (list PolRecord * GenState))) (o : option string) :
  lines_gen c s = (o, s') ->
  fst (snd s) ++ pending c (snd (snd s)) = rs /\ n <= length (fst (snd s)) ->
  fst (snd s') ++ pending c (snd (snd s')) = rs /\ n <= length (fst (snd s')).
Proof.
  destruct s as [it [buf src]]. unfold lines_gen. simpl.
  destruct (iter_next_pend (gen_records c) (pending c) (gen_records_some c)
              (gen_records_none c) it buf src) as (_ & _ & H3 & H4).
  destruct (LazySequence.iter_next (gen_records c) it buf src) as [[x i'] q].
  simpl in *. intros ? [H1 H2]. simplify_eq. simpl. split; [congruence|lia].
Qed.

Lemma lines_fill_keeps c (n : nat) (lbuf : list string)
    (s : nat * (list PolRecord * (list PolRecord * GenState))) :
  let r := LazySequence.fill (lines_gen c) n lbuf s in
  fst (snd (snd r)) ++ pending c (snd (snd (snd r))) = fst (snd s) ++ pending c (snd (snd s))
  /\ length (fst (snd s)) <= length (fst (snd (snd r))).
Proof.
  apply (fill_preserves (lines_gen c)
           (fun r => fst (snd (snd r)) ++ pending c (snd (snd (snd r)))
                     = fst (snd s) ++ pending c (snd (snd s))
                     /\ length (fst (snd s)) <= length (fst (snd (snd r))))); simpl; auto.
  - intros b x a x' Hp H. by eapply lines_gen_keeps.
  - intros b x x' Hp H. by eapply lines_gen_keeps.
Qed.

Lemma put_lines_touch (st : State)
    (r : list string * (nat * (list PolRecord * (list PolRecord * GenState)))) :
  fst (snd (snd r)) ++ pending (cfg st) (snd (snd (snd r))) = all_records st ->
  length (seq_buf st) <= length (fst (snd (snd r))) ->
  seq_touch st (put_lines r st).
Proof.
  intros H1 H2. destruct r as [lb [it [b [i g]]]]. by constructor.
Qed.

Lemma lines_getitem_spec (i : nat) (st : State) :
  exists o st', lines_getitem i st = (Ok o, st') /\ seq_touch st st'.
Proof.
  unfold lines_getitem, LazySequence.getitem. simpl.
  do 2 eexists. split; [done|].
  destruct (lines_fill_keeps (cfg st) (S i - length (lines_buf st)) (lines_buf st)
              (lines_it st, (seq_buf st, (stdin st, gen st)))) as [H1 H2].
  by apply put_lines_touch.
Qed.

Lemma lines_all_spec (st : State) :
  exists l st', lines_all st = (Ok l, st') /\ seq_touch st st'.
Proof.
  unfold lines_all.
  do 2 eexists. split; [done|].
  match goal with |- seq_touch _ (put_lines (LazySequence.fill _ ?n _ _) _) =>
    destruct (lines_fill_keeps (cfg st) n (lines_buf st)
                (lines_it st, (seq_buf st, (stdin st, gen st)))) as [H1 H2]
  end.
  by apply put_lines_touch.
Qed.

(** Advancing the cursor: the record at its position becomes the current
    one, or [NoMoreRecords] is raised and the cursor stays. *)
Lemma RecordScoped_next_spec (st : State) :
  exists st1, seq_touch st st1 /\
    RecordScoped.__next__ st =
      match all_records st !! rv_iter st with
      | Some r => (Ok r, with_cursor (Some r) (S (rv_iter st)) st1)
      | None => (Raised NoMoreRecords, st1)
      end.
Proof.
  unfold RecordScoped.__next__.
  destruct (iter_next_pend (gen_records (cfg st)) (pending (cfg st))
              (gen_records_some (cfg st)) (gen_records_none (cfg st))
              (rv_iter st) (seq_buf st) (stdin st, gen st)) as (H1 & H2 & H3 & H4).
  destruct (LazySequence.iter_next _ _ _ _) as [[o i'] q]. simpl in *.
  fold (all_records st) in H1, H2, H3. subst o i'.
  destruct (all_records st !! rv_iter st) as [r|].
  - exists (put_seq q st). split; [by apply put_seq_touch|]. done.
  - exists (put_seq q st). split; [by apply put_seq_touch|]. done.
Qed.

(** ** Invariants of a round *)

Lemma triple_bind {A B} (Pre : State -> Prop) (c : M A) (Mid : A -> State -> Prop)
    (k : A -> M B) (Post : B -> State -> Prop) (Exc : exn -> State -> Prop) :
  triple Pre c Mid Exc -> (forall a, triple (Mid a) (k a) Post Exc) ->
  triple Pre (bind c k) Post Exc.
Proof.
  intros Hc Hk st HP. unfold bind. specialize (Hc st HP).
  destruct (c st) as [[a|e] st1]; [|exact Hc].
  apply (Hk a st1 Hc).
Qed.

Lemma triple_weaken {A} (Pre Pre' : State -> Prop) (c : M A)
    (Post Post' : A -> State -> Prop) (Exc Exc' : exn -> State -> Prop) :
  triple Pre' c Post' Exc' ->
  (forall st, Pre st -> Pre' st) ->
  (forall a st, Post' a st -> Post a st) ->
  (forall e st, Exc' e st -> Exc e st) ->
  triple Pre c Post Exc.
Proof.
  intros Hc HP HQ HE st Hst. specialize (Hc st (HP st Hst)).
  destruct (c st) as [[a|e] st1]; auto.
Qed.

Lemma triple_ret {A} (Pre : State -> Prop) (a : A) (Post : A -> State -> Prop) Exc :
  (forall st, Pre st -> Post a st) -> triple Pre (ret a) Post Exc.
Proof. intros H st HP. by apply H. Qed.

Lemma triple_raise {A} (Pre : State -> Prop) (e : exn) (Post : A -> State -> Prop)
    (Exc : exn -> State -> Prop) :
  (forall st, Pre st -> Exc e st) -> triple Pre (raise e) Post Exc.
Proof. intros H st HP. by apply H. Qed.

Lemma triple_modify (Pre : State -> Prop) (f : State -> State) (Post : unit -> State -> Prop) Exc :
  (forall st, Pre st -> Post tt (f st)) -> triple Pre (modify f) Post Exc.
Proof. intros H st HP. by apply H. Qed.

Lemma holds_bind {A B} I Esc (c : M A) (k : A -> M B) :
  holds I Esc c -> (forall a, holds I Esc (k a)) -> holds I Esc (bind c k).
Proof. intros Hc Hk. eapply triple_bind; [exact Hc|exact Hk]. Qed.

Lemma holds_ret {A} I Esc (a : A) : holds I Esc (ret a).
Proof. by apply triple_ret. Qed.

Lemma holds_raise {A} I Esc (e : exn) : holds I Esc (@raise A e).
Proof. apply triple_raise. intros st HI. by left. Qed.

Lemma dict_ok_assign (d : gmap string binding) (n : string) (v : value) :
  dict_ok d -> dict_ok (<[n := Plain v]> d).
Proof.
  intros (H1 & [vp Hp] & [vh Hh]). split; [|split].
  - intros m it Hm. destruct (decide (n = m)) as [->|Hne].
    + rewrite lookup_insert_eq in Hm. discriminate.
    + rewrite lookup_insert_ne in Hm by done. by apply H1.
  - destruct (decide (n = "printer")) as [->|Hne].
    + exists v. by rewrite lookup_insert_eq.
    + exists vp. by rewrite lookup_insert_ne.
  - destruct (decide (n = "header")) as [->|Hne].
    + exists v. by rewrite lookup_insert_eq.
    + exists vh. by rewrite lookup_insert_ne.
Qed.

Lemma dict_ok_store (d : gmap string binding) (n : string) (it : LazyItem) (v : option value) :
  dict_ok d -> d !! n = Some (Item it) ->
  dict_ok (<[n := Item (mkLazyItem (li_func it) (li_on_accessed it) true v)]> d).
Proof.
  intros (H1 & [vp Hp] & [vh Hh]) Hn. split; [|split].
  - intros m it' Hm. destruct (decide (n = m)) as [->|Hne].
    + rewrite lookup_insert_eq in Hm. simplify_eq. simpl. by apply H1.
    + rewrite lookup_insert_ne in Hm by done. by apply H1.
  - exists vp. rewrite lookup_insert_ne; [done|]. intros ->. congruence.
  - exists vh. rewrite lookup_insert_ne; [done|]. intros ->. congruence.
Qed.

Lemma conflict_same (st : State) (s : Scope) : scope st = s -> conflict st s = false.
Proof.
  intros <-. unfold conflict. by rewrite (bool_decide_false (scope st <> scope st)) by tauto.
Qed.

Lemma conflict_undecided (st : State) (s : Scope) : scope st = undecided -> conflict st s = false.
Proof.
  intros H. unfold conflict. rewrite H.
  rewrite (bool_decide_false (undecided <> undecided)) by tauto. apply andb_false_r.
Qed.

Lemma conflict_true (st : State) (s : Scope) :
  conflict st s = true -> scope st <> s /\ scope st <> undecided.
Proof.
  unfold conflict. intros H. apply andb_true_iff in H as [H1 H2].
  by apply bool_decide_eq_true in H1, H2.
Qed.

Lemma conflict_false (st : State) (s : Scope) :
  conflict st s = false -> scope st = s \/ scope st = undecided.
Proof.
  unfold conflict. intros H. apply andb_false_iff in H as [H|H];
    apply bool_decide_eq_false in H.
  - left. by destruct (decide (scope st = s)).
  - right. by destruct (decide (scope st = undecided)).
Qed.

Lemma on_accessed_spec (s : Scope) (st : State) :
  on_accessed (Some s) st =
    if conflict st s then (Raised mixed, fire s st) else (Ok tt, with_scope s (fire s st)).
Proof. reflexivity. Qed.

(** Reading the cursor: the observer fires; a current record is returned as
    it is; the first read fetches the record at the cursor's position. *)
Lemma RecordScoped_call_spec (st : State) :
  exists st2,
    seq_touch (with_scope record (fire record (with_scope record (fire record st)))) st2 /\
    RecordScoped.__call__ st =
      if conflict st record then (Raised mixed, fire record st)
      else match rv_val st with
           | Some r => (Ok r, with_scope record (fire record st))
           | None =>
               match all_records st !! rv_iter st with
               | Some r => (Ok r, with_cursor (Some r) (S (rv_iter st)) st2)
               | None => (Raised NoMoreRecords, st2)
               end
           end.
Proof.
  destruct (RecordScoped_next_spec
              (with_scope record (fire record (with_scope record (fire record st)))))
    as (st2 & Ht & Hn).
  exists st2. split; [exact Ht|].
  unfold RecordScoped.__call__, bind. rewrite on_accessed_spec.
  destruct (conflict st record) eqn:Hc; [done|].
  cbn [rv_val with_scope fire with_observed].
  destruct (rv_val st) as [r|] eqn:Hv; [done|].
  unfold RecordScoped._get_first_time, bind. rewrite on_accessed_spec.
  rewrite conflict_same by done.
  rewrite Hn.
  change (all_records (with_scope record (fire record (with_scope record (fire record st)))))
    with (all_records st).
  change (rv_iter (with_scope record (fire record (with_scope record (fire record st)))))
    with (rv_iter st).
  destruct (all_records st !! rv_iter st) as [r|]; [|done].
  cbn. done.
Qed.

Lemma RecordScoped_call_frame (st : State) :
  global_dict (snd (RecordScoped.__call__ st)) = global_dict st
  /\ reads (snd (RecordScoped.__call__ st)) = reads st
  /\ cfg (snd (RecordScoped.__call__ st)) = cfg st.
Proof.
  destruct (RecordScoped_call_spec st) as (st2 & Ht & ->).
  destruct Ht. cbn in *.
  destruct (conflict st record); [done|].
  destruct (rv_val st); [done|].
  destruct (all_records st !! rv_iter st); done.
Qed.

Lemma get_contents_spec (st : State) :
  exists text, get_contents st = (Ok text, after_contents st)
  /\ global_dict (after_contents st) = global_dict st.
Proof.
  unfold after_contents, get_contents. destruct (input_file (cfg st)); eexists; split; done.
Qed.

(** ** What every round keeps

    An invariant of the state that is kept by the few elementary steps of the
    engine (a name noted as read, work on the sequences, a change of the
    dictionary, an observer other than the cursor's, [get_contents] under the
    table scope, a read of the cursor) is kept by every program. *)
Section Round.
Variable I : State -> Prop.
Variable Esc : exn -> State -> Prop.

Hypothesis I_note : forall n st,
  I st -> I (with_observed (rounds st) (reads st ++ [n]) (fired st) (direct_reads st) st).
Hypothesis I_seq : forall st st', I st -> seq_touch st st' -> I st'.
Hypothesis I_dict : forall d st, I st -> I (with_global_dict d st).
Hypothesis I_fire : forall s st, I st -> s <> record ->
  if conflict st s then I (fire s st) \/ Esc mixed (fire s st)
  else I (with_scope s (fire s st)).
Hypothesis I_contents : forall n st,
  I st -> scope st = table -> n ∈ reads st -> n = "file" \/ n = "contents" ->
  I (after_contents st).
Hypothesis I_rv : holds I Esc RecordScoped.__call__.

Local Abbreviation Ik := (fun st : State => I st /\ dict_ok (global_dict st)).
Local Abbreviation Id := (fun (d : gmap string binding) (st : State) =>
                            I st /\ global_dict st = d).

Lemma call_func_keeps (n : string) (d : gmap string binding) (f : func) :
  triple (fun st => Id d st /\ (f = FGetContents ->
                                scope st = table /\ n ∈ reads st
                                /\ (n = "file" \/ n = "contents")))
    (call_func f) (fun _ => Id d) (fun e st' => Id d st' \/ Esc e st').
Proof.
  intros st [[HI Hd] Hf]. destruct f as [v| | | |m]; simpl.
  - done.
  - destruct (Hf eq_refl) as (Hs & Hr & Hn).
    unfold bind. destruct (get_contents_spec st) as (text & -> & Hg). simpl.
    split; [by eapply I_contents|congruence].
  - unfold get_dataframe. destruct (has_pandas (cfg st)); [|by left].
    unfold bind. destruct (record_seq_all_spec st) as (st' & -> & Ht & _). simpl.
    split; [by eapply I_seq|]. destruct Ht. congruence.
  - unfold bind. pose proof (I_rv st HI) as H.
    destruct (RecordScoped_call_frame st) as (Hg & _).
    destruct (RecordScoped.__call__ st) as [[r|e] st']; simpl in *.
    + split; [done|congruence].
    + destruct H as [H|H]; [left; split; [done|congruence]|by right].
  - unfold import_module. destruct (_ || _); [done|by left].
Qed.

Lemma LazyItem_call_keeps (n : string) (it : LazyItem) :
  triple (fun st => Ik st /\ global_dict st !! n = Some (Item it)
                    /\ (n = "file" \/ n = "contents" -> n ∈ reads st))
    (LazyItem_call n it) (fun _ => Ik) (fun e st' => Ik st' \/ Esc e st').
Proof.
  intros st ([HI Hok] & Hn & Hr).
  destruct (proj1 Hok n it Hn) as [Hacc Hcont].
  unfold LazyItem_call.
  (* the observer *)
  assert (Hobs : triple (fun st0 => st0 = st) (on_accessed (li_on_accessed it))
            (fun _ st1 => Id (global_dict st) st1 /\
                          (li_func it = FGetContents ->
                           scope st1 = table /\ n ∈ reads st1
                           /\ (n = "file" \/ n = "contents")))
            (fun e st' => Ik st' \/ Esc e st')).
  { intros ? ->. destruct (li_on_accessed it) as [s|] eqn:Ho.
    - rewrite on_accessed_spec.
      pose proof (I_fire s st HI ltac:(congruence)) as Hf.
      destruct (conflict st s); [destruct Hf; [left; by split|by right]|].
      split; [by split|]. intros Hfc. destruct (Hcont Hfc) as [Hs Hname].
      simplify_eq. cbn. auto.
    - simpl. split; [by split|]. intros Hfc. by destruct (Hcont Hfc). }
  eapply (triple_bind (fun st0 => st0 = st)); [exact Hobs| |reflexivity].
  intros _ st1 [[HI1 Hd1] Hf1].
  assert (Hbody : triple (fun st0 => st0 = st1)
            (let* v := call_func (li_func it) in
             (if li_cache it
              then store_item n (mkLazyItem (li_func it) (li_on_accessed it) true (Some v))
              else ret tt) ;; ret v)
            (fun _ => Ik) (fun e st' => Ik st' \/ Esc e st')).
  { eapply (triple_bind _ _ (fun _ => Id (global_dict st))).
    - eapply triple_weaken; [apply (call_func_keeps n (global_dict st))| | |].
      + intros ? ->. split; [by split|exact Hf1].
      + intros ? ? H. exact H.
      + intros e st' [[H1 H2]|H]; [left; split; [done|by rewrite H2]|by right].
    - intros v st2 [HI2 Hd2]. unfold bind, store_item, modify, ret.
      destruct (li_cache it); simpl.
      + split; [by apply I_dict|]. cbn. rewrite Hd2. by apply dict_ok_store.
      + split; [done|by rewrite Hd2]. }
  destruct (li_cache it) eqn:Hc; [destruct (li_val it) as [v|] eqn:Hv|].
  - simpl. split; [done|by rewrite Hd1].
  - by apply Hbody.
  - by apply Hbody.
Qed.

Lemma lookup_keeps (n : string) :
  triple (fun st => Ik st /\ (n = "file" \/ n = "contents" -> n ∈ reads st))
    (LazyItemDict_lookup n) (fun _ => Ik) (fun e st' => Ik st' \/ Esc e st').
Proof.
  intros st ([HI Hok] & Hr). unfold LazyItemDict_lookup.
  destruct (global_dict st !! n) as [[v|it|]|] eqn:Hn; [done| | |done].
  - unfold bind, resolve.
    pose proof (LazyItem_call_keeps n it st (conj (conj HI Hok) (conj Hn Hr))) as H.
    destruct (LazyItem_call n it st) as [[v|e] st']; exact H.
  - unfold bind, resolve, bind, ret.
    pose proof (I_rv st HI) as H.
    destruct (RecordScoped_call_frame st) as (Hg & _).
    destruct (RecordScoped.__call__ st) as [[r|e] st']; simpl in *.
    + split; [done|by rewrite Hg].
    + destruct H as [H|H]; [left; split; [done|by rewrite Hg]|by right].
Qed.

Lemma load_keeps (n : string) : holds Ik Esc (load n).
Proof.
  unfold load. eapply (triple_bind _ _ (fun _ st => Ik st /\ n ∈ reads st)).
  - apply triple_modify. intros st [HI Hok]. split; [split; [by apply I_note|done]|].
    cbn. apply elem_of_app. right. apply list_elem_of_here.
  - intros _. eapply triple_bind.
    + eapply triple_weaken; [apply (lookup_keeps n)| | |].
      * intros st [H1 H2]. split; auto.
      * intros a st H. exact H.
      * intros e st H. exact H.
    + intros [v|]; [by apply triple_ret|apply triple_raise; by left].
Qed.

Lemma setitem_keeps (n : string) (v : value) : holds Ik Esc (LazyItemDict_setitem n v).
Proof.
  apply triple_modify. intros st [HI Hok]. split; [by apply I_dict|].
  cbn. by apply dict_ok_assign.
Qed.

Lemma Ik_seq (st st' : State) : Ik st -> seq_touch st st' -> Ik st'.
Proof.
  intros [HI Hok] Ht. split; [by eapply I_seq|]. destruct Ht. congruence.
Qed.

Lemma subscript_keeps (v : value) (i : nat) : holds Ik Esc (subscript v i).
Proof.
  intros st HI. destruct v; cbn [subscript]; try by left.
  - destruct (fields r !! i); simpl; [done|by left].
  - unfold bind. destruct (record_seq_getitem_spec i st) as (st' & -> & Ht).
    pose proof (Ik_seq _ _ HI Ht). destruct (_ !! _); simpl; [done|by left].
  - unfold bind. destruct (lines_getitem_spec i st) as (o & st' & -> & Ht).
    pose proof (Ik_seq _ _ HI Ht). destruct o; simpl; [done|by left].
Qed.

Lemma to_list_keeps (v : value) : holds Ik Esc (to_list v).
Proof.
  intros st HI. destruct v; cbn [to_list]; try by left.
  - done.
  - unfold bind. destruct (record_seq_all_spec st) as (st' & -> & Ht & _).
    simpl. by eapply Ik_seq.
  - unfold bind. destruct (lines_all_spec st) as (l & st' & -> & Ht).
    simpl. by eapply Ik_seq.
Qed.

(** A [StopIteration] that the program absorbs must leave a state where the
    invariant holds: programs that absorb are covered when [Esc] lets no
    [StopIteration] pass, plain programs whatever [Esc] is. *)
Lemma exec_keeps (p : prog) : plain p \/ no_stop Esc -> holds Ik Esc (exec p).
Proof.
  induction p as [v|e|n k IH|n v k IH|v i k IH|v k IH|body IHb k IHk]; simpl; intros Hp.
  - apply holds_ret.
  - apply holds_raise.
  - apply holds_bind; [apply load_keeps|]. intros x. apply IH.
    destruct Hp as [Hp|Hp]; [left; apply Hp|by right].
  - apply holds_bind; [apply setitem_keeps|]. intros _. by apply IH.
  - apply holds_bind; [apply subscript_keeps|]. intros x. apply IH.
    destruct Hp as [Hp|Hp]; [left; apply Hp|by right].
  - apply holds_bind; [apply to_list_keeps|]. intros x. apply IH.
    destruct Hp as [Hp|Hp]; [left; apply Hp|by right].
  - destruct Hp as [[]|Hn]. intros st HI.
    specialize (IHb (or_intror Hn) st HI).
    destruct (exec body st) as [[v|e] st'].
    + apply (IHk (Some v) (or_intror Hn) st' IHb).
    + destruct (is_StopIteration e) eqn:He; [|exact IHb].
      destruct IHb as [HI'|HE]; [apply (IHk None (or_intror Hn) st' HI')|].
      rewrite (Hn _ _ HE) in He. discriminate.
Qed.

Lemma elements_of_keeps (v : value) : holds Ik Esc (elements_of v).
Proof.
  destruct v; try apply holds_ret; apply to_list_keeps.
Qed.
End Round.

(** ** The invariants, one by one *)

Lemma all_records_cursor v i st : all_records (with_cursor v i st) = all_records st.
Proof. reflexivity. Qed.

Arguments all_records : simpl never.

Ltac rv_cases st :=
  let st2 := fresh "st2" in
  let Ht := fresh "Ht" in
  let Hc := fresh "Hc" in
  let Hv := fresh "Hv" in
  let Hl := fresh "Hl" in
  destruct (RecordScoped_call_spec st) as (st2 & Ht & ->);
  destruct Ht; cbn in *;
  change (all_records (with_scope record (fire record (with_scope record (fire record st)))))
    with (all_records st) in *;
  destruct (conflict st record) eqn:Hc;
  [|destruct (rv_val st) eqn:Hv;
    [|destruct (all_records st !! rv_iter st) eqn:Hl]];
  cbn.

Lemma untouched_exec (st0 : State) (p : prog) :
  holds (fun st => untouched st0 st /\ dict_ok (global_dict st)) never (exec p).
Proof.
  apply exec_keeps; unfold untouched.
  - intros n st H. exact H.
  - intros st st' H []. intuition congruence.
  - intros d st H. exact H.
  - intros s st H _. destruct (conflict st s); [left|]; exact H.
  - intros n st H _ _ _. unfold after_contents, get_contents.
    destruct (input_file (cfg st)); exact H.
  - intros st H. rv_cases st; try left; cbn; intuition congruence.
  - right. by intros e st [].
Qed.

Lemma scoped_exec (s0 : Scope) (p : prog) :
  holds (fun st => scoped s0 st /\ dict_ok (global_dict st)) is_mixed (exec p).
Proof.
  apply exec_keeps; unfold scoped.
  - intros n st H. exact H.
  - intros st st' [H1 H2] []. split.
    + intros s. rewrite touch_fired0, touch_scope0. apply H1.
    + rewrite touch_fired0, touch_scope0. apply H2.
  - intros d st H. exact H.
  - intros s st [H1 H2] _. destruct (conflict st s) eqn:Hc; [by right|].
    cbn. split.
    + intros x Hx Hu. apply elem_of_app in Hx as [Hx|Hx].
      * specialize (H1 x Hx Hu). apply conflict_false in Hc as [Hc|Hc]; congruence.
      * by apply list_elem_of_singleton in Hx.
    + intros Hnil. by apply app_eq_nil in Hnil as [_ ?].
  - intros n st H _ _ _. unfold after_contents, get_contents.
    destruct (input_file (cfg st)); exact H.
  - intros st [H1 H2]. rv_cases st.
    + by right.
    + cbn. split.
      * intros x Hx Hu. apply elem_of_app in Hx as [Hx|Hx].
        -- specialize (H1 x Hx Hu). apply conflict_false in Hc as [Hc|Hc]; congruence.
        -- by apply list_elem_of_singleton in Hx.
      * intros Hnil. by apply app_eq_nil in Hnil as [_ ?].
    + cbn. rewrite touch_fired0, touch_scope0. split.
      * intros x Hx Hu. rewrite !elem_of_app, !list_elem_of_singleton in Hx.
        destruct Hx as [[Hx|Hx]|Hx]; [|done|done].
        specialize (H1 x Hx Hu). apply conflict_false in Hc as [Hc|Hc]; congruence.
      * intros Hnil. by apply app_eq_nil in Hnil as [_ ?].
    + left. rewrite touch_fired0, touch_scope0. split.
      * intros x Hx Hu. rewrite !elem_of_app, !list_elem_of_singleton in Hx.
        destruct Hx as [[Hx|Hx]|Hx]; [|done|done].
        specialize (H1 x Hx Hu). apply conflict_false in Hc as [Hc|Hc]; congruence.
      * intros Hnil. by apply app_eq_nil in Hnil as [_ ?].
  - right. by intros e st ->.
Qed.

Lemma after_contents_no_records (st : State) :
  all_records st = [] -> all_records (after_contents st) = [].
Proof.
  unfold after_contents, get_contents, all_records. intros H.
  apply app_eq_nil in H as [Hb Hp].
  destruct (input_file (cfg st)) eqn:Hf; cbn; rewrite Hb; simpl; [done|].
  unfold pending in *. cbn in *. rewrite Hf in *. by destruct (gen st).
Qed.

Lemma after_contents_frame (st : State) :
  scope (after_contents st) = scope st /\ rv_val (after_contents st) = rv_val st
  /\ rv_iter (after_contents st) = rv_iter st /\ reads (after_contents st) = reads st
  /\ fired (after_contents st) = fired st /\ cfg (after_contents st) = cfg st.
Proof.
  unfold after_contents, get_contents. by destruct (input_file (cfg st)).
Qed.


Lemma cursor_at_exec (rs : list PolRecord) (k : nat) (r : PolRecord) (p : prog) :
  holds (fun st => cursor_at rs k r st /\ dict_ok (global_dict st)) never (exec p).
Proof.
  apply exec_keeps; unfold cursor_at.
  - intros n st H. exact H.
  - intros st st' [H1 H2] [].
    rewrite touch_scope0, touch_all0, touch_rv_val0, touch_rv_iter0. by split.
  - intros d st H. exact H.
  - intros s st [H1 H2] Hs. destruct (conflict st s) eqn:Hc; [by left|].
    cbn. split; [|done].
    intros ->. apply conflict_false in Hc as [Hc|Hc]; by apply H1.
  - intros n st _ Hs _ _.
    destruct (after_contents_frame st) as (-> & _).
    rewrite Hs. by split.
  - intros st [H1 H2]. rv_cases st.
    + by left.
    + cbn. split; [done|]. intros _.
      apply conflict_false in Hc as [Hc|Hc].
      * destruct (H2 Hc) as (? & ? & ?). rewrite Hv. done.
      * destruct (H1 Hc) as (_ & ? & _). congruence.
    + rewrite all_records_cursor, touch_scope0, touch_all0. split; [done|]. intros _.
      apply conflict_false in Hc as [Hc|Hc].
      * destruct (H2 Hc) as (_ & _ & ?). congruence.
      * destruct (H1 Hc) as (Ha & _ & Hi & -> & Hr).
        rewrite Ha, Hi, Hr in Hl. simplify_eq. by rewrite Hi.
    + apply conflict_false in Hc as [Hc|Hc].
      * destruct (H2 Hc) as (_ & _ & ?). congruence.
      * destruct (H1 Hc) as (Ha & _ & Hi & -> & Hr).
        rewrite Ha, Hi, Hr in Hl. discriminate.
  - right. by intros e st [].
Qed.

Lemma through_seq_exec (d : nat) (rs : list PolRecord) (p : prog) :
  holds (fun st => through_seq d rs st /\ dict_ok (global_dict st)) never (exec p).
Proof.
  apply exec_keeps; unfold through_seq.
  - intros n st [[H|H]|H]; [left; left|left; right|by right];
      cbn; apply elem_of_app; by left.
  - intros st st' H []. rewrite touch_reads0, touch_direct0, touch_all0. exact H.
  - intros dd st H. exact H.
  - intros s st H _. destruct (conflict st s); [left|]; exact H.
  - intros n st _ _ Hn Hname.
    destruct (after_contents_frame st) as (_ & _ & _ & -> & _).
    left. destruct Hname as [<-|<-]; auto.
  - intros st H. rv_cases st.
    + left. exact H.
    + exact H.
    + rewrite all_records_cursor, touch_reads0, touch_direct0, touch_all0. exact H.
    + left. rewrite touch_reads0, touch_direct0, touch_all0. exact H.
  - right. by intros e st [].
Qed.

(** ** The first round and the printer dispatch *)

Lemma dict_ok_initial (c : Config) : dict_ok (initial_dict c).
Proof.
  split; [|split].
  - intros n it Hn. unfold initial_dict, table_scoped_value, table_scoped_lazy in Hn.
    apply elem_of_list_to_map_2 in Hn.
    repeat (apply elem_of_cons in Hn as [Hn|Hn];
            [injection Hn as Hname Hb;
             first [discriminate Hb
                   |simplify_eq; cbn; split; [done|intros; try discriminate; auto]]|]).
    by apply elem_of_nil in Hn.
  - eexists. reflexivity.
  - eexists. reflexivity.
Qed.

Lemma getitem_plain (n : string) (v : value) (st : State) :
  global_dict st !! n = Some (Plain v) -> LazyItemDict_getitem n st = (Ok v, st).
Proof.
  intros H. unfold LazyItemDict_getitem, LazyItemDict_lookup, bind. by rewrite H.
Qed.

Lemma get_plain (n : string) (v : value) (st : State) :
  global_dict st !! n = Some (Plain v) -> LazyItemDict_get n st = (Ok v, st).
Proof.
  intros H. unfold LazyItemDict_get, LazyItemDict_lookup, bind. by rewrite H.
Qed.

(** A round prints nothing, counts as one round and keeps the dictionary
    well-formed, however it ends. *)
Lemma Prog_exec_frame (p : prog) (st : State) :
  dict_ok (global_dict st) ->
  let r := Prog_exec p st in
  stdout (snd r) = stdout st /\ print_calls (snd r) = print_calls st
  /\ rounds (snd r) = S (rounds st) /\ cfg (snd r) = cfg st
  /\ dict_ok (global_dict (snd r)).
Proof.
  intros Hok. unfold Prog_exec, bind, modify.
  set (st0 := with_observed (S (rounds st)) (reads st) [] (direct_reads st) st).
  pose proof (untouched_exec st0 p st0) as H.
  assert (Hpre : untouched st0 st0 /\ dict_ok (global_dict st0)) by (by split).
  specialize (H Hpre).
  destruct (exec p st0) as [[v|e] st']; simpl.
  - destruct H as [(? & ? & ? & ?) ?]. subst st0. cbn in *. tauto.
  - destruct H as [[(? & ? & ? & ?) ?]|[]]. subst st0. cbn in *. tauto.
Qed.

(** The observers fired in a round agree on the scope, unless the round ends
    with the mixed-scope error. *)
Lemma Prog_exec_scoped (p : prog) (st : State) :
  dict_ok (global_dict st) ->
  let r := Prog_exec p st in
  fst r = Raised mixed \/ scoped (scope st) (snd r).
Proof.
  intros Hok. unfold Prog_exec, bind, modify.
  set (st0 := with_observed (S (rounds st)) (reads st) [] (direct_reads st) st).
  pose proof (scoped_exec (scope st) p st0) as H.
  assert (Hpre : scoped (scope st) st0 /\ dict_ok (global_dict st0)).
  { split; [|done]. split; [|done]. intros s Hs. by apply elem_of_nil in Hs. }
  specialize (H Hpre).
  destruct (exec p st0) as [[v|e] st']; simpl.
  - right. by destruct H.
  - destruct H as [[H _]|H]; [by right|left; by rewrite H].
Qed.

Lemma scoped_not_both (s0 : Scope) (st : State) :
  scoped s0 st -> table ∈ fired st -> record ∈ fired st -> False.
Proof.
  intros [H _] Ht Hr.
  pose proof (H table Ht ltac:(done)). pose proof (H record Hr ltac:(done)). congruence.
Qed.

Lemma initial_dict_ok (c : Config) (input : list PolRecord) :
  dict_ok (global_dict (initial c input)).
Proof. apply dict_ok_initial. Qed.

Lemma elements_of_frame (v : value) (st : State) :
  dict_ok (global_dict st) ->
  let r := elements_of v st in
  stdout (snd r) = stdout st /\ print_calls (snd r) = print_calls st
  /\ rounds (snd r) = rounds st /\ cfg (snd r) = cfg st
  /\ dict_ok (global_dict (snd r)).
Proof.
  intros Hok.
  pose proof (elements_of_keeps (untouched st) never
                ltac:(intros ? ? H []; unfold untouched in *; intuition congruence)
                v st) as H.
  assert (Hpre : untouched st st /\ dict_ok (global_dict st)) by (by split).
  specialize (H Hpre). unfold untouched in H.
  destruct (elements_of v st) as [[l|e] st']; simpl; [tauto|].
  destruct H as [H|[]]. tauto.
Qed.

(** The [else] branch of [pol] when the scope is not 'record': the value of
    the round goes to the printer as it is, and no further round is run. *)
Lemma run_single (p : prog) (st : State) (R0 : value) (st1 : State) :
  Prog_exec p st = (Ok R0, st1) ->
  scope st1 <> record ->
  dict_ok (global_dict st1) ->
  exists v header,
    global_dict st1 !! "printer" = Some (Plain v)
    /\ global_dict st1 !! "header" = Some (Plain header)
    /\ match v with
       | VPrinter cls =>
           print_calls (snd (run p st)) = print_calls st1 ++ [(cls, Single R0, header)]
           /\ rounds (snd (run p st)) = rounds st1
           /\ fst (run p st) <> Unfinished
       | _ => run p st = (Fatal (RuntimeError (printer_msg v)), st1)
       end.
Proof.
  intros Hr Hs Hok. destruct Hok as (Hitems & [v Hv] & [h Hh]).
  exists v, h. split; [done|]. split; [done|].
  unfold run. rewrite Hr. rewrite (bool_decide_false (scope st1 = record)) by done.
  rewrite (getitem_plain _ _ _ Hv).
  destruct v; try reflexivity.
  rewrite (getitem_plain _ _ _ Hv), (get_plain _ _ _ Hh).
  unfold print_result.
  set (st0 := note_call c (Single R0) h st1).
  assert (Hok0 : dict_ok (global_dict st0)).
  { split; [done|]. split; eauto. }
  destruct (elements_of_frame R0 st0 Hok0) as (H1 & H2 & H3 & _).
  destruct (elements_of R0 st0) as [[l|e] st']; simpl in *; subst st0; cbn in *; done.
Qed.

(** C3.  When the first round leaves the scope 'table', or fires no access
    observer at all (so that the scope is still 'undecided'), the run counts
    exactly one round; and when that round returns [R0], the printer bound
    after it is handed exactly [R0] (not a sequence of rounds): its
    [print_result] is the only call, with [R0] and the bound header, or, if
    the bound value is no printer, nothing is printed. *)
Theorem single_round_when_not_record_scoped (p : prog) (c : Config) (input : list PolRecord) :
  let r1 := Prog_exec p (initial c input) in
  scope (snd r1) = table \/ fired (snd r1) = [] ->
  rounds (snd (pol p c input)) = 1
  /\ forall R0, fst r1 = Ok R0 ->
       exists v header,
         global_dict (snd r1) !! "printer" = Some (Plain v)
         /\ global_dict (snd r1) !! "header" = Some (Plain header)
         /\ match v with
            | VPrinter cls =>
                print_calls (snd (pol p c input)) = [(cls, Single R0, header)]
            | _ =>
                print_calls (snd (pol p c input)) = []
                /\ fst (pol p c input) = Fatal (RuntimeError (printer_msg v))
            end.
Proof.
  intros r1 Hscope. subst r1.
  pose proof (Prog_exec_frame p (initial c input) (initial_dict_ok c input)) as Hf.
  pose proof (Prog_exec_scoped p (initial c input) (initial_dict_ok c input)) as Hsc.
  cbv zeta in Hf, Hsc.
  destruct Hf as (Hout & Hcalls & Hrounds & Hcfg & Hok).
  unfold pol. destruct (Prog_exec p (initial c input)) as [[R0|e] st1] eqn:Hr; simpl in *.
  - assert (Hnr : scope st1 <> record).
    { destruct Hscope as [->|Hnil]; [done|].
      destruct Hsc as [?|[_ Hu]]; [done|]. rewrite (Hu Hnil). done. }
    destruct (run_single p _ R0 st1 Hr Hnr Hok) as (v & h & Hv & Hh & Hm).
    split.
    + destruct v; try (rewrite Hm; exact Hrounds).
      destruct Hm as (_ & -> & _). exact Hrounds.
    + intros ? [= <-]. exists v, h. split; [done|]. split; [done|].
      destruct v; try (rewrite Hm; simpl; by split).
      destruct Hm as (-> & _). by rewrite Hcalls.
  - split; [|discriminate].
    unfold run. rewrite Hr. by destruct e.
Qed.

Lemma single_round_when_not_record_scoped_witness :
  rounds (snd (pol (Get "records" (fun v => ToList v (fun l => Ret (VInt (Z.of_nat (length l))))))
                 stdin_config [line_record "a"; line_record "b"; line_record "c"])) = 1
  /\ print_calls (snd (pol (Get "records" (fun v => ToList v
                                   (fun l => Ret (VInt (Z.of_nat (length l))))))
                        stdin_config [line_record "a"; line_record "b"; line_record "c"]))
     = [(AutoPrinter, Single (VInt 3), VNone)].
Proof.
  destruct (single_round_when_not_record_scoped
              (Get "records" (fun v => ToList v (fun l => Ret (VInt (Z.of_nat (length l))))))
              stdin_config [line_record "a"; line_record "b"; line_record "c"])
    as [H1 H2].
  - left. vm_compute. reflexivity.
  - split; [exact H1|].
    destruct (H2 (VInt 3) eq_refl) as (v & h & Hv & Hh & Hm).
    vm_compute in Hv. vm_compute in Hh. simplify_eq. exact Hm.
Defined.


(** Without records there is none after a round either, whatever the
    program. *)
Lemma empty_exec (p : prog) :
  holds (fun st => all_records st = [] /\ dict_ok (global_dict st)) never (exec p).
Proof.
  apply exec_keeps.
  - intros n st H. exact H.
  - intros st st' H []. congruence.
  - intros d st H. exact H.
  - intros s st H _. destruct (conflict st s); [left|]; exact H.
  - intros n st H _ _ _. by apply after_contents_no_records.
  - intros st H. rv_cases st.
    + left. exact H.
    + exact H.
    + rewrite H in Hl. by rewrite lookup_nil in Hl.
    + left. congruence.
  - right. by intros e st [].
Qed.

Lemma Prog_exec_empty (p : prog) (st : State) :
  all_records st = [] -> dict_ok (global_dict st) ->
  all_records (snd (Prog_exec p st)) = [].
Proof.
  intros He Hok. unfold Prog_exec, bind, modify.
  set (st0 := with_observed _ _ _ _ _).
  pose proof (empty_exec p st0 (conj He Hok)) as H.
  destruct (exec p st0) as [[v|e] st']; simpl; [tauto|].
  destruct H as [H|[]]. tauto.
Qed.




(** ** Mixed scope *)

(** C1 (as amended).  In any round, from any well-formed state: when both a
    table-scoped and a record-scoped observer fire, [set_scope] raises the
    mixed-scope error and the round ends with it.  In the first round of a
    run, [pol] then raises [UserError] from it, no printer is called and
    nothing is written. *)
Theorem mixed_scope_aborts_round :
  (forall p st, dict_ok (global_dict st) ->
     table ∈ fired (snd (Prog_exec p st)) -> record ∈ fired (snd (Prog_exec p st)) ->
     fst (Prog_exec p st) = Raised mixed)
  /\ (forall p c input,
        table ∈ fired (snd (Prog_exec p (initial c input))) ->
        record ∈ fired (snd (Prog_exec p (initial c input))) ->
        pol p c input = (Fatal (UserError mixed), snd (Prog_exec p (initial c input)))
        /\ print_calls (snd (pol p c input)) = []
        /\ stdout (snd (pol p c input)) = []).
Proof.
  assert (H1 : forall p st, dict_ok (global_dict st) ->
     table ∈ fired (snd (Prog_exec p st)) -> record ∈ fired (snd (Prog_exec p st)) ->
     fst (Prog_exec p st) = Raised mixed).
  { intros p st Hok Ht Hr.
    destruct (Prog_exec_scoped p st Hok) as [H|H]; [exact H|].
    destruct (scoped_not_both _ _ H Ht Hr). }
  split; [exact H1|].
  intros p c input Ht Hr.
  specialize (H1 p (initial c input) (initial_dict_ok c input) Ht Hr).
  pose proof (Prog_exec_frame p (initial c input) (initial_dict_ok c input)) as Hf.
  cbv zeta in Hf. destruct Hf as (Hout & Hcalls & _).
  assert (Hpol : pol p c input = (Fatal (UserError mixed), snd (Prog_exec p (initial c input)))).
  { unfold pol, run. destruct (Prog_exec p (initial c input)) as [r st1].
    simpl in *. by subst r. }
  rewrite Hpol. simpl. done.
Qed.

Lemma mixed_scope_aborts_round_witness :
  fst (Prog_exec (Get "record" (fun _ => Get "lines" Ret))
         (initial stdin_config [line_record "a"])) = Raised mixed
  /\ pol (Get "records" (fun _ => Get "record" Ret)) stdin_config [line_record "a"]
     = (Fatal (UserError mixed),
        snd (Prog_exec (Get "records" (fun _ => Get "record" Ret))
               (initial stdin_config [line_record "a"])))
  /\ stdout (snd (pol (Get "records" (fun _ => Get "record" Ret)) stdin_config
                    [line_record "a"])) = [].
Proof.
  split.
  - apply (proj1 mixed_scope_aborts_round).
    + apply initial_dict_ok.
    + vm_compute. do 2 apply list_elem_of_further. apply list_elem_of_here.
    + vm_compute. apply list_elem_of_here.
  - destruct (proj2 mixed_scope_aborts_round (Get "records" (fun _ => Get "record" Ret))
                stdin_config [line_record "a"]) as (H1 & _ & H2).
    + vm_compute. apply list_elem_of_here.
    + vm_compute. apply list_elem_of_further, list_elem_of_here.
    + by split.
Defined.

(** C1 as stated fails in a later round: on the records "a" and "b",
    [mixed_on_later_record] reads [record] and then [records] in the second
    round; [set_scope] raises there, but the printer was called after the
    first round and has written its result. *)
Lemma mixed_scope_in_later_round_after_output :
  fired (snd (pol mixed_on_later_record stdin_config [line_record "a"; line_record "b"]))
  = [record; table]
  /\ fst (pol mixed_on_later_record stdin_config [line_record "a"; line_record "b"])
     = Fatal mixed
  /\ print_calls (snd (pol mixed_on_later_record stdin_config
                         [line_record "a"; line_record "b"]))
     = [(AutoPrinter, Chain (VRecord (line_record "a")), VNone)]
  /\ stdout (snd (pol mixed_on_later_record stdin_config [line_record "a"; line_record "b"]))
     = [VRecord (line_record "a")].
Proof. vm_compute. repeat split. Qed.

(** ** Errors of the user program *)

(** An [Exception] of the first round, other than [NoMoreRecords], is
    wrapped: [pol] raises [UserError] from it and nothing is printed. *)
Lemma first_round_error_wrapped (p : prog) (c : Config) (input : list PolRecord) (e : exn) :
  fst (Prog_exec p (initial c input)) = Raised e ->
  e <> NoMoreRecords ->
  is_Exception e = true ->
  fst (pol p c input) = Fatal (UserError e)
  /\ print_calls (snd (pol p c input)) = [] /\ stdout (snd (pol p c input)) = [].
Proof.
  intros Hr He Hex.
  pose proof (Prog_exec_frame p (initial c input) (initial_dict_ok c input)) as Hf.
  cbv zeta in Hf. destruct Hf as (Hout & Hcalls & _).
  unfold pol, run. destruct (Prog_exec p (initial c input)) as [r st1].
  simpl in *. subst r. destruct e; try done. simpl in *. by rewrite Hex.
Qed.

(** C5 fails in the rounds after the first: on the lines "1" and "0",
    [divide_by_line] returns in the first round and raises in the second,
    which the printer drives; the exception leaves [pol] as it is, not
    wrapped in a [UserError], after the first result was written. *)
Theorem later_round_error_not_wrapped :
  fst (pol divide_by_line stdin_config [line_record "1"; line_record "0"])
  = Fatal (Exc "ZeroDivisionError" "division by zero")
  /\ stdout (snd (pol divide_by_line stdin_config [line_record "1"; line_record "0"]))
     = [VStr "1"]
  /\ fst (pol divide_by_line stdin_config [line_record "0"])
     = Fatal (UserError (Exc "ZeroDivisionError" "division by zero")).
Proof. vm_compute. repeat split. Qed.

(** ** Record scope: one round per record *)

Lemma locked_exec (s0 : Scope) (p : prog) :
  s0 <> undecided ->
  holds (fun st => scope st = s0 /\ dict_ok (global_dict st)) never (exec p).
Proof.
  intros Hs0. apply exec_keeps.
  - intros n st H. exact H.
  - intros st st' H []. congruence.
  - intros d st H. exact H.
  - intros s st H _. destruct (conflict st s) eqn:Hc; [by left|].
    cbn. apply conflict_false in Hc as [Hc|Hc]; congruence.
  - intros n st H _ _ _. by destruct (after_contents_frame st) as (-> & _).
  - intros st H. rv_cases st.
    + by left.
    + apply conflict_false in Hc as [Hc|Hc]; congruence.
    + rewrite touch_scope0. apply conflict_false in Hc as [Hc|Hc]; congruence.
    + left. rewrite touch_scope0. apply conflict_false in Hc as [Hc|Hc]; congruence.
  - right. by intros e st [].
Qed.

Lemma Prog_exec_locked (p : prog) (st : State) :
  scope st = record -> dict_ok (global_dict st) ->
  scope (snd (Prog_exec p st)) = record.
Proof.
  intros Hs Hok. unfold Prog_exec, bind, modify.
  set (st0 := with_observed _ _ _ _ _).
  pose proof (locked_exec record p ltac:(done) st0 (conj Hs Hok)) as H.
  destruct (exec p st0) as [[v|e] st']; simpl; [tauto|].
  destruct H as [H|[]]. tauto.
Qed.

Lemma Prog_exec_cursor (rs : list PolRecord) (k : nat) (r : PolRecord) (p : prog) (st : State) :
  cursor_at rs k r st -> dict_ok (global_dict st) ->
  cursor_at rs k r (snd (Prog_exec p st)).
Proof.
  intros Hc Hok. unfold Prog_exec, bind, modify.
  set (st0 := with_observed _ _ _ _ _).
  pose proof (cursor_at_exec rs k r p st0 (conj Hc Hok)) as H.
  destruct (exec p st0) as [[v|e] st']; simpl; [tauto|].
  destruct H as [H|[]]. tauto.
Qed.

Lemma drop_lookup_cons {A} (l : list A) (k : nat) (x : A) :
  l !! k = Some x -> drop k l = x :: drop (S k) l.
Proof. intros H. by apply drop_S. Qed.

Lemma rounds_loop_fan_out (p : prog) (rs : list PolRecord) (fuel : nat) :
  forall st k r,
    cursor_at rs k r st -> scope st = record -> dict_ok (global_dict st) ->
    k <= length rs -> length rs < fuel + k ->
    exists visited vs res st',
      rounds_loop fuel p st = (res, st')
      /\ fan_out p st visited vs res st'
      /\ stdout st' = stdout st ++ vs
      /\ print_calls st' = print_calls st
      /\ visited `prefix_of` drop k rs
      /\ res <> OutOfFuel
      /\ (res = Finished -> visited = drop k rs /\ length vs = length visited).
Proof.
  induction fuel as [|fuel IH]; intros st k r Hcur Hs Hok Hk Hfuel; [lia|].
  destruct (proj2 Hcur Hs) as (Hall & Hit & Hval).
  destruct (RecordScoped_next_spec st) as (st1 & Ht & Hn).
  rewrite Hall, Hit in Hn. simpl. rewrite Hn.
  destruct Ht.
  destruct (rs !! k) as [r'|] eqn:Hl.
  - (* the cursor advances to r' *)
    set (sA := with_cursor (Some r') (S k) st1) in *.
    assert (HcA : cursor_at rs (S k) r' sA).
    { split.
      - intros Hu. cbn in Hu. congruence.
      - intros _. subst sA. rewrite all_records_cursor. cbn.
        repeat split; congruence. }
    assert (HsA : scope sA = record) by (cbn; congruence).
    assert (HokA : dict_ok (global_dict sA)) by (cbn; congruence).
    pose proof (Prog_exec_cursor rs (S k) r' p sA HcA HokA) as Hc2.
    pose proof (Prog_exec_locked p sA HsA HokA) as Hs2.
    pose proof (Prog_exec_frame p sA HokA) as Hf. cbv zeta in Hf.
    destruct Hf as (Hout & Hcalls & _ & _ & Hok2).
    destruct (Prog_exec p sA) as [[v|e] st2] eqn:Hr; simpl in *.
    + apply lookup_lt_Some in Hl as Hlt.
      destruct (IH (render v st2) (S k) r') as (visited & vs & res & st' & H1 & H2 & H3 & H4 & H5 & H6 & H7);
        [exact Hc2|exact Hs2|exact Hok2|lia|lia|].
      exists (r' :: visited), (v :: vs), res, st'.
      split; [exact H1|]. split.
      { eapply fan_out_yield; [exact Hn|reflexivity|exact Hr| |exact H2].
        by destruct (proj2 Hc2 Hs2) as (_ & _ & ?). }
      split. { rewrite H3. cbn. rewrite Hout. cbn. rewrite touch_stdout0, <- app_assoc. done. }
      split. { rewrite H4. cbn. rewrite Hcalls. cbn. done. }
      split. { rewrite (drop_lookup_cons _ _ _ Hl). by apply prefix_cons. }
      split; [exact H6|].
      intros Hfin. destruct (H7 Hfin) as [-> Hlen]. rewrite (drop_lookup_cons _ _ _ Hl).
      split; [done|]. simpl. by rewrite Hlen.
    + exists [r'], [], (Failed (generator_raise e)), st2.
      split; [done|]. split; [by eapply fan_out_raise|].
      split. { rewrite app_nil_r, Hout. cbn. done. }
      split. { rewrite Hcalls. cbn. done. }
      split. { rewrite (drop_lookup_cons _ _ _ Hl). apply prefix_cons, prefix_nil. }
      split; [done|]. discriminate.
  - exists [], [], Finished, st1. simpl.
    split; [done|]. split; [by apply fan_out_end|].
    split; [by rewrite app_nil_r|]. split; [done|].
    split; [apply prefix_nil|]. split; [done|].
    intros _. split; [|done]. symmetry. apply drop_ge. by apply lookup_ge_None.
Qed.

(** The first round on an input with a first record, when it returns with
    the scope locked to 'record', has fetched that record, and only that
    one. *)
Lemma first_round_record (p : prog) (c : Config) (input : list PolRecord)
    (R0 : value) (st1 : State) (r1 : PolRecord) :
  Prog_exec p (initial c input) = (Ok R0, st1) ->
  all_records (initial c input) !! 0 = Some r1 ->
  cursor_at (all_records (initial c input)) 1 r1 st1.
Proof.
  intros Hr H0.
  pose proof (Prog_exec_cursor (all_records (initial c input)) 1 r1 p (initial c input)) as H.
  rewrite Hr in H. apply H; [|apply initial_dict_ok].
  split; [|done]. intros _. by repeat split.
Qed.

(** A sequence of rounds that ends with an exception: the round on the last
    record visited raised; what leaves the generator is its exception, or
    the [RuntimeError] Python makes of a [StopIteration] there; that round
    yields no element. *)
Lemma fan_out_failed (p : prog) (st : State) (visited : list PolRecord) (vs : list value)
    (res : loop_res) (st' : State) :
  fan_out p st visited vs res st' ->
  forall e, res = Failed e ->
    length visited = S (length vs)
    /\ is_StopIteration e = false
    /\ exists r sa e0,
         last visited = Some r /\ rv_val sa = Some r
         /\ Prog_exec p sa = (Raised e0, st') /\ e = generator_raise e0.
Proof.
  induction 1 as [st st' Hn|st r st1 e0 st2 Hn Hv Hx
                 |st r st1 v st2 rs vs res st' Hn Hv Hx Hv2 Hf IH]; intros e He.
  - discriminate.
  - injection He as <-. split; [done|]. split.
    + unfold generator_raise. by destruct (is_StopIteration e0) eqn:E.
    + by exists r, st1, e0.
  - destruct (IH e He) as (Hlen & Hstop & r' & sa & e0 & Hlast & Hval & Hex & Hgen).
    split; [simpl; by rewrite Hlen|]. split; [exact Hstop|].
    exists r', sa, e0. split; [|done].
    destruct rs as [|x rs']; [discriminate|]. exact Hlast.
Qed.

(** C2 (as amended).  On an input with a first record [r1]: when the first
    round returns [R0] with the scope locked to 'record' and a printer is
    bound, the printer is handed the lazy sequence that starts with [R0],
    which was evaluated on [r1]; the rounds that follow advance the cursor
    over the further records in the order they were produced and yield one
    element each, for as long as they return.  When the sequence ends by
    exhaustion, every record was visited and there are as many elements as
    records.  A round that raises ends the sequence at its record, without
    an element for it: with the exception of the round, or, when that is a
    [StopIteration], with the [RuntimeError] that Python makes of a
    [StopIteration] in the body of a generator. *)
Theorem record_scope_fan_out (p : prog) (c : Config) (input : list PolRecord)
    (r1 : PolRecord) (R0 : value) (st1 : State) (cls : PrinterClass) :
  all_records (initial c input) !! 0 = Some r1 ->
  Prog_exec p (initial c input) = (Ok R0, st1) ->
  scope st1 = record ->
  global_dict st1 !! "printer" = Some (Plain (VPrinter cls)) ->
  exists header visited vs res st',
    rv_val st1 = Some r1
    /\ global_dict st1 !! "header" = Some (Plain header)
    /\ pol p c input = (of_loop res, st')
    /\ print_calls st' = [(cls, Chain R0, header)]
    /\ fan_out p (render R0 (note_call cls (Chain R0) header st1)) visited vs res st'
    /\ stdout st' = R0 :: vs
    /\ (r1 :: visited) `prefix_of` all_records (initial c input)
    /\ res <> OutOfFuel
    /\ (res = Finished ->
        r1 :: visited = all_records (initial c input)
        /\ length (R0 :: vs) = length (all_records (initial c input)))
    /\ (forall e, res = Failed e ->
        length visited = S (length vs)
        /\ is_StopIteration e = false
        /\ exists r sa e0,
             last visited = Some r /\ rv_val sa = Some r
             /\ Prog_exec p sa = (Raised e0, st') /\ e = generator_raise e0).
Proof.
  intros H0 Hr Hs Hp.
  pose proof (first_round_record p c input R0 st1 r1 Hr H0) as Hcur.
  pose proof (Prog_exec_frame p (initial c input) (initial_dict_ok c input)) as Hf.
  rewrite Hr in Hf. cbn in Hf. destruct Hf as (Hout & Hcalls & _ & Hcfg & Hok).
  destruct (proj2 (proj2 Hok)) as [header Hh].
  destruct (proj2 Hcur Hs) as (Hall & Hit & Hval).
  set (rs := all_records (initial c input)) in *.
  set (st0 := note_call cls (Chain R0) header st1).
  assert (Hlen : 1 <= length rs) by (apply lookup_lt_Some in H0; lia).
  destruct (rounds_loop_fan_out p rs (S (ahead st0)) (render R0 st0) 1 r1)
    as (visited & vs & res & st' & H1 & H2 & H3 & H4 & H5 & H6 & H7).
  { exact Hcur. }
  { exact Hs. }
  { exact Hok. }
  { exact Hlen. }
  { unfold ahead. subst st0. cbn. rewrite <- length_app.
    change (seq_buf st1 ++ pending (cfg st1) (stdin st1, gen st1)) with (all_records st1).
    rewrite Hall. lia. }
  exists header, visited, vs, res, st'.
  assert (Hdrop : drop 1 rs = match rs with [] => [] | _ :: t => t end) by by destruct rs.
  destruct rs as [|x rs'] eqn:Hrs; [simpl in Hlen; lia|].
  simpl in H0. injection H0 as ->. simpl in H5, H7.
  split; [exact Hval|]. split; [exact Hh|]. split.
  { unfold pol, run. rewrite Hr. rewrite (bool_decide_true (scope st1 = record)) by done.
    rewrite !(getitem_plain _ _ _ Hp), (get_plain _ _ _ Hh).
    unfold print_result. fold st0. by rewrite H1. }
  split. { rewrite H4. subst st0. cbn. by rewrite Hcalls. }
  split; [exact H2|].
  split. { rewrite H3. subst st0. cbn. by rewrite Hout. }
  split; [by apply prefix_cons|].
  split; [exact H6|].
  split.
  - intros H. destruct (H7 H) as [-> Hl]. split; [done|]. simpl. by rewrite Hl.
  - intros e He. exact (fan_out_failed _ _ _ _ _ _ H2 e He).
Qed.

Lemma record_scope_fan_out_witness :
  exists vs res,
    fst (pol (Get "record" (fun v => GetItem v 0 Ret)) stdin_config
           [line_record "a"; line_record "b"; line_record "c"]) = of_loop res
    /\ res <> OutOfFuel
    /\ stdout (snd (pol (Get "record" (fun v => GetItem v 0 Ret)) stdin_config
                      [line_record "a"; line_record "b"; line_record "c"]))
       = VStr "a" :: vs.
Proof.
  destruct (record_scope_fan_out (Get "record" (fun v => GetItem v 0 Ret)) stdin_config
              [line_record "a"; line_record "b"; line_record "c"] (line_record "a")
              (VStr "a")
              (snd (Prog_exec (Get "record" (fun v => GetItem v 0 Ret))
                      (initial stdin_config
                         [line_record "a"; line_record "b"; line_record "c"])))
              AutoPrinter)
    as (header & visited & vs & res & st' & _ & _ & Hpol & _ & _ & Hout & _ & Hres & _).
  - vm_compute. reflexivity.
  - vm_compute. reflexivity.
  - vm_compute. reflexivity.
  - vm_compute. reflexivity.
  - exists vs, res. rewrite Hpol. simpl. by repeat split.
Defined.

(** C2 as stated fails when a later round raises: on the lines "1" and "0"
    the first round of [divide_by_line] locks the scope to 'record', yet the
    sequence handed to the printer yields one element, not two, and ends
    with the exception of the second round. *)
Lemma fan_out_stops_at_failing_round :
  fst (Prog_exec divide_by_line (initial stdin_config [line_record "1"; line_record "0"]))
  = Ok (VStr "1")
  /\ scope (snd (Prog_exec divide_by_line
                   (initial stdin_config [line_record "1"; line_record "0"]))) = record
  /\ print_calls (snd (pol divide_by_line stdin_config [line_record "1"; line_record "0"]))
     = [(AutoPrinter, Chain (VStr "1"), VNone)]
  /\ stdout (snd (pol divide_by_line stdin_config [line_record "1"; line_record "0"]))
     = [VStr "1"]
  /\ fst (pol divide_by_line stdin_config [line_record "1"; line_record "0"])
     = Fatal (Exc "ZeroDivisionError" "division by zero").
Proof. vm_compute. repeat split. Qed.

(** A [StopIteration] of a later round does not read as the end of the
    records: on the lines "a", "b" and "c", [stop_on_b] raises it in the
    second round, and the sequence ends there with the [RuntimeError] of the
    generator, after one element. *)
Lemma later_round_StopIteration_is_an_error :
  stdout (snd (pol stop_on_b stdin_config
                 [line_record "a"; line_record "b"; line_record "c"])) = [VStr "a"]
  /\ fst (pol stop_on_b stdin_config [line_record "a"; line_record "b"; line_record "c"])
     = Fatal (RuntimeError "generator raised StopIteration").
Proof. vm_compute. repeat split. Qed.

(** ** What the rounds driven by the printer keep *)

Section LoopInvariant.
Variable p : prog.
Variable I : State -> Prop.
Hypothesis I_round : forall st, I st -> dict_ok (global_dict st) -> I (snd (Prog_exec p st)).
Hypothesis I_seq : forall st st', I st -> seq_touch st st' -> I st'.
Hypothesis I_cursor : forall v i st, I st -> I (with_cursor v i st).
Hypothesis I_render : forall v st, I st -> I (render v st).

Lemma rounds_loop_keeps (fuel : nat) : forall st,
  I st -> dict_ok (global_dict st) ->
  I (snd (rounds_loop fuel p st)) /\ dict_ok (global_dict (snd (rounds_loop fuel p st))).
Proof.
  induction fuel as [|fuel IH]; intros st HI Hok; simpl; [done|].
  destruct (RecordScoped_next_spec st) as (st1 & Ht & ->).
  assert (HI1 : I st1) by (by eapply I_seq).
  assert (Hok1 : dict_ok (global_dict st1)) by (destruct Ht; congruence).
  destruct (all_records st !! rv_iter st) as [r|]; simpl; [|done].
  set (sA := with_cursor (Some r) (S (rv_iter st)) st1).
  assert (HIA : I sA) by (by apply I_cursor).
  assert (HokA : dict_ok (global_dict sA)) by done.
  pose proof (I_round sA HIA HokA) as HI2.
  pose proof (Prog_exec_frame p sA HokA) as Hf. cbv zeta in Hf.
  destruct Hf as (_ & _ & _ & _ & Hok2).
  destruct (Prog_exec p sA) as [[v|e] st2]; simpl in *; [|done].
  apply IH; [by apply I_render|done].
Qed.
End LoopInvariant.

Lemma rounds_loop_calls (p : prog) (fuel : nat) (st : State) :
  dict_ok (global_dict st) ->
  print_calls (snd (rounds_loop fuel p st)) = print_calls st.
Proof.
  intros Hok.
  apply (rounds_loop_keeps p (fun s => print_calls s = print_calls st)); try done.
  - intros s Hs Hoks. pose proof (Prog_exec_frame p s Hoks) as Hf. cbv zeta in Hf.
    destruct Hf as (_ & -> & _). done.
  - intros s s' Hs []. congruence.
Qed.

(** C8 (as amended).  After the first round has returned, [pol] looks up what
    [printer] is bound to at that moment (the rounds that follow, in record
    scope, run later, inside [print_result]).  A bound value that is no
    printer makes [pol] raise the error that names it, and nothing is
    printed; otherwise [print_result] of the bound printer is the one call
    made in the run, with the final result and the header bound at that
    moment. *)
Theorem printer_resolved_after_first_round (p : prog) (c : Config) (input : list PolRecord)
    (R0 : value) (st1 : State) :
  Prog_exec p (initial c input) = (Ok R0, st1) ->
  exists v header,
    global_dict st1 !! "printer" = Some (Plain v)
    /\ global_dict st1 !! "header" = Some (Plain header)
    /\ match v with
       | VPrinter cls =>
           print_calls (snd (pol p c input))
           = [(cls, if bool_decide (scope st1 = record) then Chain R0 else Single R0, header)]
       | _ =>
           pol p c input = (Fatal (RuntimeError (printer_msg v)), st1)
           /\ print_calls st1 = [] /\ stdout st1 = []
       end.
Proof.
  intros Hr.
  pose proof (Prog_exec_frame p (initial c input) (initial_dict_ok c input)) as Hf.
  rewrite Hr in Hf. cbn in Hf. destruct Hf as (Hout & Hcalls & _ & Hcfg & Hok).
  destruct (proj1 (proj2 Hok)) as [v Hv]. destruct (proj2 (proj2 Hok)) as [header Hh].
  exists v, header. split; [done|]. split; [done|].
  assert (Hnp : forall w, (forall cls, w <> VPrinter cls) ->
            global_dict st1 !! "printer" = Some (Plain w) ->
            pol p c input = (Fatal (RuntimeError (printer_msg w)), st1)).
  { intros w Hw Hpw. unfold pol, run. rewrite Hr, (getitem_plain _ _ _ Hpw).
    destruct w; try reflexivity. by destruct (Hw c0). }
  destruct v; try (split; [by apply Hnp|by split]).
  unfold pol, run. rewrite Hr, !(getitem_plain _ _ _ Hv), (get_plain _ _ _ Hh).
  cbv zeta. cbn [snd].
  destruct (bool_decide (scope st1 = record)); unfold print_result; cbv zeta.
  - rewrite rounds_loop_calls by done. cbn. by rewrite Hcalls.
  - assert (Hok0 : dict_ok (global_dict (note_call c0 (Single R0) header st1))) by done.
    destruct (elements_of_frame R0 _ Hok0) as (_ & H2 & _).
    destruct (elements_of R0 _) as [[l|e] st']; simpl in *; rewrite H2; cbn;
      by rewrite Hcalls.
Qed.

Lemma printer_resolved_after_first_round_witness :
  exists v header,
    global_dict (snd (Prog_exec (Get "line" (fun v => Assign "printer" (VInt 3) (Ret v)))
                        (initial stdin_config [line_record "a"]))) !! "printer"
    = Some (Plain v)
    /\ global_dict (snd (Prog_exec (Get "line" (fun v => Assign "printer" (VInt 3) (Ret v)))
                           (initial stdin_config [line_record "a"]))) !! "header"
       = Some (Plain header)
    /\ match v with
       | VPrinter cls =>
           print_calls (snd (pol (Get "line" (fun v => Assign "printer" (VInt 3) (Ret v)))
                               stdin_config [line_record "a"]))
           = [(cls, if bool_decide (scope (snd (Prog_exec
                                       (Get "line" (fun v => Assign "printer" (VInt 3) (Ret v)))
                                       (initial stdin_config [line_record "a"]))) = record)
                    then Chain (VStr "a") else Single (VStr "a"), header)]
       | _ =>
           pol (Get "line" (fun v => Assign "printer" (VInt 3) (Ret v)))
               stdin_config [line_record "a"]
           = (Fatal (RuntimeError (printer_msg v)),
              snd (Prog_exec (Get "line" (fun v => Assign "printer" (VInt 3) (Ret v)))
                     (initial stdin_config [line_record "a"])))
           /\ print_calls (snd (Prog_exec
                                  (Get "line" (fun v => Assign "printer" (VInt 3) (Ret v)))
                                  (initial stdin_config [line_record "a"]))) = []
           /\ stdout (snd (Prog_exec
                             (Get "line" (fun v => Assign "printer" (VInt 3) (Ret v)))
                             (initial stdin_config [line_record "a"]))) = []
       end.
Proof.
  apply (printer_resolved_after_first_round
           (Get "line" (fun v => Assign "printer" (VInt 3) (Ret v)))
           stdin_config [line_record "a"] (VStr "a")).
  vm_compute. reflexivity.
Defined.

(** C8 as stated fails in record scope: on the lines "a" and "b",
    [rebind_printer_on_b] binds [printer] to the number 3 in the second
    round, after the printer was looked up; at the end of the run [printer]
    is bound to a value that is no printer, yet no error is raised, the
    printer bound at the start was called and both results were written. *)
Lemma rebinding_in_later_round_ignored :
  global_dict (snd (pol rebind_printer_on_b stdin_config [line_record "a"; line_record "b"]))
    !! "printer" = Some (Plain (VInt 3))
  /\ fst (pol rebind_printer_on_b stdin_config [line_record "a"; line_record "b"]) = Returned
  /\ print_calls (snd (pol rebind_printer_on_b stdin_config
                         [line_record "a"; line_record "b"]))
     = [(AutoPrinter, Chain (VStr "a"), VNone)]
  /\ stdout (snd (pol rebind_printer_on_b stdin_config [line_record "a"; line_record "b"]))
     = [VStr "a"; VStr "b"].
Proof. vm_compute. repeat split. Qed.

(** ** Who reads the input *)

Lemma through_seq_touch (d : nat) (rs : list PolRecord) (st st' : State) :
  through_seq d rs st -> seq_touch st st' -> through_seq d rs st'.
Proof.
  unfold through_seq. intros H []. rewrite touch_reads0, touch_direct0, touch_all0. exact H.
Qed.

Lemma Prog_exec_through (d : nat) (rs : list PolRecord) (p : prog) (st : State) :
  through_seq d rs st -> dict_ok (global_dict st) ->
  through_seq d rs (snd (Prog_exec p st)).
Proof.
  intros Hc Hok. unfold Prog_exec, bind, modify.
  set (st0 := with_observed _ _ _ _ _).
  pose proof (through_seq_exec d rs p st0 (conj Hc Hok)) as H.
  destruct (exec p st0) as [[v|e] st']; simpl; [tauto|].
  destruct H as [H|[]]. tauto.
Qed.

Lemma run_through (d : nat) (rs : list PolRecord) (p : prog) (st : State) :
  through_seq d rs st -> dict_ok (global_dict st) ->
  through_seq d rs (snd (run p st)).
Proof.
  intros Hc Hok.
  pose proof (Prog_exec_through d rs p st Hc Hok) as H1.
  pose proof (Prog_exec_frame p st Hok) as Hf. cbv zeta in Hf.
  destruct Hf as (_ & _ & _ & _ & Hok1).
  unfold run. destruct (Prog_exec p st) as [[R0|e] st1]; simpl in *.
  2:{ by destruct e. }
  destruct (proj1 (proj2 Hok1)) as [v Hv]. destruct (proj2 (proj2 Hok1)) as [h Hh].
  rewrite (getitem_plain _ _ _ Hv).
  destruct v; try exact H1.
  rewrite (getitem_plain _ _ _ Hv), (get_plain _ _ _ Hh). cbv zeta. cbn [snd].
  unfold print_result. cbv zeta.
  destruct (bool_decide (scope st1 = record)).
  - apply (rounds_loop_keeps p (through_seq d rs)); try done.
    + intros s Hs Hoks. by apply Prog_exec_through.
    + apply through_seq_touch.
  - pose proof (elements_of_keeps (through_seq d rs) never (through_seq_touch d rs) R0
                  (note_call c (Single R0) h st1)) as He.
    assert (Hpre : through_seq d rs (note_call c (Single R0) h st1)
                   /\ dict_ok (global_dict (note_call c (Single R0) h st1))) by (by split).
    specialize (He Hpre).
    destruct (elements_of R0 _) as [[l|e] st']; simpl in *; [tauto|].
    destruct He as [He|[]]. tauto.
Qed.

Lemma run_cfg (p : prog) (st : State) :
  dict_ok (global_dict st) -> cfg (snd (run p st)) = cfg st.
Proof.
  intros Hok.
  pose proof (Prog_exec_frame p st Hok) as Hf. cbv zeta in Hf.
  destruct Hf as (_ & _ & _ & Hc1 & Hok1).
  unfold run. destruct (Prog_exec p st) as [[R0|e] st1]; simpl in *.
  2:{ by destruct e. }
  destruct (proj1 (proj2 Hok1)) as [v Hv]. destruct (proj2 (proj2 Hok1)) as [h Hh].
  rewrite (getitem_plain _ _ _ Hv).
  destruct v; try exact Hc1.
  rewrite (getitem_plain _ _ _ Hv), (get_plain _ _ _ Hh). cbv zeta. cbn [snd].
  unfold print_result. cbv zeta.
  destruct (bool_decide (scope st1 = record)).
  - apply (rounds_loop_keeps p (fun s => cfg s = cfg st)).
    + intros s Hs Hoks. pose proof (Prog_exec_frame p s Hoks) as Hf. cbv zeta in Hf.
      destruct Hf as (_ & _ & _ & -> & _). done.
    + intros s s' Hs []. congruence.
    + intros w i s Hs. exact Hs.
    + intros w s Hs. exact Hs.
    + exact Hc1.
    + exact Hok1.
  - destruct (elements_of_frame R0 (note_call c (Single R0) h st1)) as (_ & _ & _ & He & _);
      [done|].
    destruct (elements_of R0 _) as [[l|e] st']; simpl in *; congruence.
Qed.

(** C9 (as amended).  Unless the program reads the name [file] or
    [contents], [get_contents] is never called in a run, and whatever has
    been taken from the input is in the buffer of [record_seq]: the buffer
    followed by what the producer has still to yield is the input, from the
    first round to the end of printing.  ([file] and [contents] do not go
    through [record_seq]: they call [get_contents], which reads the input
    itself.) *)
Theorem input_read_through_record_seq (p : prog) (c : Config) (input : list PolRecord) :
  ("file" ∈ reads (snd (pol p c input)) \/ "contents" ∈ reads (snd (pol p c input)))
  \/ (direct_reads (snd (pol p c input)) = 0
      /\ seq_buf (snd (pol p c input))
         ++ pending c (stdin (snd (pol p c input)), gen (snd (pol p c input)))
         = all_records (initial c input)).
Proof.
  pose proof (run_through 0 (all_records (initial c input)) p (initial c input)) as H.
  pose proof (run_cfg p (initial c input) (initial_dict_ok c input)) as Hcfg.
  specialize (H ltac:(right; by split) (initial_dict_ok c input)).
  unfold through_seq in H. destruct H as [H|[H1 H2]]; [by left|right].
  split; [exact H1|]. unfold all_records in H2 at 1. unfold pol. by rewrite Hcfg in H2.
Qed.

(** C9 as stated fails for [file] (and [contents]): on standard input,
    [file_then_count] reads [file], which calls [get_contents]; that reads
    standard input to its end without [record_seq], whose buffer stays empty
    and whose producer then finds nothing: the count of records is 0, not
    2. *)
Lemma file_reads_input_directly :
  direct_reads (snd (pol file_then_count stdin_config [line_record "a"; line_record "b"])) = 1
  /\ seq_buf (snd (pol file_then_count stdin_config [line_record "a"; line_record "b"])) = []
  /\ stdin (snd (pol file_then_count stdin_config [line_record "a"; line_record "b"])) = []
  /\ stdout (snd (pol file_then_count stdin_config [line_record "a"; line_record "b"]))
     = [VInt 0]
  /\ stdout (snd (pol (Get "file" Ret) stdin_config [line_record "a"; line_record "b"]))
     = [VStr (read_text [line_record "a"; line_record "b"])].
Proof. vm_compute. repeat split. Qed.

(** ** The bound on the loop of rounds is never reached *)

(** How [pol] ends when its first round raises. *)
Lemma run_raised (p : prog) (st : State) (e : exn) (st1 : State) :
  Prog_exec p st = (Raised e, st1) ->
  run p st = (if decide (e = NoMoreRecords) then Returned
              else if is_Exception e then Fatal (UserError e) else Fatal e, st1).
Proof.
  intros Hr. unfold run. rewrite Hr. by destruct e.
Qed.

(** Without records the loop of rounds ends at once. *)
Lemma rounds_loop_empty (p : prog) (fuel : nat) (st : State) :
  all_records st = [] ->
  exists st', rounds_loop (S fuel) p st = (Finished, st') /\ seq_touch st st'.
Proof.
  intros He. simpl.
  destruct (RecordScoped_next_spec st) as (st1 & Ht & ->).
  rewrite He, lookup_nil. by exists st1.
Qed.

Lemma pol_total (p : prog) (c : Config) (input : list PolRecord) :
  fst (pol p c input) <> Unfinished.
Proof.
  pose proof (Prog_exec_frame p (initial c input) (initial_dict_ok c input)) as Hf.
  cbv zeta in Hf. destruct Hf as (_ & _ & _ & _ & Hok).
  destruct (Prog_exec p (initial c input)) as [[R0|e] st1] eqn:Hr; simpl in *.
  2:{ unfold pol. rewrite (run_raised _ _ _ _ Hr). simpl.
      destruct (decide _); [done|]. by destruct (is_Exception e). }
  destruct (proj1 (proj2 Hok)) as [v Hv]. destruct (proj2 (proj2 Hok)) as [h Hh].
  destruct (decide (scope st1 = record)) as [Hs|Hs].
  - unfold pol, run. rewrite Hr, (bool_decide_true _ Hs), (getitem_plain _ _ _ Hv).
    destruct v; try done.
    rewrite (getitem_plain _ _ _ Hv), (get_plain _ _ _ Hh). cbv zeta. cbn [fst].
    unfold print_result. cbv zeta.
    destruct (all_records (initial c input) !! 0) as [r1|] eqn:H0.
    + pose proof (first_round_record p c input R0 st1 r1 Hr H0) as Hcur.
      destruct (proj2 Hcur Hs) as (Hall & _).
      destruct (rounds_loop_fan_out p (all_records (initial c input))
                  (S (ahead (note_call c0 (Chain R0) h st1)))
                  (render R0 (note_call c0 (Chain R0) h st1)) 1 r1)
        as (visited & vs & res & st' & H1 & _ & _ & _ & _ & H6 & _);
        [exact Hcur|exact Hs|exact Hok|apply lookup_lt_Some in H0; lia| |].
      * unfold ahead. cbn. rewrite <- length_app.
        change (seq_buf st1 ++ pending (cfg st1) (stdin st1, gen st1)) with (all_records st1).
        rewrite Hall. lia.
      * rewrite H1. simpl. by destruct res.
    + assert (Hnil : all_records (initial c input) = []).
      { destruct (all_records (initial c input)); [done|discriminate]. }
      pose proof (Prog_exec_empty p (initial c input) Hnil (initial_dict_ok c input)) as He.
      rewrite Hr in He. cbn [snd] in He.
      destruct (rounds_loop_empty p (ahead (note_call c0 (Chain R0) h st1))
                  (render R0 (note_call c0 (Chain R0) h st1)) He) as (st' & -> & _).
      done.
  - destruct (run_single p (initial c input) R0 st1 Hr Hs Hok) as (w & h' & Hw & _ & Hm).
    unfold pol. destruct w; try (by rewrite Hm). by destruct Hm as (_ & _ & ?).
Qed.

(** * Further properties of the engine *)

(** ** The cursor within a round *)

(** X1.  A round never advances the cursor: in record scope, with a current
    record, whatever the program reads, subscripts, walks or assigns, and
    however the round ends, the current record, the position of the cursor
    and the records of the run are afterwards what they were. *)
Theorem round_keeps_cursor (p : prog) (st : State) (r : PolRecord) :
  dict_ok (global_dict st) ->
  scope st = record ->
  rv_val st = Some r ->
  rv_val (snd (Prog_exec p st)) = Some r
  /\ rv_iter (snd (Prog_exec p st)) = rv_iter st
  /\ all_records (snd (Prog_exec p st)) = all_records st
  /\ scope (snd (Prog_exec p st)) = record.
Proof.
  intros Hok Hs Hv.
  assert (Hcur : cursor_at (all_records st) (rv_iter st) r st).
  { split; [intros Hu; congruence|]. intros _. by repeat split. }
  pose proof (Prog_exec_cursor _ _ _ p st Hcur Hok) as [_ H].
  pose proof (Prog_exec_locked p st Hs Hok) as Hs'.
  destruct (H Hs') as (H1 & H2 & H3). by repeat split.
Qed.

Lemma round_keeps_cursor_witness :
  let st := snd (Prog_exec (Get "record" Ret)
                   (initial stdin_config [line_record "a"; line_record "b"])) in
  rv_val (snd (Prog_exec mixed_on_later_record st)) = Some (line_record "a")
  /\ rv_iter (snd (Prog_exec mixed_on_later_record st)) = rv_iter st
  /\ all_records (snd (Prog_exec mixed_on_later_record st)) = all_records st
  /\ scope (snd (Prog_exec mixed_on_later_record st)) = record.
Proof.
  intros st. apply (round_keeps_cursor mixed_on_later_record st (line_record "a")).
  - apply (Prog_exec_frame (Get "record" Ret)
             (initial stdin_config [line_record "a"; line_record "b"])
             (initial_dict_ok _ _)).
  - vm_compute. reflexivity.
  - vm_compute. reflexivity.
Defined.

(** ** What every step of a run keeps *)

Section RunInvariant.
Variable p : prog.
Variable I : State -> Prop.
Hypothesis I_round : forall st, I st -> dict_ok (global_dict st) -> I (snd (Prog_exec p st)).
Hypothesis I_seq : forall st st', I st -> seq_touch st st' -> I st'.
Hypothesis I_cursor : forall v i st, I st -> I (with_cursor v i st).
Hypothesis I_printed : forall c o st, I st -> I (with_printed c o st).

Lemma run_keeps (st : State) :
  I st -> dict_ok (global_dict st) -> I (snd (run p st)).
Proof.
  intros HI Hok.
  pose proof (I_round st HI Hok) as HI1.
  pose proof (Prog_exec_frame p st Hok) as Hf. cbv zeta in Hf.
  destruct Hf as (_ & _ & _ & _ & Hok1).
  unfold run. destruct (Prog_exec p st) as [[R0|e] st1]; simpl in *.
  2:{ by destruct e. }
  destruct (proj1 (proj2 Hok1)) as [v Hv]. destruct (proj2 (proj2 Hok1)) as [h Hh].
  rewrite (getitem_plain _ _ _ Hv).
  destruct v; try exact HI1.
  rewrite (getitem_plain _ _ _ Hv), (get_plain _ _ _ Hh). cbv zeta. cbn [snd].
  unfold print_result. cbv zeta.
  destruct (bool_decide (scope st1 = record)).
  - apply (rounds_loop_keeps p I); try done.
    + intros w s Hs. by apply I_printed.
    + unfold render, note_call. by do 2 apply I_printed.
  - pose proof (elements_of_keeps I never I_seq R0 (note_call c (Single R0) h st1)) as He.
    assert (Hpre : I (note_call c (Single R0) h st1)
                   /\ dict_ok (global_dict (note_call c (Single R0) h st1)))
      by (split; [by apply I_printed|done]).
    specialize (He Hpre).
    destruct (elements_of R0 _) as [[l|e] st']; simpl in *.
    + apply I_printed. tauto.
    + destruct He as [He|[]]. tauto.
Qed.
End RunInvariant.

(** ** The scope over a whole run *)

Lemma Prog_exec_locked_any (s0 : Scope) (p : prog) (st : State) :
  s0 <> undecided -> scope st = s0 -> dict_ok (global_dict st) ->
  scope (snd (Prog_exec p st)) = s0.
Proof.
  intros Hs0 Hs Hok. unfold Prog_exec, bind, modify.
  set (st0 := with_observed _ _ _ _ _).
  pose proof (locked_exec s0 p Hs0 st0 (conj Hs Hok)) as H.
  destruct (exec p st0) as [[v|e] st']; simpl; [tauto|].
  destruct H as [H|[]]. tauto.
Qed.

Lemma run_locked (s0 : Scope) (p : prog) (st : State) :
  s0 <> undecided ->
  scope (snd (Prog_exec p st)) = s0 -> dict_ok (global_dict st) ->
  scope (snd (run p st)) = s0.
Proof.
  intros Hs0 Hs Hok.
  pose proof (Prog_exec_frame p st Hok) as Hf. cbv zeta in Hf.
  destruct Hf as (_ & _ & _ & _ & Hok1).
  unfold run. destruct (Prog_exec p st) as [[R0|e] st1]; simpl in *.
  2:{ by destruct e. }
  destruct (proj1 (proj2 Hok1)) as [v Hv]. destruct (proj2 (proj2 Hok1)) as [h Hh].
  rewrite (getitem_plain _ _ _ Hv).
  destruct v; try exact Hs.
  rewrite (getitem_plain _ _ _ Hv), (get_plain _ _ _ Hh). cbv zeta. cbn [snd].
  unfold print_result. cbv zeta.
  destruct (bool_decide (scope st1 = record)).
  - apply (rounds_loop_keeps p (fun s => scope s = s0)).
    + intros s Hss Hoks. by apply Prog_exec_locked_any.
    + intros s s' Hss []. congruence.
    + intros w i s Hss. exact Hss.
    + intros w s Hss. exact Hss.
    + exact Hs.
    + exact Hok1.
  - pose proof (elements_of_keeps (fun s => scope s = s0) never
                  ltac:(intros ? ? ? []; congruence) R0
                  (note_call c (Single R0) h st1)) as He.
    assert (Hpre : scope (note_call c (Single R0) h st1) = s0
                   /\ dict_ok (global_dict (note_call c (Single R0) h st1))) by (by split).
    specialize (He Hpre).
    destruct (elements_of R0 _) as [[l|e] st']; simpl in *; [tauto|].
    destruct He as [He|[]]. tauto.
Qed.

(** X2.  The scope is locked for the rest of the run: once it is 'record' or
    'table', no round changes it, whatever the program does and however the
    round ends; and the scope the first round leaves locked is the scope at
    the end of the run, through all the rounds the printer drives. *)
Theorem scope_locked_for_the_run :
  (forall p st, dict_ok (global_dict st) -> scope st <> undecided ->
     scope (snd (Prog_exec p st)) = scope st)
  /\ (forall p c input,
        scope (snd (Prog_exec p (initial c input))) <> undecided ->
        scope (snd (pol p c input)) = scope (snd (Prog_exec p (initial c input)))).
Proof.
  split.
  - intros p st Hok Hs. by apply Prog_exec_locked_any.
  - intros p c input Hs. unfold pol. apply run_locked; [exact Hs|done|apply initial_dict_ok].
Qed.

Lemma scope_locked_for_the_run_witness :
  scope (snd (pol mixed_on_later_record stdin_config [line_record "a"; line_record "b"]))
  = scope (snd (Prog_exec mixed_on_later_record
                  (initial stdin_config [line_record "a"; line_record "b"]))).
Proof.
  apply (proj2 scope_locked_for_the_run).
  vm_compute. discriminate.
Defined.

(** ** The first round's errors *)

Lemma load_unfold (n : string) (st : State) :
  load n st =
    match global_dict st !! n with
    | Some b => resolve n b (with_observed (rounds st) (reads st ++ [n]) (fired st)
                               (direct_reads st) st)
    | None => (Raised (NameError n),
               with_observed (rounds st) (reads st ++ [n]) (fired st) (direct_reads st) st)
    end.
Proof.
  unfold load, note_read, LazyItemDict_lookup, bind, modify. cbn.
  destruct (global_dict st !! n) as [b|]; [|done].
  by destruct (resolve n b _) as [[v|e] st'].
Qed.













(** ** How many rounds a run makes *)

Lemma rounds_loop_rounds (p : prog) (rs : list PolRecord) (fuel : nat) :
  forall st k r,
    cursor_at rs k r st -> scope st = record -> dict_ok (global_dict st) ->
    k <= length rs ->
    rounds st <= rounds (snd (rounds_loop fuel p st))
    /\ rounds (snd (rounds_loop fuel p st)) + k <= rounds st + length rs.
Proof.
  induction fuel as [|fuel IH]; intros st k r Hcur Hs Hok Hk; simpl; [lia|].
  destruct (proj2 Hcur Hs) as (Hall & Hit & Hval).
  destruct (RecordScoped_next_spec st) as (st1 & Ht & Hn).
  rewrite Hall, Hit in Hn. rewrite Hn.
  destruct Ht.
  destruct (rs !! k) as [r'|] eqn:Hl; simpl; [|lia].
  set (sA := with_cursor (Some r') (S k) st1) in *.
  assert (HcA : cursor_at rs (S k) r' sA).
  { split.
    - intros Hu. cbn in Hu. congruence.
    - intros _. subst sA. rewrite all_records_cursor. cbn.
      repeat split; congruence. }
  assert (HsA : scope sA = record) by (cbn; congruence).
  assert (HokA : dict_ok (global_dict sA)) by (cbn; congruence).
  pose proof (Prog_exec_cursor rs (S k) r' p sA HcA HokA) as Hc2.
  pose proof (Prog_exec_locked p sA HsA HokA) as Hs2.
  pose proof (Prog_exec_frame p sA HokA) as Hf. cbv zeta in Hf.
  destruct Hf as (_ & _ & Hr & _ & Hok2).
  apply lookup_lt_Some in Hl as Hlt.
  destruct (Prog_exec p sA) as [[v|e] st2] eqn:Hx; simpl in *.
  - destruct (IH (render v st2) (S k) r' Hc2 Hs2 Hok2 ltac:(lia)) as [H1 H2].
    cbn in H1, H2. lia.
  - lia.
Qed.

(** X4.  A run makes at least one round and at most one round per record
    (one round when there is no record), and the loop of rounds always comes
    to its end. *)
Theorem rounds_bounded_by_records (p : prog) (c : Config) (input : list PolRecord) :
  1 <= rounds (snd (pol p c input))
  /\ rounds (snd (pol p c input)) <= Nat.max 1 (length (all_records (initial c input)))
  /\ fst (pol p c input) <> Unfinished.
Proof.
  split; [|split; [|apply pol_total]].
  all: pose proof (Prog_exec_frame p (initial c input) (initial_dict_ok c input)) as Hf;
    cbv zeta in Hf; destruct Hf as (_ & _ & Hr1 & _ & Hok);
    destruct (Prog_exec p (initial c input)) as [[R0|e] st1] eqn:Hr; simpl in *.
  2,4: unfold pol, run; rewrite Hr; destruct e; simpl; lia.
  all: destruct (proj1 (proj2 Hok)) as [v Hv]; destruct (proj2 (proj2 Hok)) as [h Hh];
    destruct (decide (scope st1 = record)) as [Hs|Hs].
  2,4: destruct (run_single p (initial c input) R0 st1 Hr Hs Hok) as (w & h' & Hw & _ & Hm);
    unfold pol; destruct w; try (rewrite Hm; simpl; lia);
    destruct Hm as (_ & -> & _); lia.
  all: unfold pol, run; rewrite Hr, (bool_decide_true _ Hs), (getitem_plain _ _ _ Hv);
    destruct v; try (simpl; lia);
    rewrite (getitem_plain _ _ _ Hv), (get_plain _ _ _ Hh); cbv zeta; cbn [snd].
  all: unfold print_result; cbv zeta;
    destruct (all_records (initial c input) !! 0) as [r1|] eqn:H0.
  1,3: pose proof (first_round_record p c input R0 st1 r1 Hr H0) as Hcur;
    apply lookup_lt_Some in H0;
    assert (Hcur' : cursor_at (all_records (initial c input)) 1 r1
                      (render R0 (note_call c0 (Chain R0) h st1)))
      by (destruct Hcur as [Hc1 Hc2]; split; intros Hx; [apply Hc1|apply Hc2]; exact Hx);
    destruct (rounds_loop_rounds p (all_records (initial c input))
                (S (ahead (note_call c0 (Chain R0) h st1)))
                (render R0 (note_call c0 (Chain R0) h st1)) 1 r1 Hcur' Hs Hok
                ltac:(lia)) as [H1 H2];
    change (rounds (render R0 (note_call c0 (Chain R0) h st1))) with (rounds st1) in H1, H2;
    lia.
  all: assert (Hnil : all_records (initial c input) = [])
      by (destruct (all_records (initial c input)); [done|discriminate]);
    pose proof (Prog_exec_empty p (initial c input) Hnil (initial_dict_ok c input)) as He;
    rewrite Hr in He; cbn [snd] in He;
    destruct (rounds_loop_empty p (ahead (note_call c0 (Chain R0) h st1))
                (render R0 (note_call c0 (Chain R0) h st1)) He) as (st' & -> & Ht);
    destruct Ht as [_ _ _ _ _ _ _ Hrd _ _ _ _ _];
    change (rounds (render R0 (note_call c0 (Chain R0) h st1))) with (rounds st1) in Hrd;
    cbn [snd]; rewrite Hrd, ?Hnil; simpl; lia.
Qed.

(** ** Input from a named file *)

Lemma from_file_exec (rs : list PolRecord) (p : prog) :
  holds (fun st => from_file rs st /\ dict_ok (global_dict st)) never (exec p).
Proof.
  apply exec_keeps; unfold from_file.
  - intros n st H. exact H.
  - intros st st' H []. rewrite touch_cfg0, touch_all0. exact H.
  - intros dd st H. exact H.
  - intros s st H _. destruct (conflict st s); [left|]; exact H.
  - intros n st [Hf Ha] _ _ _. unfold after_contents, get_contents.
    destruct (input_file (cfg st)) eqn:E; [|by destruct Hf]. cbn. rewrite E.
    split; [done|exact Ha].
  - intros st H. rv_cases st.
    + left. exact H.
    + exact H.
    + rewrite all_records_cursor, touch_cfg0, touch_all0. exact H.
    + left. rewrite touch_cfg0, touch_all0. exact H.
  - right. by intros e st [].
Qed.

(** X5.  Input from a named file is never used up: whatever the program
    reads, [file] and [contents] included, and however the run ends, the
    records that [record_seq] stands for at the end of the run (those in its
    buffer and those its producer still has to yield) are the records of the
    file. *)
Theorem named_file_records_intact (p : prog) (c : Config) (input : list PolRecord) :
  input_file c <> None ->
  all_records (snd (pol p c input)) = file_data c.
Proof.
  intros Hf. unfold pol.
  apply (run_keeps p (from_file (file_data c))).
  - intros st HI Hok. unfold Prog_exec, bind, modify.
    set (st0 := with_observed _ _ _ _ _).
    pose proof (from_file_exec (file_data c) p st0 (conj HI Hok)) as H.
    destruct (exec p st0) as [[v|e] st']; simpl; [tauto|].
    destruct H as [H|[]]. tauto.
  - unfold from_file. intros st st' H []. rewrite touch_cfg0, touch_all0. exact H.
  - intros v i st H. exact H.
  - intros cs o st H. exact H.
  - split; [exact Hf|]. unfold all_records, initial, pending. cbn.
    destruct (input_file c); [done|by destruct Hf].
  - apply initial_dict_ok.
Qed.

Lemma named_file_records_intact_witness :
  all_records
    (snd (pol file_then_count
            (mkConfig (Some "data.txt") [line_record "a"; line_record "b"] false false
               AutoPrinter) []))
  = [line_record "a"; line_record "b"].
Proof.
  apply (named_file_records_intact file_then_count
           (mkConfig (Some "data.txt") [line_record "a"; line_record "b"] false false
              AutoPrinter) []).
  discriminate.
Defined.

(** ** The sequence of lines *)

Lemma fill_prefix {P A : Type} (pull : P -> option A * P) (n : nat) (buf : list A) (s : P) :
  buf `prefix_of` fst (LazySequence.fill pull n buf s).
Proof.
  apply (fill_preserves pull (fun q => buf `prefix_of` fst q)); simpl; auto.
  intros b x a x' _ H. by apply prefix_app_r.
Qed.

Lemma take_prefix {A : Type} (n : nat) (l k : list A) :
  l `prefix_of` k -> n <= length l -> take n k = take n l.
Proof. intros [r ->] Hn. by rewrite take_app_le. Qed.

Lemma lines_gen_some c s a s' :
  lines_gen c s = (Some a, s') -> lines_pending c s = a :: lines_pending c s'.
Proof.
  destruct s as [it [buf src]]. unfold lines_gen, lines_pending. simpl.
  destruct (iter_next_pend (gen_records c) (pending c) (gen_records_some c)
              (gen_records_none c) it buf src) as (H1 & H2 & H3 & _).
  destruct (LazySequence.iter_next (gen_records c) it buf src) as [[x i'] q].
  simpl in *. intros Heq. injection Heq as Hx <-. simpl. rewrite H3.
  destruct x as [r|]; [|discriminate]. simpl in Hx. injection Hx as <-.
  symmetry in H1. rewrite H1 in H2. subst i'.
  by rewrite (drop_S _ _ _ H1).
Qed.

Lemma lines_gen_none c s s' :
  lines_gen c s = (None, s') -> lines_pending c s = [] /\ lines_pending c s' = [].
Proof.
  destruct s as [it [buf src]]. unfold lines_gen, lines_pending. simpl.
  destruct (iter_next_pend (gen_records c) (pending c) (gen_records_some c)
              (gen_records_none c) it buf src) as (H1 & H2 & H3 & _).
  destruct (LazySequence.iter_next (gen_records c) it buf src) as [[x i'] q].
  simpl in *. intros Heq. injection Heq as Hx <-. simpl. rewrite H3.
  destruct x as [r|]; [discriminate|].
  symmetry in H1. rewrite H1 in H2. subst i'.
  apply lookup_ge_None in H1. by rewrite drop_ge.
Qed.

Lemma lines_fill_in_step c (n : nat) (lbuf : list string)
    (s : nat * (list PolRecord * (list PolRecord * GenState))) :
  fst s <= length (fst (snd s)) ->
  lbuf = str <$> take (fst s) (fst (snd s)) ->
  let r := LazySequence.fill (lines_gen c) n lbuf s in
  fst (snd s) `prefix_of` fst (snd (snd r))
  /\ fst (snd r) <= length (fst (snd (snd r)))
  /\ fst r = str <$> take (fst (snd r)) (fst (snd (snd r))).
Proof.
  intros Hle Hbuf.
  apply (fill_preserves (lines_gen c)
           (fun r => fst (snd s) `prefix_of` fst (snd (snd r))
                     /\ fst (snd r) <= length (fst (snd (snd r)))
                     /\ fst r = str <$> take (fst (snd r)) (fst (snd (snd r))))); simpl; auto.
  - intros lb [it [buf src]] a s' Hp (Hpre & Hit & Hlb). simpl in *.
    unfold lines_gen, LazySequence.iter_next, LazySequence.getitem in Hp. simpl in Hp.
    pose proof (fill_prefix (gen_records c) (S it - length buf) buf src) as Hfp.
    destruct (LazySequence.fill (gen_records c) (S it - length buf) buf src) as [buf' src'].
    simpl in *. destruct (buf' !! it) as [r|] eqn:Hl; simpl in Hp; [|discriminate].
    injection Hp as <- <-. simpl.
    split; [by etrans|].
    apply lookup_lt_Some in Hl as Hlt. split; [lia|].
    rewrite (take_S_r _ _ _ Hl), fmap_app. simpl.
    by rewrite (take_prefix it buf buf' Hfp Hit), Hlb.
  - intros lb [it [buf src]] s' Hp (Hpre & Hit & Hlb). simpl in *.
    unfold lines_gen, LazySequence.iter_next, LazySequence.getitem in Hp. simpl in Hp.
    pose proof (fill_prefix (gen_records c) (S it - length buf) buf src) as Hfp.
    destruct (LazySequence.fill (gen_records c) (S it - length buf) buf src) as [buf' src'].
    simpl in *. destruct (buf' !! it) as [r|] eqn:Hl; simpl in Hp; [discriminate|].
    injection Hp as <-. simpl.
    split; [by etrans|].
    apply prefix_length in Hfp as Hlen. split; [lia|].
    by rewrite (take_prefix it buf buf' Hfp Hit).
Qed.

Lemma lines_whole (st : State) :
  lines_ok st ->
  lines_buf st ++ lines_pending (cfg st) (lines_it st, (seq_buf st, (stdin st, gen st)))
  = str <$> all_records st.
Proof.
  intros [Hb Hi]. unfold lines_pending, all_records. simpl. rewrite Hb.
  rewrite <- fmap_app. f_equal.
  rewrite <- (take_app_le _ (pending (cfg st) (stdin st, gen st))) by exact Hi.
  apply take_drop.
Qed.

Lemma lines_ok_put_seq (q : list PolRecord * (list PolRecord * GenState)) (st : State) :
  seq_buf st `prefix_of` fst q -> lines_ok st -> lines_ok (put_seq q st).
Proof.
  intros Hp [Hb Hi]. unfold lines_ok. cbn.
  apply prefix_length in Hp as Hlen.
  split; [by rewrite (take_prefix _ _ _ Hp Hi)|lia].
Qed.

Lemma lines_getitem_in_step (i : nat) (st : State) :
  lines_ok st ->
  fst (lines_getitem i st) = Ok (str <$> all_records st !! i)
  /\ lines_ok (snd (lines_getitem i st)).
Proof.
  intros Hok. unfold lines_getitem. cbv zeta. cbn [fst snd].
  destruct (getitem_pend (lines_gen (cfg st)) (lines_pending (cfg st))
              (lines_gen_some (cfg st)) (lines_gen_none (cfg st))
              i (lines_buf st) (lines_it st, (seq_buf st, (stdin st, gen st))))
    as (H1 & _).
  rewrite H1, (lines_whole st Hok), list_lookup_fmap. split; [done|].
  unfold LazySequence.getitem. cbn [snd].
  destruct Hok as [Hb Hi].
  destruct (lines_fill_in_step (cfg st) (S i - length (lines_buf st)) (lines_buf st)
              (lines_it st, (seq_buf st, (stdin st, gen st))) Hi Hb) as (_ & H2 & H3).
  split; cbn; [exact H3|exact H2].
Qed.

Lemma lines_all_in_step (st : State) :
  lines_ok st ->
  fst (lines_all st) = Ok (str <$> all_records st)
  /\ lines_ok (snd (lines_all st)).
Proof.
  intros Hok. unfold lines_all. cbv zeta. cbn [fst snd].
  set (n := S (length (seq_buf st) + length (pending (cfg st) (stdin st, gen st)))).
  pose proof (fill_all_pend (lines_gen (cfg st)) (lines_pending (cfg st))
                (lines_gen_some (cfg st)) (lines_gen_none (cfg st))
                n (lines_buf st) (lines_it st, (seq_buf st, (stdin st, gen st)))) as H1.
  rewrite H1, (lines_whole st Hok).
  2:{ unfold lines_pending, n. simpl. rewrite length_fmap, length_drop, length_app. lia. }
  split; [done|].
  destruct Hok as [Hb Hi].
  destruct (lines_fill_in_step (cfg st) n (lines_buf st)
              (lines_it st, (seq_buf st, (stdin st, gen st))) Hi Hb) as (_ & H2 & H3).
  split; cbn; [exact H3|exact H2].
Qed.

Lemma keeps_bind {A B} (I : State -> Prop) (c : M A) (k : A -> M B) :
  keeps I c -> (forall a, keeps I (k a)) -> keeps I (bind c k).
Proof.
  intros Hc Hk st HI. unfold bind. specialize (Hc st HI).
  destruct (c st) as [[a|e] st1]; [|exact Hc]. by apply Hk.
Qed.

Lemma keeps_ret {A} (I : State -> Prop) (a : A) : keeps I (ret a).
Proof. by intros st HI. Qed.

Lemma keeps_raise {A} (I : State -> Prop) (e : exn) : keeps I (@raise A e).
Proof. by intros st HI. Qed.

Lemma lines_ok_on_accessed (o : option Scope) : keeps lines_ok (on_accessed o).
Proof.
  intros st H. destruct o as [s|]; [|exact H].
  unfold on_accessed, bind, modify, set_scope. cbn.
  by destruct (_ && _).
Qed.

Lemma lines_ok_get_contents : keeps lines_ok get_contents.
Proof.
  intros st H. unfold get_contents. by destruct (input_file (cfg st)).
Qed.

Lemma lines_ok_record_seq_getitem (i : nat) : keeps lines_ok (record_seq_getitem i).
Proof.
  intros st H. unfold record_seq_getitem, LazySequence.getitem. cbn.
  apply lines_ok_put_seq; [|exact H]. apply fill_prefix.
Qed.

Lemma lines_ok_record_seq_all : keeps lines_ok record_seq_all.
Proof.
  intros st H. unfold record_seq_all. cbv zeta. cbn [snd].
  apply lines_ok_put_seq; [|exact H]. apply fill_prefix.
Qed.

Lemma lines_ok_next : keeps lines_ok RecordScoped.__next__.
Proof.
  intros st H. unfold RecordScoped.__next__, LazySequence.iter_next, LazySequence.getitem.
  cbn.
  pose proof (fill_prefix (gen_records (cfg st)) (S (rv_iter st) - length (seq_buf st))
                (seq_buf st) (stdin st, gen st)) as Hp.
  destruct (LazySequence.fill _ _ _ _) as [buf' src']. cbn in *.
  destruct (buf' !! rv_iter st); cbn;
    apply (lines_ok_put_seq (buf', src') st Hp H).
Qed.

Lemma lines_ok_call : keeps lines_ok RecordScoped.__call__.
Proof.
  unfold RecordScoped.__call__. apply keeps_bind; [apply lines_ok_on_accessed|].
  intros _ st H. destruct (rv_val st); [exact H|].
  revert st H. apply keeps_bind.
  - unfold RecordScoped._get_first_time.
    apply keeps_bind; [apply lines_ok_on_accessed|]. intros _.
    apply keeps_bind; [apply lines_ok_next|]. intros _ st H.
    by destruct (rv_val st).
  - intros r. apply keeps_bind; [by intros st H|]. intros _. apply keeps_ret.
Qed.

Lemma lines_ok_call_func (f : func) : keeps lines_ok (call_func f).
Proof.
  destruct f; simpl.
  - apply keeps_ret.
  - apply keeps_bind; [apply lines_ok_get_contents|]. intros s. apply keeps_ret.
  - intros st H. unfold get_dataframe. destruct (has_pandas (cfg st)); [|exact H].
    revert st H. apply keeps_bind; [apply lines_ok_record_seq_all|]. intros l. apply keeps_ret.
  - apply keeps_bind; [apply lines_ok_call|]. intros r. apply keeps_ret.
  - intros st H. unfold import_module. by destruct (_ || _).
Qed.

Lemma lines_ok_LazyItem_call (n : string) (it : LazyItem) : keeps lines_ok (LazyItem_call n it).
Proof.
  unfold LazyItem_call. apply keeps_bind; [apply lines_ok_on_accessed|]. intros _.
  assert (keeps lines_ok
            (let* v := call_func (li_func it) in
             (if li_cache it
              then store_item n (mkLazyItem (li_func it) (li_on_accessed it) true (Some v))
              else ret tt) ;; ret v)) as Hk.
  { apply keeps_bind; [apply lines_ok_call_func|]. intros v.
    apply keeps_bind; [|intros _; apply keeps_ret].
    destruct (li_cache it); [by intros st H|apply keeps_ret]. }
  destruct (li_cache it); [destruct (li_val it)|]; [apply keeps_ret|exact Hk|exact Hk].
Qed.

Lemma lines_ok_lookup (n : string) : keeps lines_ok (LazyItemDict_lookup n).
Proof.
  intros st H. unfold LazyItemDict_lookup.
  destruct (global_dict st !! n) as [b|]; [|exact H].
  revert st H. apply keeps_bind; [|intros v; apply keeps_ret].
  destruct b; simpl.
  - apply keeps_ret.
  - apply lines_ok_LazyItem_call.
  - apply keeps_bind; [apply lines_ok_call|]. intros r. apply keeps_ret.
Qed.

Lemma lines_ok_subscript (v : value) (i : nat) : keeps lines_ok (subscript v i).
Proof.
  destruct v; simpl; try apply keeps_raise.
  - destruct (fields r !! i); [apply keeps_ret|apply keeps_raise].
  - apply keeps_bind; [apply lines_ok_record_seq_getitem|].
    intros [r|]; [apply keeps_ret|apply keeps_raise].
  - apply keeps_bind; [intros st H; by apply lines_getitem_in_step|].
    intros [s|]; [apply keeps_ret|apply keeps_raise].
Qed.

Lemma lines_ok_to_list (v : value) : keeps lines_ok (to_list v).
Proof.
  destruct v; simpl; try apply keeps_raise.
  - apply keeps_ret.
  - apply keeps_bind; [apply lines_ok_record_seq_all|]. intros l. apply keeps_ret.
  - apply keeps_bind; [intros st H; by apply lines_all_in_step|]. intros l. apply keeps_ret.
Qed.

Lemma lines_ok_exec (p : prog) : keeps lines_ok (exec p).
Proof.
  induction p as [v|e|n k IH|n v k IH|v i k IH|v k IH|body IHb k IHk]; simpl.
  - apply keeps_ret.
  - apply keeps_raise.
  - apply keeps_bind; [|exact IH].
    unfold load. apply keeps_bind; [by intros st H|]. intros _.
    apply keeps_bind; [apply lines_ok_lookup|].
    intros [v|]; [apply keeps_ret|apply keeps_raise].
  - apply keeps_bind; [by intros st H|]. intros _. exact IH.
  - apply keeps_bind; [apply lines_ok_subscript|exact IH].
  - apply keeps_bind; [apply lines_ok_to_list|exact IH].
  - intros st H. specialize (IHb st H).
    destruct (exec body st) as [[v|e] st']; simpl in *; [by apply IHk|].
    destruct (is_StopIteration e); [by apply IHk|exact IHb].
Qed.

Lemma lines_ok_Prog_exec (p : prog) : keeps lines_ok (Prog_exec p).
Proof.
  unfold Prog_exec. apply keeps_bind; [by intros st H|]. intros _. apply lines_ok_exec.
Qed.

Lemma lines_ok_rounds_loop (p : prog) (fuel : nat) (st : State) :
  lines_ok st -> lines_ok (snd (rounds_loop fuel p st)).
Proof.
  revert st. induction fuel as [|fuel IH]; intros st H; simpl; [exact H|].
  pose proof (lines_ok_next st H) as H1.
  destruct (RecordScoped.__next__ st) as [[r|e] st1]; simpl in *.
  - pose proof (lines_ok_Prog_exec p st1 H1) as H2.
    destruct (Prog_exec p st1) as [[v|e] st2]; simpl in *; [|exact H2].
    apply IH. exact H2.
  - by destruct (is_StopIteration e).
Qed.

(** X7.  [lines] is in step with [records] all through a run.  The sequence
    of lines starts in step with [record_seq]; every round of any program
    and every round the printer drives afterwards leaves it in step; and
    whenever it is in step, [lines[i]] is the raw text of [records[i]] (an
    IndexError beyond the last record) and [list(lines)] is the raw text of
    every record of the input, in order, whatever was read before through
    either sequence or through the cursor. *)
Theorem lines_in_step_with_records :
  (forall c input, lines_ok (initial c input))
  /\ (forall p st, lines_ok st -> lines_ok (snd (Prog_exec p st)))
  /\ (forall fuel p st, lines_ok st -> lines_ok (snd (rounds_loop fuel p st)))
  /\ (forall i st, lines_ok st ->
        fst (subscript VLazySequence i st)
        = match all_records st !! i with
          | Some r => Ok (VStr (str r))
          | None => Raised IndexError
          end)
  /\ (forall st, lines_ok st ->
        fst (to_list VLazySequence st) = Ok ((fun r => VStr (str r)) <$> all_records st)).
Proof.
  split; [|split; [|split; [|split]]].
  - intros c input. split; [done|]. cbn. lia.
  - intros p st. apply lines_ok_Prog_exec.
  - intros fuel p st. apply lines_ok_rounds_loop.
  - intros i st H. cbn [subscript]. unfold bind.
    destruct (lines_getitem_in_step i st H) as [H1 _].
    destruct (lines_getitem i st) as [o st']. simpl in H1. subst o.
    by destruct (all_records st !! i).
  - intros st H. cbn [to_list]. unfold bind.
    destruct (lines_all_in_step st H) as [H1 _].
    destruct (lines_all st) as [o st']. simpl in H1. subst o. simpl.
    by rewrite <- list_fmap_compose.
Qed.

Lemma lines_in_step_with_records_witness :
  fst (subscript VLazySequence 1
         (snd (Prog_exec file_then_count
                 (initial stdin_config [line_record "a"; line_record "b"]))))
  = Raised IndexError.
Proof.
  destruct lines_in_step_with_records as (H0 & H1 & _ & H3 & _).
  etrans; [apply H3, H1, H0|]. vm_compute. reflexivity.
Defined.

(** ** Whole runs of simple programs *)

Lemma next_frame (st : State) :
  global_dict (snd (RecordScoped.__next__ st)) = global_dict st
  /\ scope (snd (RecordScoped.__next__ st)) = scope st
  /\ rounds (snd (RecordScoped.__next__ st)) = rounds st
  /\ (forall r, fst (RecordScoped.__next__ st) = Ok r ->
        rv_val (snd (RecordScoped.__next__ st)) = Some r).
Proof.
  destruct (RecordScoped_next_spec st) as (st1 & Ht & ->). destruct Ht.
  destruct (all_records st !! rv_iter st); cbn; repeat split; try congruence; discriminate.
Qed.

(** Reading the cursor outside the table scope: the current record, or the
    one the cursor fetches first. *)
Lemma cursor_read (st : State) :
  scope st <> table ->
  exists st',
    RecordScoped.__call__ st
    = (match rv_val st with
       | Some r => Ok r
       | None => match all_records st !! rv_iter st with
                 | Some r => Ok r
                 | None => Raised NoMoreRecords
                 end
       end, st')
    /\ global_dict st' = global_dict st /\ scope st' = record
    /\ rounds st' = rounds st
    /\ (forall r, fst (RecordScoped.__call__ st) = Ok r ->
          rv_val st' = Some r /\ all_records st' = all_records st).
Proof.
  intros Hs.
  destruct (RecordScoped_call_spec st) as (st2 & Ht & ->).
  assert (Hc : conflict st record = false).
  { destruct (scope st) eqn:E; [by apply conflict_undecided|by apply conflict_same|done]. }
  rewrite Hc. destruct Ht. cbn in *.
  change (all_records (with_scope record (fire record (with_scope record (fire record st)))))
    with (all_records st) in *.
  destruct (rv_val st) as [r|] eqn:Hv; [|destruct (all_records st !! rv_iter st) as [r|]];
    cbn; eexists; (split; [reflexivity|]); cbn;
    (split; [congruence|split; [congruence|split; [congruence|]]]);
    intros r0 Heq; try discriminate Heq; injection Heq as <-;
    (split; [congruence|]);
    first [reflexivity|rewrite all_records_cursor; congruence].
Qed.

(** A program that, in every round outside the table scope, returns [F r]
    for the record [r] under the cursor and leaves the dictionary as [pol]
    built it. *)
Section RecordProgram.
Variable c : Config.
Variable p : prog.
Variable F : PolRecord -> value.
Hypothesis p_round : forall st,
  global_dict st = initial_dict c -> scope st <> table ->
  exists st',
    Prog_exec p st
    = (match rv_val st with
       | Some r => Ok (F r)
       | None => match all_records st !! rv_iter st with
                 | Some r => Ok (F r)
                 | None => Raised NoMoreRecords
                 end
       end, st')
    /\ global_dict st' = global_dict st /\ scope st' = record
    /\ rounds st' = S (rounds st).

Lemma fan_out_record_program (st : State) (visited : list PolRecord)
    (vs : list value) (res : loop_res) (st' : State) :
  fan_out p st visited vs res st' ->
  global_dict st = initial_dict c -> scope st = record ->
  res = Finished /\ vs = F <$> visited /\ rounds st' = rounds st + length visited.
Proof.
  induction 1 as [st st' Hn|st r st1 e st2 Hn Hv Hx|st r st1 v st2 rs vs res st' Hn Hv Hx Hv2 _ IH];
    intros Hd Hs.
  - destruct (next_frame st) as (_ & _ & Hr & _). rewrite Hn in Hr. simpl in *.
    repeat split. lia.
  - destruct (next_frame st) as (Hd1 & Hs1 & _). rewrite Hn in Hd1, Hs1. simpl in *.
    destruct (p_round st1) as (st3 & Hx3 & _); [congruence|congruence|].
    rewrite Hv in Hx3. congruence.
  - destruct (next_frame st) as (Hd1 & Hs1 & Hr1 & _). rewrite Hn in Hd1, Hs1, Hr1. simpl in *.
    destruct (p_round st1) as (st3 & Hx3 & Hd3 & Hs3 & Hr3); [congruence|congruence|].
    rewrite Hv in Hx3. rewrite Hx in Hx3. injection Hx3 as -> ->.
    destruct IH as (-> & -> & Hr);
      [unfold render; cbn [global_dict with_printed]; congruence|exact Hs3|].
    cbn in Hr. repeat split. simpl. lia.
Qed.

Lemma record_program_run (input : list PolRecord) :
  exists st',
    pol p c input = (Returned, st')
    /\ stdout st' = F <$> all_records (initial c input)
    /\ rounds st' = Nat.max 1 (length (all_records (initial c input)))
    /\ print_calls st'
       = match all_records (initial c input) with
         | [] => []
         | r1 :: _ => [(output_format c, Chain (F r1), VNone)]
         end.
Proof.
  destruct (p_round (initial c input)) as (st1 & Hx & Hd & Hs & Hr);
    [reflexivity|discriminate|].
  pose proof (Prog_exec_frame p (initial c input) (initial_dict_ok c input)) as Hf.
  rewrite Hx in Hf. cbn in Hf. destruct Hf as (Hout & Hcalls & _ & Hcfg & Hok).
  cbn [rv_val rv_iter initial] in Hx.
  set (rs := all_records (initial c input)) in *.
  destruct (rs !! 0) as [r1|] eqn:H0.
  - pose proof (first_round_record p c input _ st1 r1 Hx H0) as Hcur.
    fold rs in Hcur.
    destruct (proj2 Hcur Hs) as (Hall & Hit & Hval).
    set (st0 := note_call (output_format c) (Chain (F r1)) VNone st1).
    assert (Hlen : 1 <= length rs) by (apply lookup_lt_Some in H0; lia).
    destruct (rounds_loop_fan_out p rs (S (ahead st0)) (render (F r1) st0) 1 r1)
      as (visited & vs & res & st' & H1 & H2 & H3 & H4 & H5 & H6 & H7);
      [exact Hcur|exact Hs|exact Hok|exact Hlen| |].
    { unfold ahead. subst st0. cbn. rewrite <- length_app.
      change (seq_buf st1 ++ pending (cfg st1) (stdin st1, gen st1)) with (all_records st1).
      rewrite Hall. lia. }
    destruct (fan_out_record_program _ _ _ _ _ H2) as (-> & -> & Hrounds);
      [exact Hd|exact Hs|].
    destruct (H7 eq_refl) as [Hvis _].
    exists st'. unfold pol, run. rewrite Hx, (bool_decide_true _ Hs).
    assert (Hp : global_dict st1 !! "printer" = Some (Plain (VPrinter (output_format c))))
      by (by rewrite Hd).
    assert (Hh : global_dict st1 !! "header" = Some (Plain VNone)) by (by rewrite Hd).
    rewrite !(getitem_plain _ _ _ Hp), (get_plain _ _ _ Hh). cbv zeta.
    unfold print_result. cbv zeta. fold st0. rewrite H1. cbn [fst snd of_loop].
    destruct rs as [|x rs'] eqn:Hrs; [simpl in Hlen; lia|].
    simpl in H0. injection H0 as ->. simpl in Hvis. subst visited.
    split; [done|]. split; [|split].
    + rewrite H3, drop_0. cbn. by rewrite Hout.
    + rewrite Hrounds, drop_0. cbn. rewrite Hr. cbn. lia.
    + rewrite H4. cbn. by rewrite Hcalls.
  - exists st1. unfold pol, run. rewrite Hx.
    apply lookup_ge_None in H0. destruct rs; [|simpl in H0; lia].
    cbn. by rewrite Hr.
Qed.
End RecordProgram.

(** X8.  A program that maps each record: [pol] makes one round per record
    (one, that finds no record, when the input is empty), the rounds see the
    records in input order, and what is written is [f] of each record, in
    that order; the printer bound by the output format is called once, with
    the lazy sequence that starts with the first result, and not at all on
    empty input. *)
Theorem map_record_prints_each_record (f : value -> value) (c : Config)
    (input : list PolRecord) :
  exists st',
    pol (map_record f) c input = (Returned, st')
    /\ stdout st' = (fun r => f (VRecord r)) <$> all_records (initial c input)
    /\ rounds st' = Nat.max 1 (length (all_records (initial c input)))
    /\ print_calls st'
       = match all_records (initial c input) with
         | [] => []
         | r1 :: _ => [(output_format c, Chain (f (VRecord r1)), VNone)]
         end.
Proof.
  apply (record_program_run c (map_record f) (fun r => f (VRecord r))).
  intros st Hd Hs. unfold Prog_exec, map_record, bind, modify. cbn [exec bind].
  unfold bind. rewrite load_unfold. cbn [global_dict with_observed]. rewrite Hd.
  change (initial_dict c !! "record") with (Some RecordVar).
  cbn [resolve]. unfold bind.
  match goal with |- context [RecordScoped.__call__ ?s] =>
    destruct (cursor_read s Hs) as (st' & -> & H1 & H2 & H3 & _) end.
  cbn in *. change (all_records (with_observed _ _ _ _ _)) with (all_records st).
  exists st'.
  destruct (rv_val st) as [r|]; [|destruct (all_records st !! rv_iter st) as [r|]];
    cbn; repeat split; congruence.
Qed.

(** X6.  [record], [fields] and [line] are three views of the one cursor: a
    program that reads all three gets, in each round, the same record twice
    and its raw text; reading them moves the cursor once per round, so that
    the run makes one round per record and writes one result per record, in
    input order, just as if one name had been read. *)
Theorem aliases_share_the_cursor (f : value -> value -> value -> value) (c : Config)
    (input : list PolRecord) :
  exists st',
    pol (read_aliases (fun a b l => Ret (f a b l))) c input = (Returned, st')
    /\ stdout st'
       = (fun r => f (VRecord r) (VRecord r) (VStr (str r))) <$> all_records (initial c input)
    /\ rounds st' = Nat.max 1 (length (all_records (initial c input)))
    /\ print_calls st'
       = match all_records (initial c input) with
         | [] => []
         | r1 :: _ =>
             [(output_format c, Chain (f (VRecord r1) (VRecord r1) (VStr (str r1))), VNone)]
         end.
Proof.
  apply (record_program_run c (read_aliases (fun a b l => Ret (f a b l)))
           (fun r => f (VRecord r) (VRecord r) (VStr (str r)))).
  intros st Hd Hs. unfold Prog_exec, read_aliases, bind, modify. cbn [exec bind].
  unfold bind. rewrite load_unfold. cbn [global_dict with_observed]. rewrite Hd.
  change (initial_dict c !! "record") with (Some RecordVar).
  cbn [resolve]. unfold bind.
  match goal with |- context [RecordScoped.__call__ ?s] =>
    destruct (cursor_read s Hs) as (st1 & Hx1 & Hd1 & Hs1 & Hr1 & Hv1); rewrite Hx1 in * end.
  cbn [rv_val rv_iter global_dict rounds with_observed] in *.
  change (all_records (with_observed _ _ _ _ _)) with (all_records st) in *.
  assert (Hnone : forall st', global_dict st' = initial_dict c -> scope st' = record ->
            rounds st' = S (rounds st) ->
            exists st'' : State,
              (Raised NoMoreRecords : res value, st') = (Raised NoMoreRecords, st'')
              /\ global_dict st'' = initial_dict c /\ scope st'' = record
              /\ rounds st'' = S (rounds st)).
  { intros st' ? ? ?. exists st'. repeat split; congruence. }
  assert (Hsome : forall r, rv_val st1 = Some r ->
            exists st'' : State,
              (let (r0, s) := load "fields" st1 in
               match r0 with
               | Ok b =>
                   let (r1, s1) := load "line" s in
                   match r1 with
                   | Ok l => exec (Ret (f (VRecord r) b l)) s1
                   | Raised e => (Raised e, s1)
                   end
               | Raised e => (Raised e, s)
               end) = (Ok (f (VRecord r) (VRecord r) (VStr (str r))), st'')
              /\ global_dict st'' = initial_dict c /\ scope st'' = record
              /\ rounds st'' = S (rounds st)).
  { intros r Hv. rewrite load_unfold, Hd1, Hd.
    change (initial_dict c !! "fields") with (Some RecordVar).
    cbn [resolve]. unfold bind.
    match goal with |- context [RecordScoped.__call__ ?s] =>
      destruct (cursor_read s) as (st2 & -> & Hd2 & Hs2 & Hr2 & Hv2); [cbn; congruence|] end.
    cbn [rv_val global_dict rounds with_observed] in *. rewrite Hv in *. cbn [fst] in Hv2.
    destruct (Hv2 r eq_refl) as [Hv2' _]. cbn [ret].
    rewrite load_unfold, Hd2, Hd1, Hd.
    change (initial_dict c !! "line") with (Some (Item (mkLazyItem FLine None false None))).
    cbn [resolve]. unfold LazyItem_call, bind.
    cbn [li_on_accessed li_cache li_val li_func on_accessed call_func ret]. unfold bind.
    match goal with |- context [RecordScoped.__call__ ?s] =>
      destruct (cursor_read s) as (st3 & -> & Hd3 & Hs3 & Hr3 & _); [cbn; congruence|] end.
    cbn [rv_val global_dict rounds with_observed] in *. rewrite Hv2'. cbn [exec ret].
    exists st3. repeat split; congruence. }
  cbn [fst] in Hv1.
  destruct (rv_val st) as [r|]; [|destruct (all_records st !! rv_iter st) as [r|]].
  - unfold ret at 1. cbv beta iota. apply (Hsome r). by apply Hv1.
  - unfold ret at 1. cbv beta iota. apply (Hsome r). by apply Hv1.
  - apply Hnone; congruence.
Qed.

Lemma conflict_table (st : State) : scope st <> record -> conflict st table = false.
Proof.
  intros H. destruct (scope st) eqn:Hs; [by apply conflict_undecided|done|by apply conflict_same].
Qed.

(** A run whose first round returns outside the record scope: the printer
    bound at that moment is called once, with the value itself, and writes
    its elements; the run returns. *)
Lemma run_single_output (p : prog) (st : State) (R0 : value) (st1 : State)
    (cls : PrinterClass) (h : value) :
  Prog_exec p st = (Ok R0, st1) ->
  scope st1 <> record ->
  global_dict st1 !! "printer" = Some (Plain (VPrinter cls)) ->
  global_dict st1 !! "header" = Some (Plain h) ->
  lines_ok st1 ->
  exists st',
    run p st = (Returned, st')
    /\ print_calls st' = print_calls st1 ++ [(cls, Single R0, h)]
    /\ stdout st' = stdout st1 ++ printed_elements R0 (all_records st1)
    /\ rounds st' = rounds st1 /\ scope st' = scope st1
    /\ all_records st' = all_records st1
    /\ direct_reads st' = direct_reads st1.
Proof.
  intros Hx Hs Hp Hh Hl. unfold run. rewrite Hx, (bool_decide_false _ Hs).
  rewrite !(getitem_plain _ _ _ Hp), (get_plain _ _ _ Hh). cbv zeta.
  unfold print_result. cbv zeta.
  set (st0 := note_call cls (Single R0) h st1).
  assert (Hdef : forall v, elements_of v st0 = (Ok [v], st0) ->
            exists st', (let (r, s) := elements_of v st0 in
                         match r with
                         | Ok l => (Finished, with_printed (print_calls s) (stdout s ++ l) s)
                         | Raised e => (Failed e, s)
                         end) = (Finished, st')
              /\ print_calls st' = print_calls st1 ++ [(cls, Single R0, h)]
              /\ stdout st' = stdout st1 ++ [v]
              /\ rounds st' = rounds st1 /\ scope st' = scope st1
              /\ all_records st' = all_records st1
              /\ direct_reads st' = direct_reads st1).
  { intros v ->. eexists. split; [reflexivity|]. by cbn. }
  assert (Hgoal : exists st',
            (let (r, s) := elements_of R0 st0 in
             match r with
             | Ok l => (Finished, with_printed (print_calls s) (stdout s ++ l) s)
             | Raised e => (Failed e, s)
             end) = (Finished, st')
            /\ print_calls st' = print_calls st1 ++ [(cls, Single R0, h)]
            /\ stdout st' = stdout st1 ++ printed_elements R0 (all_records st1)
            /\ rounds st' = rounds st1 /\ scope st' = scope st1
            /\ all_records st' = all_records st1
            /\ direct_reads st' = direct_reads st1).
  { destruct R0; try (apply Hdef; reflexivity).
    - cbn [elements_of to_list printed_elements]. unfold bind.
      destruct (record_seq_all_spec st0) as (st2 & -> & Ht & _). destruct Ht.
      eexists. split; [reflexivity|]. subst st0. cbn in *.
      change (all_records (note_call cls (Single VRecordSequence) h st1))
        with (all_records st1) in *.
      change (all_records (with_printed ?a ?b st2)) with (all_records st2).
      repeat split; congruence.
    - cbn [elements_of to_list printed_elements]. unfold bind.
      destruct (lines_all_in_step st0 Hl) as [Hr _].
      destruct (lines_all_spec st0) as (l & st2 & Heq & Ht). rewrite Heq in *.
      simpl in Hr. injection Hr as ->. destruct Ht.
      eexists. split; [reflexivity|]. subst st0. cbn in *.
      change (all_records (note_call cls (Single VLazySequence) h st1))
        with (all_records st1) in *.
      change (all_records (with_printed ?a ?b st2)) with (all_records st2).
      rewrite <- list_fmap_compose. unfold compose. repeat split; congruence. }
  destruct Hgoal as (st' & Heq & H). exists st'.
  destruct (elements_of R0 st0) as [[l|e] s]; [|discriminate Heq].
  injection Heq as <-. split; [reflexivity|exact H].
Qed.

Lemma resolve_table_value (n : string) (v : value) (st : State) :
  scope st <> record ->
  resolve n (table_scoped_value v) st = (Ok v, with_scope table (fire table st)).
Proof.
  intros Hs. unfold resolve, table_scoped_value, LazyItem_call, bind. cbn [li_on_accessed].
  by rewrite on_accessed_spec, (conflict_table st Hs).
Qed.

Lemma lines_ok_initial (c : Config) (input : list PolRecord) : lines_ok (initial c input).
Proof. split; [done|]. cbn. lia. Qed.

(** X9.  A program that walks [records]: one round is made, in table scope;
    the round gets every record of the input, in order, and the printer bound
    by the output format is called once with the value the round returned
    and writes it (its elements when it is one of the two sequences). *)
Theorem whole_table_single_round (f : list value -> value) (c : Config)
    (input : list PolRecord) :
  exists st',
    pol (whole_table f) c input = (Returned, st')
    /\ print_calls st'
       = [(output_format c, Single (f (VRecord <$> all_records (initial c input))), VNone)]
    /\ stdout st'
       = printed_elements (f (VRecord <$> all_records (initial c input)))
           (all_records (initial c input))
    /\ rounds st' = 1 /\ scope st' = table.
Proof.
  assert (Hx : exists st1,
    Prog_exec (whole_table f) (initial c input)
    = (Ok (f (VRecord <$> all_records (initial c input))), st1)
    /\ scope st1 = table /\ global_dict st1 = initial_dict c
    /\ all_records st1 = all_records (initial c input)).
  { unfold Prog_exec, whole_table, bind, modify. cbn [exec]. unfold bind.
    rewrite load_unfold.
    change (global_dict _ !! "records") with (Some (table_scoped_value VRecordSequence)).
    cbv beta iota. rewrite resolve_table_value by discriminate.
    cbn [to_list]. unfold bind.
    match goal with |- context [record_seq_all ?s] =>
      destruct (record_seq_all_spec s) as (st2 & -> & Ht & _) end.
    destruct Ht. exists st2. cbn [exec ret]. split; [reflexivity|].
    repeat split; (etrans; [eassumption|reflexivity]). }
  destruct Hx as (st1 & Hx & Hs & Hd & Hall).
  pose proof (Prog_exec_frame (whole_table f) (initial c input) (initial_dict_ok c input)) as Hf.
  rewrite Hx in Hf. cbn in Hf. destruct Hf as (Hout & Hcalls & Hr & _).
  pose proof (lines_ok_Prog_exec (whole_table f) (initial c input)
                (lines_ok_initial c input)) as Hl.
  rewrite Hx in Hl. cbn in Hl.
  destruct (run_single_output (whole_table f) (initial c input) _ st1 (output_format c) VNone Hx)
    as (st' & Hrun & H1 & H2 & H3 & H4 & _); [congruence|by rewrite Hd|by rewrite Hd|exact Hl|].
  exists st'. unfold pol. split; [exact Hrun|].
  rewrite H1, H2, H3, H4, Hcalls, Hout, Hall. by repeat split.
Qed.

(** A first round that returns outside the record scope, with the printer
    and the header that [pol] bound: the whole run. *)
Lemma pol_single (p : prog) (c : Config) (input : list PolRecord) (R0 : value) (st1 : State) :
  Prog_exec p (initial c input) = (Ok R0, st1) ->
  scope st1 <> record ->
  global_dict st1 !! "printer" = Some (Plain (VPrinter (output_format c))) ->
  global_dict st1 !! "header" = Some (Plain VNone) ->
  exists st',
    pol p c input = (Returned, st')
    /\ print_calls st' = [(output_format c, Single R0, VNone)]
    /\ stdout st' = printed_elements R0 (all_records st1)
    /\ rounds st' = 1 /\ scope st' = scope st1
    /\ all_records st' = all_records st1
    /\ direct_reads st' = direct_reads st1.
Proof.
  intros Hx Hs Hp Hh.
  pose proof (Prog_exec_frame p (initial c input) (initial_dict_ok c input)) as Hf.
  rewrite Hx in Hf. cbn in Hf. destruct Hf as (Hout & Hcalls & Hr & _).
  pose proof (lines_ok_Prog_exec p (initial c input) (lines_ok_initial c input)) as Hl.
  rewrite Hx in Hl. cbn in Hl.
  destruct (run_single_output p (initial c input) R0 st1 (output_format c) VNone
              Hx Hs Hp Hh Hl) as (st' & Hrun & H1 & H2 & H3 & H4 & H5 & H6).
  exists st'. unfold pol. split; [exact Hrun|].
  rewrite H1, H2, H3, Hcalls, Hout. by repeat split.
Qed.

(** The text that [get_contents] returns in a state. *)
Lemma resolve_contents (n : string) (st : State) :
  scope st <> record ->
  exists st',
    resolve n (table_scoped_lazy FGetContents) st
    = (Ok (VStr (read_text (match input_file (cfg st) with
                            | Some _ => file_data (cfg st)
                            | None => stdin st
                            end))), st')
    /\ scope st' = table
    /\ global_dict st'
       = <[n := Item (mkLazyItem FGetContents (Some table) true
                        (Some (VStr (read_text (match input_file (cfg st) with
                                                | Some _ => file_data (cfg st)
                                                | None => stdin st
                                                end)))))]> (global_dict st)
    /\ cfg st' = cfg st /\ seq_buf st' = seq_buf st /\ gen st' = gen st
    /\ stdin st' = (match input_file (cfg st) with Some _ => stdin st | None => [] end)
    /\ direct_reads st' = S (direct_reads st)
    /\ rv_val st' = rv_val st.
Proof.
  intros Hs. unfold resolve, table_scoped_lazy, LazyItem_call, bind.
  cbn [li_on_accessed li_cache li_val li_func].
  rewrite on_accessed_spec, (conflict_table st Hs).
  cbn [call_func]. unfold bind, get_contents.
  cbn [cfg with_scope fire with_observed].
  destruct (input_file (cfg st)); eexists; (split; [reflexivity|]); by cbn.
Qed.

Lemma resolve_cached (n : string) (f : func) (v : value) (st : State) :
  scope st <> record ->
  resolve n (Item (mkLazyItem f (Some table) true (Some v))) st
  = (Ok v, with_scope table (fire table st)).
Proof.
  intros Hs. unfold resolve, LazyItem_call, bind. cbn [li_on_accessed li_cache li_val].
  by rewrite on_accessed_spec, (conflict_table st Hs).
Qed.

(** X11.  [file] and [contents] read the input stream themselves.  A program
    that reads one of them and then walks [records] gets the whole text of
    the input, and then every record when the input is a named file, which
    is opened again, but no record at all when the input is standard input,
    which the read has used up; [get_contents] is called once, one round is
    made, in table scope. *)
Theorem contents_then_records (n : string) (f : value -> list value -> value)
    (c : Config) (input : list PolRecord) :
  n = "file" \/ n = "contents" ->
  exists st',
    pol (Get n (fun t => whole_table (f t))) c input = (Returned, st')
    /\ print_calls st'
       = [(output_format c,
           Single (f (VStr (read_text (all_records (initial c input))))
                     (VRecord <$> left_after_contents c (all_records (initial c input)))),
           VNone)]
    /\ rounds st' = 1 /\ scope st' = table /\ direct_reads st' = 1
    /\ all_records st' = left_after_contents c (all_records (initial c input)).
Proof.
  intros Hn.
  assert (Hx : exists st1,
    Prog_exec (Get n (fun t => whole_table (f t))) (initial c input)
    = (Ok (f (VStr (read_text (all_records (initial c input))))
             (VRecord <$> left_after_contents c (all_records (initial c input)))), st1)
    /\ scope st1 = table
    /\ global_dict st1 !! "printer" = Some (Plain (VPrinter (output_format c)))
    /\ global_dict st1 !! "header" = Some (Plain VNone)
    /\ all_records st1 = left_after_contents c (all_records (initial c input))
    /\ direct_reads st1 = 1).
  { unfold Prog_exec, whole_table, bind, modify. cbn [exec]. unfold bind.
    rewrite load_unfold. cbn [global_dict with_observed initial].
    assert (Hl : initial_dict c !! n = Some (table_scoped_lazy FGetContents))
      by (by destruct Hn as [->| ->]).
    rewrite Hl.
    match goal with |- context [resolve n _ ?s] =>
      destruct (resolve_contents n s) as (s1 & -> & Hs1 & Hd1 & Hc1 & Hb1 & Hg1 & Hi1 & Hr1 & _);
        [discriminate|] end.
    cbn [cfg with_observed stdin global_dict seq_buf gen direct_reads initial] in *.
    rewrite load_unfold, Hd1.
    assert (Hne : n <> "records") by (by destruct Hn as [->| ->]).
    rewrite (lookup_insert_ne _ _ _ _ Hne).
    change (initial_dict c !! "records") with (Some (table_scoped_value VRecordSequence)).
    cbv beta iota. rewrite resolve_table_value by (cbn; congruence).
    cbn [to_list]. unfold bind.
    match goal with |- context [record_seq_all ?s] =>
      destruct (record_seq_all_spec s) as (st2 & -> & Ht & _);
      assert (Hall : all_records s = left_after_contents c (all_records (initial c input)))
    end.
    { unfold all_records, left_after_contents, pending. cbn. rewrite Hc1, Hb1, Hg1, Hi1.
      cbn. by destruct (input_file c). }
    destruct Ht. exists st2. cbn [exec ret]. rewrite Hall.
    assert (Htext : (match input_file c with Some _ => file_data c | None => input end)
                    = all_records (initial c input)) by reflexivity.
    rewrite Htext. split; [reflexivity|].
    assert (Hp : n <> "printer") by (by destruct Hn as [->| ->]).
    assert (Hh : n <> "header") by (by destruct Hn as [->| ->]).
    cbn in *.
    repeat split; try congruence.
    - etrans; [by apply (f_equal (fun d => d !! "printer"))|].
      by rewrite Hd1, (lookup_insert_ne _ _ _ _ Hp).
    - etrans; [by apply (f_equal (fun d => d !! "header"))|].
      by rewrite Hd1, (lookup_insert_ne _ _ _ _ Hh). }
  destruct Hx as (st1 & Hx & Hs & Hp & Hh & Hall & Hdr).
  destruct (pol_single _ c input _ st1 Hx) as (st' & Hrun & H1 & _ & H3 & H4 & H5 & H6);
    [congruence|exact Hp|exact Hh|].
  exists st'. split; [exact Hrun|]. repeat split; congruence.
Qed.

Lemma contents_then_records_witness :
  exists st',
    pol (Get "file" (fun t => whole_table (fun _ => t))) stdin_config [line_record "a"]
    = (Returned, st')
    /\ print_calls st'
       = [(output_format stdin_config,
           Single (VStr (read_text (all_records (initial stdin_config [line_record "a"])))),
           VNone)]
    /\ rounds st' = 1 /\ scope st' = table /\ direct_reads st' = 1
    /\ all_records st'
       = left_after_contents stdin_config
           (all_records (initial stdin_config [line_record "a"])).
Proof.
  apply (contents_then_records "file" (fun t _ => t) stdin_config [line_record "a"]).
  by left.
Defined.

(** X12.  [file] and [contents] are two lazy items, each with a cache of its
    own.  When a name is read a second time the cached text comes back and
    the stream is not touched; the other name calls [get_contents] again,
    and gets the same text from a named file, but the empty text from
    standard input, which the first read has used up. *)
Theorem contents_cached_per_name (n m : string) (f : value -> value -> value -> value)
    (c : Config) (input : list PolRecord) :
  (n = "file" /\ m = "contents") \/ (n = "contents" /\ m = "file") ->
  exists st',
    pol (Get n (fun a => Get n (fun b => Get m (fun d => Ret (f a b d))))) c input
    = (Returned, st')
    /\ print_calls st'
       = [(output_format c,
           Single (f (VStr (read_text (all_records (initial c input))))
                     (VStr (read_text (all_records (initial c input))))
                     (VStr (read_text
                              (left_after_contents c (all_records (initial c input)))))),
           VNone)]
    /\ rounds st' = 1 /\ scope st' = table /\ direct_reads st' = 2.
Proof.
  intros Hnm.
  assert (Hn : initial_dict c !! n = Some (table_scoped_lazy FGetContents))
    by (by destruct Hnm as [[-> ->]|[-> ->]]).
  assert (Hm : initial_dict c !! m = Some (table_scoped_lazy FGetContents))
    by (by destruct Hnm as [[-> ->]|[-> ->]]).
  assert (Hne : n <> m) by (by destruct Hnm as [[-> ->]|[-> ->]]).
  assert (Hp : n <> "printer" /\ m <> "printer") by (by destruct Hnm as [[-> ->]|[-> ->]]).
  assert (Hh : n <> "header" /\ m <> "header") by (by destruct Hnm as [[-> ->]|[-> ->]]).
  clear Hnm.
  assert (Hx : exists st1,
    Prog_exec (Get n (fun a => Get n (fun b => Get m (fun d => Ret (f a b d)))))
      (initial c input)
    = (Ok (f (VStr (read_text (all_records (initial c input))))
             (VStr (read_text (all_records (initial c input))))
             (VStr (read_text (left_after_contents c (all_records (initial c input)))))),
       st1)
    /\ scope st1 = table
    /\ global_dict st1 !! "printer" = Some (Plain (VPrinter (output_format c)))
    /\ global_dict st1 !! "header" = Some (Plain VNone)
    /\ direct_reads st1 = 2).
  { unfold Prog_exec, bind, modify. cbn [exec]. unfold bind.
    rewrite load_unfold. cbn [global_dict with_observed initial]. rewrite Hn.
    match goal with |- context [resolve n _ ?s] =>
      destruct (resolve_contents n s) as (s1 & -> & Hs1 & Hd1 & Hc1 & Hb1 & Hg1 & Hi1 & Hr1 & _);
        [discriminate|] end.
    cbn [cfg with_observed stdin global_dict seq_buf gen direct_reads initial] in *.
    rewrite load_unfold, Hd1, lookup_insert_eq.
    rewrite resolve_cached by (cbn; congruence).
    rewrite load_unfold. cbn [global_dict with_scope fire with_observed].
    rewrite Hd1, (lookup_insert_ne _ _ _ _ Hne), Hm.
    match goal with |- context [resolve m _ ?s] =>
      destruct (resolve_contents m s) as (s2 & -> & Hs2 & Hd2 & Hc2 & Hb2 & Hg2 & Hi2 & Hr2 & _);
        [cbn; congruence|] end.
    cbn [cfg with_observed with_scope fire stdin global_dict seq_buf gen direct_reads] in *.
    rewrite Hc1, Hi1. exists s2. cbn [exec ret].
    assert (Htext : (match input_file c with Some _ => file_data c | None => input end)
                    = all_records (initial c input)) by reflexivity.
    assert (Hleft : (match input_file c with
                     | Some _ => file_data c
                     | None => match input_file c with Some _ => input | None => [] end
                     end) = left_after_contents c (all_records (initial c input))).
    { unfold left_after_contents, all_records, pending. cbn. by destruct (input_file c). }
    rewrite Htext, Hleft. split; [reflexivity|].
    split; [exact Hs2|]. rewrite Hd2, Hd1, Hr2, Hr1.
    rewrite !(lookup_insert_ne _ m) by tauto.
    rewrite !(lookup_insert_ne _ n) by tauto.
    by repeat split. }
  destruct Hx as (st1 & Hx & Hs & Hp1 & Hh1 & Hdr).
  destruct (pol_single _ c input _ st1 Hx) as (st' & Hrun & H1 & _ & H3 & H4 & H5 & H6);
    [congruence|exact Hp1|exact Hh1|].
  exists st'. split; [exact Hrun|]. repeat split; congruence.
Qed.

Lemma contents_cached_per_name_witness :
  exists st',
    pol (Get "file" (fun a => Get "file" (fun b => Get "contents" (fun d =>
           Ret (if bool_decide (a = b) then d else VNone)))))
      stdin_config [line_record "a"]
    = (Returned, st')
    /\ print_calls st'
       = [(output_format stdin_config,
           Single (if bool_decide
                        (VStr (read_text (all_records (initial stdin_config [line_record "a"])))
                         = VStr (read_text
                                   (all_records (initial stdin_config [line_record "a"]))))
                   then VStr (read_text
                                (left_after_contents stdin_config
                                   (all_records (initial stdin_config [line_record "a"]))))
                   else VNone),
           VNone)]
    /\ rounds st' = 1 /\ scope st' = table /\ direct_reads st' = 2.
Proof.
  apply (contents_cached_per_name "file" "contents"
           (fun a b d => if bool_decide (a = b) then d else VNone)
           stdin_config [line_record "a"]).
  left. by split.
Defined.

(** X10.  [df] needs pandas.  A program that reads [df]: the table scope is
    locked first; without pandas the import fails, the run ends with a
    [UserError] that carries the [ModuleNotFoundError], and nothing is
    printed; with pandas the data frame is built from every record of the
    input and the printer is called once, with what the round returned. *)
Theorem df_needs_pandas (f : value -> value) (c : Config) (input : list PolRecord) :
  exists st',
    pol (Get "df" (fun v => Ret (f v))) c input
    = (if has_pandas c then Returned
       else Fatal (UserError (ModuleNotFoundError "pandas")), st')
    /\ print_calls st'
       = (if has_pandas c
          then [(output_format c, Single (f (VDataFrame (all_records (initial c input)))),
                 VNone)]
          else [])
    /\ stdout st'
       = (if has_pandas c
          then printed_elements (f (VDataFrame (all_records (initial c input))))
                 (all_records (initial c input))
          else [])
    /\ rounds st' = 1 /\ scope st' = table.
Proof.
  destruct (has_pandas c) eqn:Hpd.
  - assert (Hx : exists st1,
      Prog_exec (Get "df" (fun v => Ret (f v))) (initial c input)
      = (Ok (f (VDataFrame (all_records (initial c input)))), st1)
      /\ scope st1 = table
      /\ global_dict st1 !! "printer" = Some (Plain (VPrinter (output_format c)))
      /\ global_dict st1 !! "header" = Some (Plain VNone)
      /\ all_records st1 = all_records (initial c input)).
    { unfold Prog_exec, bind, modify. cbn [exec]. unfold bind.
      rewrite load_unfold. cbn [global_dict with_observed initial].
      change (initial_dict c !! "df") with (Some (table_scoped_lazy FGetDataframe)).
      cbv beta iota.
      unfold resolve, table_scoped_lazy, LazyItem_call, bind.
      cbn [li_on_accessed li_cache li_val li_func].
      rewrite on_accessed_spec, conflict_table by discriminate.
      cbn [call_func]. unfold get_dataframe. cbn [cfg with_scope fire with_observed initial].
      rewrite Hpd. unfold bind.
      match goal with |- context [record_seq_all ?s] =>
        destruct (record_seq_all_spec s) as (st2 & -> & Ht & _) end.
      destruct Ht. eexists. cbn [ret store_item modify exec]. split; [reflexivity|].
      cbn [scope global_dict with_global_dict].
      change (all_records (with_global_dict ?d st2)) with (all_records st2).
      repeat split; try (etrans; [eassumption|reflexivity]).
      all: etrans; [apply lookup_insert_ne; discriminate|].
      all: etrans; [by apply (f_equal (fun d => d !! _))|reflexivity]. }
    destruct Hx as (st1 & Hx & Hs & Hp1 & Hh1 & Hall).
    destruct (pol_single _ c input _ st1 Hx) as (st' & Hrun & H1 & H2 & H3 & H4 & H5 & H6);
      [congruence|exact Hp1|exact Hh1|].
    exists st'. split; [exact Hrun|]. repeat split; congruence.
  - assert (Hx : exists st1,
      Prog_exec (Get "df" (fun v => Ret (f v))) (initial c input)
      = (Raised (ModuleNotFoundError "pandas"), st1) /\ scope st1 = table).
    { unfold Prog_exec, bind, modify. cbn [exec]. unfold bind.
      rewrite load_unfold. cbn [global_dict with_observed initial].
      change (initial_dict c !! "df") with (Some (table_scoped_lazy FGetDataframe)).
      cbv beta iota.
      unfold resolve, table_scoped_lazy, LazyItem_call, bind.
      cbn [li_on_accessed li_cache li_val li_func].
      rewrite on_accessed_spec, conflict_table by discriminate.
      cbn [call_func]. unfold get_dataframe. cbn [cfg with_scope fire with_observed initial].
      rewrite Hpd. eexists. split; reflexivity. }
    destruct Hx as (st1 & Hx & Hs).
    pose proof (Prog_exec_frame (Get "df" (fun v => Ret (f v))) (initial c input)
                  (initial_dict_ok c input)) as Hf.
    rewrite Hx in Hf. cbn in Hf. destruct Hf as (Hout & Hcalls & Hr & _).
    exists st1. unfold pol, run. rewrite Hx. by repeat split.
Qed.

(** X13.  The general names ([filename], [re], [Header], the printer classes
    and the like) are bound to plain values: a program that reads one of
    them gets the value that [pol] bound, the scope stays undecided, one
    round is made and the printer is called once with what it returned. *)
Theorem plain_names_leave_scope_undecided (n : string) (v : value) (f : value -> value)
    (c : Config) (input : list PolRecord) :
  initial_dict c !! n = Some (Plain v) ->
  exists st',
    pol (Get n (fun x => Ret (f x))) c input = (Returned, st')
    /\ print_calls st' = [(output_format c, Single (f v), VNone)]
    /\ stdout st' = printed_elements (f v) (all_records (initial c input))
    /\ rounds st' = 1 /\ scope st' = undecided.
Proof.
  intros Hn.
  assert (Hx : exists st1,
    Prog_exec (Get n (fun x => Ret (f x))) (initial c input) = (Ok (f v), st1)
    /\ scope st1 = undecided /\ global_dict st1 = initial_dict c
    /\ all_records st1 = all_records (initial c input)).
  { unfold Prog_exec, bind, modify. cbn [exec]. unfold bind.
    rewrite load_unfold. cbn [global_dict with_observed initial]. rewrite Hn.
    eexists. split; [reflexivity|]. by repeat split. }
  destruct Hx as (st1 & Hx & Hs & Hd & Hall).
  destruct (pol_single _ c input _ st1 Hx) as (st' & Hrun & H1 & H2 & H3 & H4 & H5 & H6);
    [congruence|by rewrite Hd|by rewrite Hd|].
  exists st'. split; [exact Hrun|]. repeat split; congruence.
Qed.

Lemma plain_names_leave_scope_undecided_witness :
  exists st',
    pol (Get "filename" (fun x => Ret x))
      (mkConfig (Some "data.txt") [line_record "a"] false false AutoPrinter) []
    = (Returned, st')
    /\ print_calls st' = [(AutoPrinter, Single (VStr "data.txt"), VNone)]
    /\ stdout st' = [VStr "data.txt"]
    /\ rounds st' = 1 /\ scope st' = undecided.
Proof.
  apply (plain_names_leave_scope_undecided "filename" (VStr "data.txt") (fun x => x)
           (mkConfig (Some "data.txt") [line_record "a"] false false AutoPrinter) []).
  reflexivity.
Defined.

(** X14.  [pd] and [np] import their module when they are read, and report
    no scope: with the module installed the program gets it, the scope stays
    undecided and the result is printed; without it the run ends with a
    [UserError] that carries the [ModuleNotFoundError], and nothing is
    printed. *)
Theorem modules_imported_on_demand (n m : string) (installed : bool) (f : value -> value)
    (c : Config) (input : list PolRecord) :
  (n = "pd" /\ m = "pandas" /\ installed = has_pandas c)
  \/ (n = "np" /\ m = "numpy" /\ installed = has_numpy c) ->
  exists st',
    pol (Get n (fun v => Ret (f v))) c input
    = (if installed then Returned else Fatal (UserError (ModuleNotFoundError m)), st')
    /\ print_calls st'
       = (if installed then [(output_format c, Single (f (VModule m)), VNone)] else [])
    /\ rounds st' = 1 /\ scope st' = undecided.
Proof.
  intros Hnm.
  assert (Hl : initial_dict c !! n = Some (Item (mkLazyItem (FImport m) None true None)))
    by (by destruct Hnm as [(-> & -> & _)|(-> & -> & _)]).
  assert (Hi : forall st, cfg st = c ->
            import_module m st
            = (if installed then Ok (VModule m) else Raised (ModuleNotFoundError m), st)).
  { intros st Hc. unfold import_module. rewrite Hc.
    destruct Hnm as [(_ & -> & ->)|(_ & -> & ->)]; cbn.
    - by destruct (has_pandas c).
    - by destruct (has_numpy c). }
  assert (Hp : n <> "printer" /\ n <> "header")
    by (by destruct Hnm as [(-> & _)|(-> & _)]).
  clear Hnm.
  assert (Hx : exists st1,
    Prog_exec (Get n (fun v => Ret (f v))) (initial c input)
    = (if installed then Ok (f (VModule m)) else Raised (ModuleNotFoundError m), st1)
    /\ scope st1 = undecided
    /\ global_dict st1 !! "printer" = Some (Plain (VPrinter (output_format c)))
    /\ global_dict st1 !! "header" = Some (Plain VNone)).
  { unfold Prog_exec, bind, modify. cbn [exec]. unfold bind.
    rewrite load_unfold. cbn [global_dict with_observed initial]. rewrite Hl.
    unfold resolve, LazyItem_call, bind.
    cbn [li_on_accessed li_cache li_val li_func on_accessed ret call_func].
    rewrite Hi by reflexivity.
    destruct installed; eexists; (split; [reflexivity|]); cbn [scope global_dict
      store_item modify with_global_dict with_observed initial exec ret snd fst].
    - rewrite !lookup_insert_ne by (intros ?; subst; tauto). by repeat split.
    - by repeat split. }
  destruct Hx as (st1 & Hx & Hs & Hp1 & Hh1).
  destruct installed.
  - destruct (pol_single _ c input _ st1 Hx) as (st' & Hrun & H1 & H2 & H3 & H4 & H5 & H6);
      [congruence|exact Hp1|exact Hh1|].
    exists st'. split; [exact Hrun|]. repeat split; congruence.
  - pose proof (Prog_exec_frame (Get n (fun v => Ret (f v))) (initial c input)
                  (initial_dict_ok c input)) as Hf.
    rewrite Hx in Hf. cbn in Hf. destruct Hf as (Hout & Hcalls & Hr & _).
    exists st1. unfold pol, run. rewrite Hx. by repeat split.
Qed.

Lemma modules_imported_on_demand_witness :
  exists st',
    pol (Get "np" (fun v => Ret v)) stdin_config [line_record "a"]
    = (Fatal (UserError (ModuleNotFoundError "numpy")), st')
    /\ print_calls st' = []
    /\ rounds st' = 1 /\ scope st' = undecided.
Proof.
  apply (modules_imported_on_demand "np" "numpy" false (fun v => v) stdin_config
           [line_record "a"]).
  right. by repeat split.
Defined.

(** ** What a run never does *)

(** X15.  Whatever the program, a run calls [print_result] at most once, and
    nothing is written unless a printer was called. *)
Theorem printer_called_at_most_once (p : prog) (c : Config) (input : list PolRecord) :
  length (print_calls (snd (pol p c input))) <= 1
  /\ (print_calls (snd (pol p c input)) = [] -> stdout (snd (pol p c input)) = []).
Proof.
  pose proof (Prog_exec_frame p (initial c input) (initial_dict_ok c input)) as Hf.
  cbv zeta in Hf. destruct Hf as (Hout & Hcalls & _ & _ & Hok).
  unfold pol, run.
  destruct (Prog_exec p (initial c input)) as [[R0|e] st1]; simpl in *.
  2:{ destruct e; simpl; rewrite Hcalls, Hout; simpl; (split; [lia|done]). }
  destruct (proj1 (proj2 Hok)) as [v Hv]. destruct (proj2 (proj2 Hok)) as [h Hh].
  rewrite (getitem_plain _ _ _ Hv).
  destruct v; try (simpl; rewrite Hcalls, Hout; simpl; (split; [lia|done])).
  rewrite (getitem_plain _ _ _ Hv), (get_plain _ _ _ Hh). cbv zeta. cbn [snd].
  unfold print_result. cbv zeta.
  destruct (bool_decide (scope st1 = record)).
  - rewrite rounds_loop_calls by exact Hok. cbn. rewrite Hcalls. simpl.
    split; [lia|discriminate].
  - pose proof (elements_of_frame R0 (note_call c0 (Single R0) h st1) Hok) as He.
    cbv zeta in He. destruct He as (_ & He & _).
    destruct (elements_of R0 _) as [[l|e] st']; simpl in *;
      rewrite He, Hcalls; simpl; (split; [lia|discriminate]).
Qed.

(** ** The end of the records *)

(** X16.  The end of the records is final.  When [__next__] raises
    [NoMoreRecords], the cursor keeps its position and the record it held,
    no record is lost, and every further [__next__] raises [NoMoreRecords]
    again. *)
Theorem cursor_exhaustion_is_final (st : State) :
  fst (RecordScoped.__next__ st) = Raised NoMoreRecords ->
  rv_val (snd (RecordScoped.__next__ st)) = rv_val st
  /\ rv_iter (snd (RecordScoped.__next__ st)) = rv_iter st
  /\ all_records (snd (RecordScoped.__next__ st)) = all_records st
  /\ length (all_records st) <= rv_iter st
  /\ fst (RecordScoped.__next__ (snd (RecordScoped.__next__ st))) = Raised NoMoreRecords.
Proof.
  destruct (RecordScoped_next_spec st) as (st1 & Ht & ->).
  destruct (all_records st !! rv_iter st) as [r|] eqn:Hl; [discriminate|].
  intros _. cbn [fst snd].
  destruct (RecordScoped_next_spec st1) as (st2 & _ & ->).
  destruct Ht as [? Hv Hi ? ? ? ? ? ? ? ? Ha ?].
  rewrite Ha, Hi, Hl. apply lookup_ge_None in Hl. by repeat split.
Qed.

Lemma cursor_exhaustion_is_final_witness :
  fst (RecordScoped.__next__
         (snd (RecordScoped.__next__ (initial stdin_config [])))) = Raised NoMoreRecords.
Proof.
  apply (cursor_exhaustion_is_final (initial stdin_config [])).
  vm_compute. reflexivity.
Defined.
